(** * Blue Archive TL assistant: timeline engine and RadiatorManager

    A shallow embedding of the timeline conversion engine
    ([TimelineProcessor] and its helpers in tl-editor.js) and of the
    [RadiatorManager] class (TL-assistant-utils.js), together with the
    properties the specification states about them.  Part III adds
    properties of the code around them: the reading of a time text and
    of the direction of a timeline, the display of a frame, the
    remaining methods of the engine and of [RadiatorManager], and what a
    second conversion of the same rows gives.

    Conventions of the embedding.
    - Frames and participant counts are integers ([Z]).  Costs, cost
      points, recovery rates and times in seconds are JavaScript numbers;
      they are modelled as exact rationals ([Q]), compared with [Qeq].
      The code computes with binary64 numbers: where a result depends on
      the rounding of one operation (a quotient taken up by [Math.ceil],
      a product rounded by [Math.round]), the frame that the code
      computes can differ by one from the exact one.
    - A JavaScript [null]/[undefined] field is [None].  Where the code
      only ever uses such a value through arithmetic or an ordering test
      ([null < n], [n + null]), it is read as [0], as JavaScript does.
    - Objects that the code mutates in place (the rows of [input_json],
      the entries of [additional_events]) are threaded explicitly: a
      function that writes into a row returns the row it leaves behind,
      and an entry of [additional_events] is addressed by its index.
    - A thrown [Error] is a value of type [Error]; the constructors follow
      the message templates of the source.
    - A string is the UTF-8 encoding of the JavaScript string. *)

From Stdlib Require Import ZArith QArith Qabs Qround Lqa Ascii Sorted.
From stdpp Require Import gmap strings list pretty.

Open Scope Z_scope.

(* ================================================================== *)
(** * Part I: definitions                                              *)
(* ================================================================== *)

(** ** Exceptions *)

Inductive Error : Type :=
  | TooManyBuffs (n : nat)      (* バフの個数が${n}個で上限（6個）を超えています *)
  | ZeroRecovery                (* コスト回復量が0以下です。戦闘開始前の可能性があります。 *)
  | NoAnchor                    (* 時間、参照、またはコスト指定のいずれかが必要です *)
  | InfiniteLoop (line : nat)   (* 無限ループが発生しました (行${index + 1}) *)
  | RowError (line : nat) (cause : Error)  (* 行${index + 1}の処理エラー: ${message} *)
  | CreateError (cause : Error) (* TimelineProcessor.createTimelineJSON実行エラー: ${message} *)
  | JsTypeError.                (* property access on undefined *)

Inductive result (A : Type) : Type :=
  | Ok (a : A)
  | Err (e : Error).
Arguments Ok {A} a.
Arguments Err {A} e.

#[global] Instance result_ret : MRet result := fun A a => Ok a.
#[global] Instance result_bind : MBind result := fun A B k r =>
  match r with
  | Ok a => k a
  | Err e => Err e
  end.

(** [try { body } catch (e) { throw wrap(e) }] *)
Definition catch_rethrow {A} (wrap : Error -> Error) (r : result A) : result A :=
  match r with
  | Ok a => Ok a
  | Err e => Err (wrap e)
  end.

(** ** JavaScript primitives used by the engine *)

Module Js.

(** Truthiness of a value that may be [null]/[undefined]. *)
Definition truthyZ (v : option Z) : bool :=
  match v with Some z => negb (z =? 0) | None => false end.

Definition truthyQ (v : option Q) : bool :=
  match v with Some q => negb (Qeq_bool q 0) | None => false end.

Definition truthyS (v : option string) : bool :=
  match v with Some s => negb (String.eqb s "") | None => false end.

(** [a > b] and [a <= b] on numbers. *)
Definition gtQ (a b : Q) : bool := negb (Qle_bool a b).
Definition leQ (a b : Q) : bool := Qle_bool a b.

(** [Math.round] (half up) and [Math.ceil]. *)
Definition round (x : Q) : Z := Qfloor (x + (1 # 2))%Q.
Definition ceil (x : Q) : Z := Qceiling x.

(** [String.prototype.includes]. *)
Fixpoint includes (s pat : string) : bool :=
  String.prefix pat s ||
  match s with
  | EmptyString => false
  | String _ s' => includes s' pat
  end.

(** The rest of [s] after the first occurrence of [pat], if any. *)
Fixpoint after_first (pat s : string) : option string :=
  if String.prefix pat s
  then Some (String.substring (String.length pat)
                              (String.length s - String.length pat) s)
  else match s with
       | EmptyString => None
       | String _ s' => after_first pat s'
       end.

(** [s.replace(/pat/, by)] for a literal pattern: first occurrence only. *)
Fixpoint replace_first (pat by_ s : string) : string :=
  if String.prefix pat s
  then by_ +:+ String.substring (String.length pat)
                                (String.length s - String.length pat) s
  else match s with
       | EmptyString => EmptyString
       | String c s' => String c (replace_first pat by_ s')
       end.

(** [s.replace(/pat/g, by)] for a literal, non-empty pattern. *)
Fixpoint replace_all_fuel (fuel : nat) (pat by_ s : string) : string :=
  match fuel with
  | O => s
  | S fuel' =>
      if String.prefix pat s
      then by_ +:+ replace_all_fuel fuel' pat by_
                     (String.substring (String.length pat)
                        (String.length s - String.length pat) s)
      else match s with
           | EmptyString => EmptyString
           | String c s' => String c (replace_all_fuel fuel' pat by_ s')
           end
  end.
Definition replace_all (pat by_ s : string) : string :=
  replace_all_fuel (S (String.length s)) pat by_ s.

(** [String.prototype.trim] strips the WhiteSpace and LineTerminator
    characters of ECMAScript.  In UTF-8 these are the one-byte characters
    U+0009-U+000D and U+0020, the two-byte U+00A0 (C2 A0) and the
    three-byte U+1680 (E1 9A 80), U+2000-U+200A (E2 80 80-8A), U+2028,
    U+2029 (E2 80 A8, A9), U+202F (E2 80 AF), U+205F (E2 81 9F), U+3000
    (E3 80 80) and U+FEFF (EF BB BF). *)
Definition is_space2 (c1 c2 : Ascii.ascii) : bool :=
  ((Ascii.nat_of_ascii c1 =? 194) && (Ascii.nat_of_ascii c2 =? 160))%nat.

Definition is_space3 (c1 c2 c3 : Ascii.ascii) : bool :=
  let n1 := Ascii.nat_of_ascii c1 in
  let n2 := Ascii.nat_of_ascii c2 in
  let n3 := Ascii.nat_of_ascii c3 in
  (((n1 =? 225) && (n2 =? 154) && (n3 =? 128)) ||
   ((n1 =? 226) && (n2 =? 128) &&
    (((128 <=? n3) && (n3 <=? 138)) || (n3 =? 168) || (n3 =? 169) || (n3 =? 175))) ||
   ((n1 =? 226) && (n2 =? 129) && (n3 =? 159)) ||
   ((n1 =? 227) && (n2 =? 128) && (n3 =? 128)) ||
   ((n1 =? 239) && (n2 =? 187) && (n3 =? 191)))%nat.

(** The string without the white space at its head.  With [backwards]
    the string is read from its end: [s] is then a reversed string, and
    the bytes of a character come last byte first. *)
Fixpoint strip_spaces (backwards : bool) (s : string) : string :=
  match s with
  | EmptyString => EmptyString
  | String c1 s1 =>
      if Ascii.is_space c1 then strip_spaces backwards s1
      else
        match s1 with
        | EmptyString => s
        | String c2 s2 =>
            if (if backwards then is_space2 c2 c1 else is_space2 c1 c2)
            then strip_spaces backwards s2
            else
              match s2 with
              | EmptyString => s
              | String c3 s3 =>
                  if (if backwards then is_space3 c3 c2 c1 else is_space3 c1 c2 c3)
                  then strip_spaces backwards s3
                  else s
              end
        end
  end.

Definition trim_start (s : string) : string := strip_spaces false s.
Definition trim (s : string) : string :=
  String.rev (strip_spaces true (String.rev (trim_start s))).

(** [String.prototype.toLowerCase], for the ASCII letters. *)
Definition lower_ascii (c : Ascii.ascii) : Ascii.ascii :=
  let n := Ascii.nat_of_ascii c in
  if ((65 <=? n) && (n <=? 90))%nat then Ascii.ascii_of_nat (n + 32) else c.
Fixpoint toLowerCase (s : string) : string :=
  match s with
  | EmptyString => EmptyString
  | String c s' => String (lower_ascii c) (toLowerCase s')
  end.

(** Number to string, as in a template literal [`${n}`]: an integer
    prints its decimal digits, a finite decimal its digits after the
    point. *)
Fixpoint frac_digits (fuel : nat) (r : Q) : string :=
  match fuel with
  | O => EmptyString
  | S fuel' =>
      if Qeq_bool r 0 then EmptyString
      else let r10 := Qred (r * 10) in
           let d := Qfloor r10 in
           pretty d +:+ frac_digits fuel' (Qred (r10 - inject_Z d))
  end.
Definition string_of_number (x : Q) : string :=
  let a := Qred (Qabs x) in
  let ip := Qfloor a in
  let fr := Qred (a - inject_Z ip) in
  (if Qle_bool 0 x then "" else "-") +:+ pretty ip +:+
  (if Qeq_bool fr 0 then "" else "." +:+ frac_digits 17 fr).

(** *** Reading and printing decimal numbers *)

Definition is_digit (c : Ascii.ascii) : bool :=
  let n := Ascii.nat_of_ascii c in ((48 <=? n) && (n <=? 57))%nat.

Definition digit_value (c : Ascii.ascii) : N := N.of_nat (Ascii.nat_of_ascii c - 48).

(** The decimal digits at the head of [s]: their value read after
    [acc], how many they are, and the rest of [s]. *)
Fixpoint read_digits (acc : N) (s : string) : N * nat * string :=
  match s with
  | String c s' =>
      if is_digit c
      then let '(v, n, rest) := read_digits (acc * 10 + digit_value c) s' in (v, S n, rest)
      else (acc, O, s)
  | EmptyString => (acc, O, EmptyString)
  end.

(** [parseFloat] on a string without white space, sign or exponent, as
    the time parser applies it: the longest prefix of the form
    [digits], [digits.digits], [digits.] or [.digits]; [None] is NaN. *)
Definition parseFloat (s : string) : option Q :=
  let '(ip, ni, rest) := read_digits 0 s in
  match rest with
  | String "."%char rest' =>
      let '(fp, nf, _) := read_digits 0 rest' in
      if ((ni =? 0) && (nf =? 0))%nat then None
      else Some (inject_Z (Z.of_N ip) +
                 inject_Z (Z.of_N fp) / inject_Z (10 ^ Z.of_nat nf))%Q
  | _ => if (ni =? 0)%nat then None else Some (inject_Z (Z.of_N ip))
  end.

(** [s.split(c)] for a one-character separator. *)
Fixpoint split (c : Ascii.ascii) (s : string) : list string :=
  match s with
  | EmptyString => [EmptyString]
  | String a s' =>
      if Ascii.eqb a c then EmptyString :: split c s'
      else match split c s' with
           | part :: parts => String a part :: parts
           | [] => [String a EmptyString]
           end
  end.

(** [(s.match(/c/g) || []).length] for a one-character pattern. *)
Fixpoint count_char (c : Ascii.ascii) (s : string) : nat :=
  match s with
  | EmptyString => O
  | String a s' => if Ascii.eqb a c then S (count_char c s') else count_char c s'
  end.

(** [s.replace(/[^...]/g, '')]: the characters of [s] that [keep] accepts. *)
Fixpoint filter_chars (keep : Ascii.ascii -> bool) (s : string) : string :=
  match s with
  | EmptyString => EmptyString
  | String a s' => if keep a then String a (filter_chars keep s') else filter_chars keep s'
  end.

(** [s.padStart(n, '0')] *)
Definition padStart0 (n : nat) (s : string) : string :=
  Nat.iter (n - String.length s) (String "0"%char) s.

(** [a % b]: the remainder has the sign of the dividend. *)
Definition remainder (a b : Q) : Q :=
  let q := (a / b)%Q in
  (a - b * inject_Z (Z.quot (Qnum q) (Zpos (Qden q))))%Q.

(** [x.toFixed(digits)], for [x] below 10^21: the integer [n] nearest to
    [|x| * 10^digits] (the larger one of two), printed with at least
    [digits + 1] digits and the point before the last [digits]. *)
Definition toFixed (digits : nat) (x : Q) : string :=
  let n := Qfloor (Qabs x * inject_Z (10 ^ Z.of_nat digits) + (1 # 2))%Q in
  let m := padStart0 (S digits) (pretty n) in
  let k := String.length m in
  (if Qle_bool 0 x then "" else "-") +:+
  (if (digits =? 0)%nat then m
   else String.substring 0 (k - digits) m +:+ "." +:+ String.substring (k - digits) digits m).

End Js.

(** ** utilities.js *)

Module Utilities.

Definition FPS : Z := 30.

(** [secondsToFrames]: a value that is not a number gives frame 0. *)
Definition secondsToFrames (seconds : option Q) : Z :=
  match seconds with
  | Some s => Js.round (s * inject_Z FPS)%Q
  | None => 0
  end.

Definition framesToSeconds (frames : Z) : Q := (inject_Z frames / inject_Z FPS)%Q.

End Utilities.

(** ** TL-assistant-utils.js: RadiatorManager *)

Module RadiatorManager.

Record RadiatorEvent : Type := {
  frame : Z;
  event_name : string;
  is_start : bool;
  is_end : bool
}.

Record RadiatorInterval : Type := {
  start_frame : Z;
  end_frame : Z;
  auto_extended : bool
}.

Record t : Type := {
  radiator_events : list RadiatorEvent;
  radiator_intervals : list RadiatorInterval
}.

(** /ラジエータ|過負荷/ followed, later in the name, by one of [chars]. *)
Definition marker_then (chars : list string) (name : string) : bool :=
  let tails := omap (fun p => Js.after_first p name) ["ラジエータ"; "過負荷"] in
  existsb (fun tl => existsb (fun c => Js.includes tl c) chars) tails.

Definition isRadiatorEvent (name : string) : bool :=
  Js.includes name "ラジエータ" || Js.includes name "過負荷".
Definition isRadiatorStart (name : string) : bool :=
  marker_then ["始"; "起"] name.
Definition isRadiatorEnd (name : string) : bool :=
  marker_then ["終"; "了"; "停"; "止"] name.

(** Body of the [for] loop of [calculateRadiatorIntervals]; the state is
    ([current_start_frame], [this.radiator_intervals]). *)
Definition scan_step (st : option Z * list RadiatorInterval)
    (event : RadiatorEvent) : option Z * list RadiatorInterval :=
  match st with
  | (None, intervals) =>
      if is_start event then (Some (frame event), intervals)
      else (None, intervals)
  | (Some current_start_frame, intervals) =>
      if is_end event
      then (None, intervals ++
                  [{| start_frame := current_start_frame;
                      end_frame := frame event;
                      auto_extended := false |}])
      else (Some current_start_frame, intervals)
  end.

Definition scan (events : list RadiatorEvent) : option Z * list RadiatorInterval :=
  fold_left scan_step events (None, []).

(** The closing [if] of [calculateRadiatorIntervals]. *)
Definition extend_open (st : option Z * list RadiatorInterval)
    (battle_time_frames : option Z) : list RadiatorInterval :=
  match st, battle_time_frames with
  | (Some current_start_frame, intervals), Some btf =>
      intervals ++ [{| start_frame := current_start_frame;
                       end_frame := btf;
                       auto_extended := true |}]
  | (_, intervals), _ => intervals
  end.

Definition calculateRadiatorIntervals (m : t) (battle_time_frames : option Z) : t :=
  {| radiator_events := radiator_events m;
     radiator_intervals := extend_open (scan (radiator_events m)) battle_time_frames |}.

Fixpoint active_in (intervals : list RadiatorInterval) (frame : Z) : bool :=
  match intervals with
  | [] => false
  | interval :: rest =>
      if (start_frame interval <=? frame) && (frame <? end_frame interval)
      then true
      else active_in rest frame
  end.

Definition isRadiatorActiveAt (m : t) (frame : Z) : bool :=
  active_in (radiator_intervals m) frame.

(** [getActiveRadiatorInterval]: the first recorded interval that holds
    the frame, [None] for [null]. *)
Fixpoint first_active (intervals : list RadiatorInterval) (frame : Z)
    : option RadiatorInterval :=
  match intervals with
  | [] => None
  | interval :: rest =>
      if (start_frame interval <=? frame) && (frame <? end_frame interval)
      then Some interval
      else first_active rest frame
  end.

Definition getActiveRadiatorInterval (m : t) (frame : Z) : option RadiatorInterval :=
  first_active (radiator_intervals m) frame.

Definition getRadiatorIntervalCount (m : t) : nat := length (radiator_intervals m).

(** A row of the timeline that [extractAndProcessRadiatorEvents] reads:
    [frame] is a number or absent; [time] is absent, [null] or a number. *)
Inductive JsTime : Type :=
  | time_undefined
  | time_null
  | time_number (seconds : Q).

Record TimelineRow : Type := {
  tl_frame : option Z;
  tl_time : JsTime;
  tl_event_name : string;
  tl_is_special_command : bool
}.

(** The frame of a marker row: [event.frame], else the frame of
    [event.time] ([secondsToFrames] gives 0 for [null]); a row with
    neither is skipped. *)
Definition frame_of_row (event : TimelineRow) : option Z :=
  match tl_frame event with
  | Some frame => Some frame
  | None =>
      match tl_time event with
      | time_undefined => None
      | time_null => Some (Utilities.secondsToFrames None)
      | time_number seconds => Some (Utilities.secondsToFrames (Some seconds))
      end
  end.

Definition radiator_event_of (event : TimelineRow) : option RadiatorEvent :=
  if isRadiatorEvent (tl_event_name event) then
    match frame_of_row event with
    | Some frame =>
        Some {| frame := frame;
                event_name := tl_event_name event;
                is_start := isRadiatorStart (tl_event_name event);
                is_end := isRadiatorEnd (tl_event_name event) |}
    | None => None
    end
  else None.

(** [radiator_events.sort((a, b) => a.frame - b.frame)]: the sort is
    stable, so events of one frame keep their order. *)
Fixpoint insert_by_frame (event : RadiatorEvent) (sorted : list RadiatorEvent)
    : list RadiatorEvent :=
  match sorted with
  | [] => [event]
  | other :: rest =>
      if frame event <=? frame other then event :: sorted
      else other :: insert_by_frame event rest
  end.

Definition sort_by_frame (events : list RadiatorEvent) : list RadiatorEvent :=
  foldr insert_by_frame [] events.

Definition mark_special (event : TimelineRow) : TimelineRow :=
  if isRadiatorEvent (tl_event_name event)
  then {| tl_frame := tl_frame event; tl_time := tl_time event;
          tl_event_name := tl_event_name event; tl_is_special_command := true |}
  else event.

(** Returns the manager and the rows of [timeline], which it flags. *)
Definition extractAndProcessRadiatorEvents (m : t) (timeline : list TimelineRow)
    : t * list TimelineRow :=
  ({| radiator_events := sort_by_frame (omap radiator_event_of timeline);
      radiator_intervals := radiator_intervals m |},
   List.map mark_special timeline).

End RadiatorManager.

(** ** TL-assistant-utils.js: reading a timeline text *)

Module AssistantUtils.

(** [/[^0-9:.]/] *)
Definition time_char (c : Ascii.ascii) : bool :=
  Js.is_digit c || Ascii.eqb c ":"%char || Ascii.eqb c "."%char.

(** [parseFloat(s) || 0] *)
Definition number_or_0 (s : string) : Q := default 0%Q (Js.parseFloat s).

(** [parseTimeToSeconds]; [None] is [null]. *)
Definition parseTimeToSeconds (timeStr : string) : option Q :=
  let clean := Js.filter_chars time_char timeStr in
  if negb (String.eqb clean timeStr) || String.eqb clean "" then None
  else if Js.includes clean ":" then
    let parts := Js.split ":"%char clean in
    let min := default "" (parts !! 0%nat) in
    let sec := default "" (parts !! 1%nat) in
    Some (number_or_0 min * 60 + number_or_0 sec)%Q
  else if (Js.count_char "."%char clean =? 2)%nat then
    let parts := Js.split "."%char clean in
    let min := default "" (parts !! 0%nat) in
    let sec := default "" (parts !! 1%nat) in
    let ms := default "" (parts !! 2%nat) in
    Some (number_or_0 min * 60 + number_or_0 sec + number_or_0 ("0." +:+ ms))%Q
  else if Js.includes clean "." then
    match Js.parseFloat clean with
    | Some seconds => if Qeq_bool seconds 0 then None else Some seconds
    | None => None
    end
  else Js.parseFloat clean.

(** An event as [parseTimelineEvent] returns it. *)
Record ParsedEvent : Type := {
  time : option Q;
  cost_before_use : option Q;
  event_name : string;
  cost_used : Q
}.

(** The loop of [detectTimelineDirection] over the times: the numbers
    of steps up and of steps down. *)
Fixpoint count_steps (previous : Q) (times : list Q) : nat * nat :=
  match times with
  | [] => (O, O)
  | t :: rest =>
      let '(fwd, bwd) := count_steps t rest in
      if Js.gtQ t previous then (S fwd, bwd)
      else if Js.gtQ previous t then (fwd, S bwd)
      else (fwd, bwd)
  end.

Definition detectTimelineDirection (events : list ParsedEvent) : string :=
  let times := omap time events in
  match times with
  | first :: ((_ :: _) as rest) =>
      let '(fwd, bwd) := count_steps first rest in
      if (fwd <=? bwd)%nat then "backward" else "forward"
  | _ => "backward"
  end.

End AssistantUtils.

(** ** tl-editor.js: data *)

Module TLEditor.

Import Utilities.

Definition COST_POINT_UNIT : Q := 300000.   (* 30 * 10000 *)
Definition DEFAULT_MAX_COST : Q := 10.

(** The options of [settings] that the engine reads.  [kanoe_ss] and
    [cherino_ss] hold [parseInt(settings.kanoe_ss) || 0]. *)
Record Settings : Type := {
  max_cost : option Q;
  ss_enabled : bool;
  special_command_accepted : option string;
  modifier_always_forward : option string;
  time_display_format : option string;
  seia_koyuu2 : option string;
  kanoe_ss : Z;
  cherino_ss : Z
}.

(** A row of [input_json.timeline], with the properties the engine
    reads or writes.  [row_event_name], [row_cost_used] and [row_value]
    hold [""] and [0] for a missing property. *)
Record Row : Type := {
  row_frame : option Z;
  row_time : option Q;
  reference : option string;
  cost_timing : option Q;
  explicit_cost_timing : bool;
  modifier : option string;
  modified_amount : option Q;
  row_event_name : string;
  row_cost_used : Q;
  label : option string;
  row_note : option (list string);
  row_duration : option Q;
  row_value : Q;
  row_target : option string;
  is_special_command : bool
}.

Record LabelEntry : Type := {
  le_time : option Q;
  le_frame : option Z
}.

(** An entry of [timeline_json.additional_events]. *)
Record BuffEvent : Type := {
  start_frame : Z;
  end_frame : Z;
  event_name : string;
  buff_target : option string;
  duration : Q;
  buff_amount : Q;
  active : bool
}.

(** A detection or exclusion pattern of the catalog: [{type: 'regex'}]
    patterns are represented by the test their regular expression
    performs, the others are searched as substrings. *)
Inductive Pattern : Type :=
  | RegexPattern (test : string -> bool)
  | StringPattern (pattern : string).

(** [duration_frames] is a number or an array of numbers. *)
Inductive Duration : Type :=
  | DurationNumber (d : Z)
  | DurationArray (ds : list Z).

(** A catalog entry (also the shape of [buff_info]); a [null] amount or
    offset is [0]. *)
Record BuffConfig : Type := {
  buff_name : string;
  cfg_buff_target : option string;
  cfg_buff_amount : Q;
  base_buff_amount : Q;
  additional_buff_amount : Q;
  duration_frames : Duration;
  offset_frames : Z;
  detection_patterns : list Pattern;
  exclusion_patterns : option (list Pattern)
}.

(** [cost_recovery_buffs], in the order of [Object.entries]. *)
Definition BuffData : Type := list (string * BuffConfig).

Definition get_buff (data : BuffData) (key : string) : option BuffConfig :=
  snd <$> List.find (fun kv => String.eqb (fst kv) key) data.

(** [this.state] *)
Record State : Type := {
  remaining_cost_points : Q;
  total_cost_recovery : Q;
  remaining_students : Z;
  current_frame : Z
}.

(** An element of [timeline_json.timeline]; [overflow_cost] is absent
    when the commit did not advance the frame. *)
Record TimelineEvent : Type := {
  te_frame : Z;
  te_cost_used : Q;
  te_event_name : string;
  current_cost_display_only : Q;
  te_remaining_cost_points : Q;
  te_note : list string;
  overflow_cost : option Q;
  te_total_cost_recovery : Q;
  te_remaining_students : Z
}.

(** The fields of a [TimelineProcessor]: [timeline] and
    [additional_events] are those of [timeline_json]; [window_BUFF_DATA]
    is the global that [processSpecialCommand] reads.  The rows of
    [this.input_json], which belong to the caller and which the
    processor writes into, are passed to [createTimelineJSON] and
    returned by it as it leaves them. *)
Record Processor : Type := {
  settings : Settings;
  buff_data : option BuffData;
  window_BUFF_DATA : option BuffData;
  max_cost_points : Q;
  state : State;
  label_map : gmap string LabelEntry;
  timeline : list TimelineEvent;
  additional_events : list BuffEvent
}.

Definition with_label_map (p : Processor) (m : gmap string LabelEntry) : Processor :=
  {| settings := settings p; buff_data := buff_data p;
     window_BUFF_DATA := window_BUFF_DATA p;
     max_cost_points := max_cost_points p; state := state p;
     label_map := m; timeline := timeline p;
     additional_events := additional_events p |}.

Definition with_additional_events (p : Processor) (evs : list BuffEvent) : Processor :=
  {| settings := settings p; buff_data := buff_data p;
     window_BUFF_DATA := window_BUFF_DATA p;
     max_cost_points := max_cost_points p; state := state p;
     label_map := label_map p; timeline := timeline p;
     additional_events := evs |}.

Definition push_note (note : option (list string)) (msg : string) : option (list string) :=
  Some (default [] note ++ [msg]).

Definition with_row_note (row : Row) (note : option (list string)) : Row :=
  {| row_frame := row_frame row; row_time := row_time row;
     reference := reference row; cost_timing := cost_timing row;
     explicit_cost_timing := explicit_cost_timing row;
     modifier := modifier row; modified_amount := modified_amount row;
     row_event_name := row_event_name row; row_cost_used := row_cost_used row;
     label := label row; row_note := note;
     row_duration := row_duration row; row_value := row_value row;
     row_target := row_target row; is_special_command := is_special_command row |}.

Definition with_is_special_command (row : Row) (b : bool) : Row :=
  {| row_frame := row_frame row; row_time := row_time row;
     reference := reference row; cost_timing := cost_timing row;
     explicit_cost_timing := explicit_cost_timing row;
     modifier := modifier row; modified_amount := modified_amount row;
     row_event_name := row_event_name row; row_cost_used := row_cost_used row;
     label := label row; row_note := row_note row;
     row_duration := row_duration row; row_value := row_value row;
     row_target := row_target row; is_special_command := b |}.

(** [row.frame = frame; row.time = framesToSeconds(frame)] *)
Definition with_row_frame (row : Row) (frame : Z) : Row :=
  {| row_frame := Some frame; row_time := Some (framesToSeconds frame);
     reference := reference row; cost_timing := cost_timing row;
     explicit_cost_timing := explicit_cost_timing row;
     modifier := modifier row; modified_amount := modified_amount row;
     row_event_name := row_event_name row; row_cost_used := row_cost_used row;
     label := label row; row_note := row_note row;
     row_duration := row_duration row; row_value := row_value row;
     row_target := row_target row; is_special_command := is_special_command row |}.

(** The argument of [addEventToTimeline]: an [input_row] event (a
    processed row or one of [DEFAULT_EVENTS]), or an [additional_event],
    which is a copy of an entry of [additional_events] tagged with the
    transition to commit and carrying [original_event], the entry
    itself, here its index. *)
Record InputEvent : Type := {
  ie_frame : Z;
  ie_cost_used : Q;
  ie_event_name : string;
  ie_note : option (list string);
  ie_remaining_students : option Z
}.

Inductive TransitionType : Type := start | end_.

Inductive TimelineInput : Type :=
  | input_row (event : InputEvent)
  | additional_event (event : BuffEvent) (event_type : option TransitionType)
                     (original_event : option nat).

Definition TIME_START : InputEvent :=
  {| ie_frame := 0; ie_cost_used := 0; ie_event_name := "タイム計測開始";
     ie_note := None; ie_remaining_students := Some 0 |}.

Definition BATTLE_START : InputEvent :=
  {| ie_frame := 60; ie_cost_used := 0; ie_event_name := "戦闘開始";
     ie_note := None; ie_remaining_students := Some 6 |}.

(** ** Cost recovery *)

Inductive BuffScope : Type := GlobalBuff | AllStudentBuff | IndividualBuff.

(** The classification by [buff_target] in [calculateTotalCostRecovery]. *)
Definition classify (event : BuffEvent) : BuffScope :=
  match buff_target event with
  | Some "NA" => GlobalBuff
  | Some t =>
      if negb (String.eqb t "") &&
         (String.eqb (Js.toLowerCase t) "all" || String.eqb t "全員" || String.eqb t "全体")
      then AllStudentBuff else IndividualBuff
  | None => IndividualBuff
  end.

(** [event.active && event.start_frame <= current_frame &&
     event.end_frame > current_frame] *)
Definition in_effect (current_frame : Z) (event : BuffEvent) : bool :=
  active event && (start_frame event <=? current_frame) && (current_frame <? end_frame event).

Definition is_scope (s : BuffScope) (event : BuffEvent) : bool :=
  match classify event, s with
  | GlobalBuff, GlobalBuff | AllStudentBuff, AllStudentBuff
  | IndividualBuff, IndividualBuff => true
  | _, _ => false
  end.

Definition buffs_in_effect (s : BuffScope) (additional_events : list BuffEvent)
    (current_frame : Z) : list BuffEvent :=
  List.filter (fun event => in_effect current_frame event && is_scope s event)
              additional_events.

Definition cost_recovery_ss_multiplier : Q := 2029 # 10000.

(** [ss_enabled ? Math.round(x * (1 + cost_recovery_ss_multiplier)) : x] *)
Definition ss_actual (ss_enabled : bool) (x : Q) : Q :=
  if ss_enabled then inject_Z (Js.round (x * (1 + cost_recovery_ss_multiplier))%Q) else x.

Definition calculateTotalCostRecovery (additional_events : list BuffEvent)
    (current_frame : Z) (ss_enabled : bool) (active_students : Z) : result Q :=
  let active_buffs := buffs_in_effect IndividualBuff additional_events current_frame in
  let global_buffs := buffs_in_effect GlobalBuff additional_events current_frame in
  let all_student_buffs := buffs_in_effect AllStudentBuff additional_events current_frame in
  if (7 <=? length active_buffs)%nat then Err (TooManyBuffs (length active_buffs))
  else
    let base_recovery : Q := 700%Q in
    let all_student_buff_total :=
      fold_left (fun acc buff => acc + buff_amount buff)%Q all_student_buffs 0%Q in
    let total_cost_recovery :=
      fold_left (fun acc buff =>
                   acc + ss_actual ss_enabled
                           (base_recovery + buff_amount buff + all_student_buff_total))%Q
                active_buffs 0%Q in
    let unbuffed_students := active_students - Z.of_nat (length active_buffs) in
    let total_cost_recovery :=
      if 0 <? unbuffed_students
      then (total_cost_recovery +
            inject_Z unbuffed_students *
            ss_actual ss_enabled (base_recovery + all_student_buff_total))%Q
      else total_cost_recovery in
    let global_buff_total :=
      fold_left (fun acc buff => acc + ss_actual ss_enabled (buff_amount buff))%Q
                global_buffs 0%Q in
    Ok (total_cost_recovery + global_buff_total)%Q.

(** ** Buff events *)

(** [Array.isArray(d) ? d[0] : d], and [d[1]] for the second variant.
    A missing element (which makes [end_frame] NaN in JavaScript, and
    which no catalog entry has) is read as 0. *)
Definition duration_first (d : Duration) : Z :=
  match d with
  | DurationNumber n => n
  | DurationArray ds => default 0 (ds !! 0%nat)
  end.
Definition duration_index (d : Duration) (i : nat) : Z :=
  match d with
  | DurationNumber _ => 0
  | DurationArray ds => default 0 (ds !! i)
  end.

Definition createBuffEvent (buff_info : BuffConfig) (start_frame0 : Z)
    (settings : Settings) : BuffEvent :=
  let actual_start_frame := start_frame0 + offset_frames buff_info in
  let duration_frames0 := duration_first (duration_frames buff_info) in
  let duration_frames1 :=
    if String.eqb (buff_name buff_info) "セイアEX"
    then
      let seia := if Js.truthyS (seia_koyuu2 settings)
                  then default "yes" (seia_koyuu2 settings) else "yes" in
      if String.eqb seia "yes"
      then duration_index (duration_frames buff_info) 1
      else duration_index (duration_frames buff_info) 0
    else duration_frames0 in
  {| start_frame := actual_start_frame;
     end_frame := actual_start_frame + duration_frames1;
     event_name := buff_name buff_info;
     buff_target := cfg_buff_target buff_info;
     duration := ((inject_Z duration_frames1 / 30) * 1000)%Q;
     buff_amount := cfg_buff_amount buff_info;
     active := false |}.

Definition set_end_frame (b : BuffEvent) (new_end : Z) : BuffEvent :=
  {| start_frame := start_frame b; end_frame := new_end;
     event_name := event_name b; buff_target := buff_target b;
     duration := ((inject_Z (new_end - start_frame b) / 30) * 1000)%Q;
     buff_amount := buff_amount b; active := active b |}.

Definition set_active (a : bool) (b : BuffEvent) : BuffEvent :=
  {| start_frame := start_frame b; end_frame := end_frame b;
     event_name := event_name b; buff_target := buff_target b;
     duration := duration b; buff_amount := buff_amount b; active := a |}.

(** ** Committing an event: [addEventToTimeline] *)

Definition target_frame_of (input : TimelineInput) : Z :=
  match input with
  | input_row event => ie_frame event
  | additional_event event (Some end_) _ => end_frame event
  | additional_event event _ _ => start_frame event
  end.

(** [event.original_event.active = true / false] *)
Definition mark_original (input : TimelineInput) (additional_events : list BuffEvent)
    : list BuffEvent :=
  match input with
  | additional_event _ (Some start) (Some i) => alter (set_active true) i additional_events
  | additional_event _ (Some end_) (Some i) => alter (set_active false) i additional_events
  | _ => additional_events
  end.

Definition formatted_cost_used (input : TimelineInput) : Q :=
  match input with
  | input_row event => ie_cost_used event
  | additional_event _ _ _ => 0%Q
  end.

Definition formatted_event_name (input : TimelineInput) : string :=
  match input with
  | input_row event => ie_event_name event
  | additional_event event ty _ =>
      (if String.eqb (event_name event) "" then "バフイベント" else event_name event) +:+
      match ty with
      | Some start => "開始"
      | Some end_ => "終了"
      | None => ""
      end
  end.

Definition formatted_note (input : TimelineInput) : list string :=
  match input with
  | input_row event => default [] (ie_note event)
  | additional_event _ _ _ => []
  end.

(** Step 1: recovery over the elapsed frames, with the cap.  Returns the
    new [remaining_cost_points] and the [overflow_cost] to record. *)
Definition accrue (p : Processor) (target_frame : Z) : Q * option Q :=
  if current_frame (state p) <? target_frame then
    let frame_diff := target_frame - current_frame (state p) in
    let recovery_points := (inject_Z frame_diff * total_cost_recovery (state p))%Q in
    let points := (remaining_cost_points (state p) + recovery_points)%Q in
    if Js.gtQ points (max_cost_points p)
    then (max_cost_points p,
          Some ((points - max_cost_points p) / COST_POINT_UNIT)%Q)
    else (points, Some 0%Q)
  else (remaining_cost_points (state p), None).

(** Step 3: [remaining_students], when the event carries one. *)
Definition students_after (p : Processor) (input : TimelineInput) : Z :=
  match input with
  | input_row event => default (remaining_students (state p)) (ie_remaining_students event)
  | additional_event _ _ _ => remaining_students (state p)
  end.

(** Step 4: payment, for an [input_row] event with a non-zero cost. *)
Definition pay (input : TimelineInput) (points : Q) : Q :=
  match input with
  | input_row event =>
      if negb (Qeq_bool (ie_cost_used event) 0)
      then (points - ie_cost_used event * COST_POINT_UNIT)%Q
      else points
  | additional_event _ _ _ => points
  end.

(** When the recomputation of the rate throws, the exception leaves the
    processor through [createTimelineJSON]; no result is produced. *)
Definition addEventToTimeline (p : Processor) (input : TimelineInput) : result Processor :=
  let target_frame := target_frame_of input in
  let events := mark_original input (additional_events p) in
  let '(points, overflow) := accrue p target_frame in
  let students := students_after p input in
  let points := pay input points in
  rate ← calculateTotalCostRecovery events target_frame (ss_enabled (settings p)) students;
  let formatted_event :=
    {| te_frame := target_frame;
       te_cost_used := formatted_cost_used input;
       te_event_name := formatted_event_name input;
       current_cost_display_only := (points / COST_POINT_UNIT)%Q;
       te_remaining_cost_points := points;
       te_note := formatted_note input;
       overflow_cost := overflow;
       te_total_cost_recovery := rate;
       te_remaining_students := students |} in
  Ok {| settings := settings p; buff_data := buff_data p;
        window_BUFF_DATA := window_BUFF_DATA p;
        max_cost_points := max_cost_points p;
        state := {| remaining_cost_points := points;
                    total_cost_recovery := rate;
                    remaining_students := students;
                    current_frame := target_frame |};
        label_map := label_map p;
        timeline := timeline p ++ [formatted_event];
        additional_events := events |}.

(** ** The next buff transition: [findMostRecentAdditionalEvent] *)

Record Transition : Type := {
  tr_frame : Z;
  tr_event : BuffEvent;
  tr_type : TransitionType;
  tr_original : nat
}.

(** [frames_to_check] for one entry. *)
Definition frames_to_check (current_frame : Z) (event : BuffEvent)
    : list (Z * TransitionType) :=
  if end_frame event <? current_frame then []
  else (if active event then [(end_frame event, end_)] else []) ++
       (if negb (active event) && (current_frame <=? start_frame event)
        then [(start_frame event, start)] else []).

Definition consider (i : nat) (event : BuffEvent) (most_recent : option Transition)
    (frame_info : Z * TransitionType) : option Transition :=
  let candidate := {| tr_frame := fst frame_info; tr_event := event;
                      tr_type := snd frame_info; tr_original := i |} in
  match most_recent with
  | None => Some candidate
  | Some best => if fst frame_info <? tr_frame best then Some candidate else most_recent
  end.

Fixpoint find_from (i : nat) (events : list BuffEvent) (current_frame : Z)
    (most_recent : option Transition) : option Transition :=
  match events with
  | [] => most_recent
  | event :: rest =>
      find_from (S i) rest current_frame
        (fold_left (consider i event) (frames_to_check current_frame event) most_recent)
  end.

Definition findMostRecentAdditionalEvent (additional_events : list BuffEvent)
    (current_frame : Z) : option Transition :=
  find_from 0 additional_events current_frame None.

(** ** Estimating the frame of a row *)

(** The notes that the estimation attaches. *)
Definition ALREADY_SATISFIED_NOTE (target_cost : Q) : string :=
  Js.string_of_number target_cost +:+ "コスは既に溜まっています".
Definition FORWARD_LABEL_NOTE (ref_label : string) : string :=
  "未来の時間を指定する場合、" +:+ ref_label +:+ "で時間指定が必要です".

Definition interpretSign (modifier_char : option string) (settings : Settings) : Z :=
  match modifier_char with
  | Some "+" | Some "-" =>
      let modifier_sign := if String.eqb (default "" modifier_char) "+" then 1 else -1 in
      let modifier_always_forward :=
        if Js.truthyS (modifier_always_forward settings)
        then default "" (modifier_always_forward settings) else "no" in
      let time_display_format :=
        if Js.truthyS (time_display_format settings)
        then default "" (time_display_format settings) else "backward" in
      if String.eqb modifier_always_forward "yes" then modifier_sign
      else if String.eqb time_display_format "backward" then -1 * modifier_sign
      else modifier_sign
  | _ => 0
  end.

(** Returns the frame and the row, whose [note] it may have written.
    A [null] frame of the label is returned as 0. *)
Definition calculateFramesFromReference (current_row : Row)
    (label_map : gmap string LabelEntry) (settings : Settings) : Z * Row :=
  let ref_label := default "" (reference current_row) in
  match label_map !! ref_label with
  | None =>
      (0, with_row_note current_row
            (push_note (row_note current_row) (ref_label +:+ "というラベルは存在しません")))
  | Some ref_event =>
      if negb (Js.truthyS (modifier current_row)) &&
         negb (Js.truthyQ (modified_amount current_row))
      then (default 0 (le_frame ref_event), current_row)
      else
        let '(ref_frame, row1) :=
          if Js.truthyZ (le_frame ref_event)
          then (default 0 (le_frame ref_event), current_row)
          else if Js.truthyQ (le_time ref_event)
          then (secondsToFrames (le_time ref_event), current_row)
          else
            let note0 := Some (default [] (row_note current_row)) in
            (0, with_row_note current_row
                  (if Js.truthyS (modifier current_row) &&
                      Js.truthyQ (modified_amount current_row)
                   then push_note note0 (FORWARD_LABEL_NOTE ref_label)
                   else note0)) in
        let mod_amount :=
          if Js.truthyQ (modified_amount current_row)
          then modified_amount current_row else Some 0%Q in
        let mod_frames := secondsToFrames mod_amount in
        let modifier_sign := interpretSign (modifier current_row) settings in
        (ref_frame + modifier_sign * mod_frames, row1)
  end.

Definition calculateFramesFromCostTiming (p : Processor) (cost_timing : Q)
    (current_row : option Row) : result (Z * option Row) :=
  let current_cost := (remaining_cost_points (state p) / COST_POINT_UNIT)%Q in
  let target_cost := cost_timing in
  if Js.leQ target_cost current_cost then
    let row1 :=
      match current_row with
      | Some row =>
          if explicit_cost_timing row
          then Some (with_row_note row
                       (push_note (row_note row) (ALREADY_SATISFIED_NOTE target_cost)))
          else Some row
      | None => None
      end in
    Ok (current_frame (state p), row1)
  else
    let cost_needed := (target_cost - current_cost)%Q in
    let cost_points_needed := (cost_needed * COST_POINT_UNIT)%Q in
    let current_total_cost_recovery := total_cost_recovery (state p) in
    if Js.leQ current_total_cost_recovery 0 then Err ZeroRecovery
    else
      let frames_needed_exact := (cost_points_needed / current_total_cost_recovery)%Q in
      let frames_needed := Js.ceil frames_needed_exact in
      Ok (current_frame (state p) + frames_needed, current_row).

Definition estimateFrameFromRow (p : Processor) (current_row : Row) : result (Z * Row) :=
  if Js.truthyZ (row_frame current_row)
  then Ok (default 0 (row_frame current_row), current_row)
  else if Js.truthyQ (row_time current_row)
  then Ok (secondsToFrames (row_time current_row), current_row)
  else if Js.truthyS (reference current_row)
  then Ok (calculateFramesFromReference current_row (label_map p) (settings p))
  else if Js.truthyQ (cost_timing current_row)
  then
    '(frame, row1) ← calculateFramesFromCostTiming p (default 0%Q (cost_timing current_row))
                       (Some current_row);
    Ok (frame, default current_row row1)
  else Err NoAnchor.

(** The anchor of a row, by the priority order of [estimateFrameFromRow]:
    a frame, else a time, else a label reference, else a target cost. *)
Inductive Anchor : Type :=
  | FrameAnchor (frame : Z)
  | TimeAnchor (time : Q)
  | ReferenceAnchor (ref_label : string)
  | CostAnchor (target_cost : Q)
  | Unanchored.

Definition anchor_of (row : Row) : Anchor :=
  if Js.truthyZ (row_frame row) then FrameAnchor (default 0 (row_frame row))
  else if Js.truthyQ (row_time row) then TimeAnchor (default 0%Q (row_time row))
  else if Js.truthyS (reference row) then ReferenceAnchor (default "" (reference row))
  else if Js.truthyQ (cost_timing row) then CostAnchor (default 0%Q (cost_timing row))
  else Unanchored.

(** ** Detecting and creating buffs *)

Definition pattern_matches (event_name : string) (pattern : Pattern) : bool :=
  match pattern with
  | RegexPattern test => test event_name
  | StringPattern s => Js.includes event_name s
  end.

Definition buff_info_of (buff_config : BuffConfig) : BuffConfig :=
  {| buff_name := buff_name buff_config;
     cfg_buff_target := cfg_buff_target buff_config;
     cfg_buff_amount := cfg_buff_amount buff_config;
     base_buff_amount := 0; additional_buff_amount := 0;
     duration_frames := duration_frames buff_config;
     offset_frames := offset_frames buff_config;
     detection_patterns := detection_patterns buff_config;
     exclusion_patterns := None |}.

(** The inner loop over [detection_patterns] of one catalog entry. *)
Fixpoint detect_in (event_name : string) (buff_config : BuffConfig)
    (patterns : list Pattern) : option BuffConfig :=
  match patterns with
  | [] => None
  | pattern :: rest =>
      if pattern_matches event_name pattern then
        if existsb (pattern_matches event_name) (default [] (exclusion_patterns buff_config))
        then detect_in event_name buff_config rest
        else Some (buff_info_of buff_config)
      else detect_in event_name buff_config rest
  end.

Fixpoint detect_entries (event_name : string) (entries : BuffData) : option BuffConfig :=
  match entries with
  | [] => None
  | (_, buff_config) :: rest =>
      match detect_in event_name buff_config (detection_patterns buff_config) with
      | Some info => Some info
      | None => detect_entries event_name rest
      end
  end.

Definition detectCostRecoveryBuff (event_name : string) (buff_data : option BuffData)
    : option BuffConfig :=
  match buff_data with
  | None => None
  | Some data_source => detect_entries event_name data_source
  end.

(** The [if] of the loop of [checkAndUpdateDuplicateBuffs]. *)
Definition is_duplicate (buff_target0 : string) (new_start_frame : Z)
    (existing_buff : BuffEvent) : bool :=
  match buff_target existing_buff with
  | Some t => String.eqb t buff_target0
  | None => false
  end && active existing_buff && (new_start_frame <? end_frame existing_buff).

(** Returns the updated [additional_events] and [duplicateFound]. *)
Definition checkAndUpdateDuplicateBuffs (additional_events : list BuffEvent)
    (buff_target0 : option string) (new_start_frame : Z) : list BuffEvent * bool :=
  if negb (Js.truthyS buff_target0) then (additional_events, false)
  else
    let t := default "" buff_target0 in
    (List.map (fun existing_buff =>
                 if is_duplicate t new_start_frame existing_buff
                 then set_end_frame existing_buff new_start_frame
                 else existing_buff) additional_events,
     existsb (is_duplicate t new_start_frame) additional_events).

Definition detectAndProcessBuff (p : Processor) (event_name : string) (start_frame0 : Z)
    : Processor :=
  match detectCostRecoveryBuff event_name (buff_data p) with
  | Some buff_info =>
      let buff_event := createBuffEvent buff_info start_frame0 (settings p) in
      let events :=
        if Js.truthyS (cfg_buff_target buff_info)
        then fst (checkAndUpdateDuplicateBuffs (additional_events p)
                    (cfg_buff_target buff_info) (start_frame buff_event))
        else additional_events p in
      with_additional_events p (events ++ [buff_event])
  | None => p
  end.

(** ** Special commands *)

(** /コスト回復力.*(?:増|上昇)/ and /コスト回復力.*(?:減|減少|低下)/ on a
    one-line event name. *)
Definition COST_RECOVERY_INCREASE_PATTERN (name : string) : bool :=
  match Js.after_first "コスト回復力" name with
  | Some rest => Js.includes rest "増" || Js.includes rest "上昇"
  | None => false
  end.
Definition COST_RECOVERY_DECREASE_PATTERN (name : string) : bool :=
  match Js.after_first "コスト回復力" name with
  | Some rest => Js.includes rest "減" || Js.includes rest "減少" || Js.includes rest "低下"
  | None => false
  end.

(** Returns the processor and the row, whose [is_special_command] it
    has written. *)
Definition processSpecialCommand (p : Processor) (original_event : Row)
    : result (Processor * Row) :=
  let row0 := with_is_special_command original_event false in
  if negb (String.eqb (default "" (special_command_accepted (settings p))) "yes")
  then Ok (p, row0)
  else if String.eqb (row_event_name original_event) "" then Ok (p, row0)
  else
    let isIncreasePattern := COST_RECOVERY_INCREASE_PATTERN (row_event_name original_event) in
    let isDecreasePattern := COST_RECOVERY_DECREASE_PATTERN (row_event_name original_event) in
    if isIncreasePattern || isDecreasePattern then
      let row1 := with_is_special_command original_event true in
      match row_duration original_event with
      | Some duration0 =>
          if Js.gtQ duration0 0 then
            match window_BUFF_DATA p ≫= (fun data => get_buff data "general") with
            | None => Err JsTypeError
            | Some general =>
                let buffAmount :=
                  if isDecreasePattern then (- row_value original_event)%Q
                  else row_value original_event in
                let target :=
                  if Js.truthyS (row_target original_event)
                  then row_target original_event else cfg_buff_target general in
                let name :=
                  if String.eqb (buff_name general) "" then buff_name general
                  else
                    let n1 := Js.replace_first "増加"
                                (Js.string_of_number (Qabs buffAmount) +:+ "増加")
                                (buff_name general) in
                    let n2 := if isDecreasePattern
                              then Js.replace_all "増加" "減少" n1 else n1 in
                    if Js.truthyS target && negb (String.eqb (default "" target) "NA")
                    then n2 +:+ "(" +:+ default "" target +:+ ")"
                    else n2 in
                let buff_skeleton :=
                  {| buff_name := name;
                     cfg_buff_target := target;
                     cfg_buff_amount := buffAmount;
                     base_buff_amount := base_buff_amount general;
                     additional_buff_amount := additional_buff_amount general;
                     duration_frames := DurationNumber (secondsToFrames (Some duration0));
                     offset_frames := offset_frames general;
                     detection_patterns := detection_patterns general;
                     exclusion_patterns := exclusion_patterns general |} in
                let start_frame0 := secondsToFrames (row_time original_event) in
                let buff_event := createBuffEvent buff_skeleton start_frame0 (settings p) in
                Ok (with_additional_events p (additional_events p ++ [buff_event]), row1)
            end
          else Ok (p, row1)
      | None => Ok (p, row1)
      end
    else Ok (p, row0).

(** ** Resolving a row: [resolveRowTiming] *)

Definition LOOP_LIMIT : nat := 100.

(** The [while (true)] loop.  [fuel] is the number of iterations the
    guard [loop_count > 100] still lets through: the loop is entered with
    [fuel = 100] and [loop_count = 0], and the guard throws exactly when
    the fuel is used up.  Returns [frame_estimated], the final
    [loop_count], the processor and the row. *)
Fixpoint resolve_loop (fuel loop_count : nat) (p : Processor) (row : Row) (index : nat)
    : result (Z * nat * Processor * Row) :=
  match fuel with
  | O => Err (InfiniteLoop (index + 1))
  | S fuel' =>
      let loop_count := S loop_count in
      '(frame_estimated, row1) ← estimateFrameFromRow p row;
      match findMostRecentAdditionalEvent (additional_events p) (current_frame (state p)) with
      | Some tr =>
          if tr_frame tr <=? frame_estimated then
            p1 ← addEventToTimeline p
                   (additional_event (tr_event tr) (Some (tr_type tr)) (Some (tr_original tr)));
            resolve_loop fuel' loop_count p1 row1 index
          else Ok (frame_estimated, loop_count, p, row1)
      | None => Ok (frame_estimated, loop_count, p, row1)
      end
  end.

Definition REORDERED_NOTE : string := "指定タイムが直前の行動より早くなっています".

(** The part of [resolveRowTiming] after the loop, in the order of the
    source: the processed event (with the frame forced up to the current
    frame and the note pushed when the estimate lies behind it), the
    write-back into the row, the label, the buff detection, the commit.
    [processed_event.note] is [row.note] itself when the row has one, so
    the note pushed on a reordered row is also pushed on the row. *)
Definition processed_event_of (p : Processor) (row : Row) (frame_estimated : Z)
    : InputEvent :=
  let reordered := frame_estimated <? current_frame (state p) in
  {| ie_frame := if reordered then current_frame (state p) else frame_estimated;
     ie_cost_used := row_cost_used row;
     ie_event_name := row_event_name row;
     ie_note := Some (if reordered then default [] (row_note row) ++ [REORDERED_NOTE]
                      else default [] (row_note row));
     ie_remaining_students := None |}.

Definition written_row (p : Processor) (row : Row) (frame_estimated : Z) : Row :=
  let processed_event := processed_event_of p row frame_estimated in
  let row1 :=
    if (frame_estimated <? current_frame (state p)) && bool_decide (is_Some (row_note row))
    then with_row_note row (ie_note processed_event) else row in
  with_row_frame row1 (ie_frame processed_event).

Definition publish_label (p : Processor) (row : Row) (frame : Z) : Processor :=
  if Js.truthyS (label row) && negb (String.eqb (Js.trim (default "" (label row))) "")
  then with_label_map p
         (<[ Js.trim (default "" (label row)) :=
             {| le_time := Some (framesToSeconds frame); le_frame := Some frame |} ]>
          (label_map p))
  else p.

Definition commit_row (p : Processor) (row : Row) (frame_estimated : Z)
    : result (Processor * Row * InputEvent) :=
  let processed_event := processed_event_of p row frame_estimated in
  let frame := ie_frame processed_event in
  let p1 := publish_label p row frame in
  let p2 := detectAndProcessBuff p1 (ie_event_name processed_event) frame in
  p3 ← addEventToTimeline p2 (input_row processed_event);
  Ok (p3, written_row p row frame_estimated, processed_event).

Definition resolveRowTiming (p : Processor) (row : Row) (index : nat)
    : result (Processor * Row * InputEvent) :=
  catch_rethrow (RowError (index + 1))
    ('(frame_estimated, _, p1, row1) ← resolve_loop LOOP_LIMIT 0 p row index;
     commit_row p1 row1 frame_estimated).

(** ** Construction and the main loop *)

Definition InitializeLabelMap (rows : list Row) : gmap string LabelEntry :=
  fold_left
    (fun label_map row =>
       if Js.truthyS (label row) && negb (String.eqb (Js.trim (default "" (label row))) "")
       then
         <[ Js.trim (default "" (label row)) :=
            match row_time row with
            | None => {| le_time := None; le_frame := None |}
            | Some t => {| le_time := Some t; le_frame := Some (secondsToFrames (Some t)) |}
            end ]> label_map
       else label_map)
    rows ∅.

(** [addKanoeSS] and [addCherinoSS], for the catalog key and level. *)
Definition addSS (key : string) (level : Z) (p : Processor) : Processor :=
  if 1 <=? level then
    match buff_data p ≫= (fun data => get_buff data key) with
    | Some buff =>
        let calculatedBuffAmount :=
          (base_buff_amount buff + inject_Z (level - 1) * additional_buff_amount buff)%Q in
        let buffInfo :=
          {| buff_name := buff_name buff; cfg_buff_target := cfg_buff_target buff;
             cfg_buff_amount := calculatedBuffAmount;
             base_buff_amount := base_buff_amount buff;
             additional_buff_amount := additional_buff_amount buff;
             duration_frames := duration_frames buff;
             offset_frames := offset_frames buff;
             detection_patterns := detection_patterns buff;
             exclusion_patterns := exclusion_patterns buff |} in
        with_additional_events p
          (additional_events p ++ [createBuffEvent buffInfo 60 (settings p)])
    | None => p
    end
  else p.

Definition addKanoeSS (p : Processor) : Processor := addSS "kanoe" (kanoe_ss (settings p)) p.
Definition addCherinoSS (p : Processor) : Processor := addSS "cherino" (cherino_ss (settings p)) p.

(** The state of the processor before the two default events. *)
Definition initial (rows : list Row) (settings0 : Settings)
    (buff_data0 window0 : option BuffData) : Processor :=
  let max_cost0 := if Js.truthyQ (max_cost settings0)
                   then default 0%Q (max_cost settings0) else DEFAULT_MAX_COST in
  {| settings := settings0; buff_data := buff_data0; window_BUFF_DATA := window0;
     max_cost_points := (max_cost0 * COST_POINT_UNIT)%Q;
     state := {| remaining_cost_points := 0; total_cost_recovery := 0;
                 remaining_students := 0; current_frame := 0 |};
     label_map := InitializeLabelMap rows;
     timeline := []; additional_events := [] |}.

(** [new TimelineProcessor(input_json, settings, buff_data)] *)
Definition constructor (rows : list Row) (settings0 : Settings)
    (buff_data0 window0 : option BuffData) : result Processor :=
  p1 ← addEventToTimeline (initial rows settings0 buff_data0 window0) (input_row TIME_START);
  p2 ← addEventToTimeline p1 (input_row BATTLE_START);
  Ok (addCherinoSS (addKanoeSS p2)).

(** The [for] loop of [createTimelineJSON] from row [i] on; returns the
    rows as the loop leaves them. *)
Fixpoint process_rows (i : nat) (rows : list Row) (p : Processor)
    : result (Processor * list Row) :=
  match rows with
  | [] => Ok (p, [])
  | row :: rest =>
      '(p1, row1) ← processSpecialCommand p row;
      if is_special_command row1 then
        '(p2, rest') ← process_rows (S i) rest p1;
        Ok (p2, row1 :: rest')
      else
        '(p2, row2, _) ← resolveRowTiming p1 row1 i;
        '(p3, rest') ← process_rows (S i) rest p2;
        Ok (p3, row2 :: rest')
  end.

Definition createTimelineJSON (p : Processor) (rows : list Row)
    : result (Processor * list Row) :=
  catch_rethrow CreateError (process_rows 0 rows p).

(** One conversion: [new TimelineProcessor(input_json, settings,
    buff_data).createTimelineJSON()].  The result holds the processor,
    with the log in [timeline], and the rows of [input_json] after the
    run. *)
Definition convert (rows : list Row) (settings0 : Settings)
    (buff_data0 window0 : option BuffData) : result (Processor * list Row) :=
  p ← constructor rows settings0 buff_data0 window0;
  createTimelineJSON p rows.

(** The resolved event log of a conversion. *)
Definition log_of (r : result (Processor * list Row)) : result (list TimelineEvent) :=
  '(p, _) ← r; Ok (timeline p).

(** ** Displaying a frame: [formatGameTimeDisplay] *)

(** The time shown for a frame: the remaining time (not below 0) for
    the format [backward], the elapsed time otherwise; printed as
    minutes, a colon and the seconds with three decimals, padded to six
    characters. *)
Definition display_seconds (frame : Z) (battle_time : Q) (format : string) : Q :=
  let seconds := (inject_Z frame / 30)%Q in
  if String.eqb format "backward" then
    let display_seconds := (battle_time - seconds)%Q in
    if Js.gtQ 0 display_seconds then 0%Q else display_seconds
  else seconds.

Definition formatGameTimeDisplay (frame : Z) (battle_time : Q) (format : string) : string :=
  let display_seconds := display_seconds frame battle_time format in
  let minutes := Qfloor (display_seconds / 60) in
  let remaining_seconds := Js.remainder display_seconds 60 in
  let seconds_str := Js.padStart0 6 (Js.toFixed 3 remaining_seconds) in
  pretty minutes +:+ ":" +:+ seconds_str.

(** ** The function [calculateFramesFromCost], kept for compatibility *)

(** [cost_state] is the state of the processor.  [None] stands for the
    result [Infinity], which the division by a rate of 0 gives. *)
Definition calculateFramesFromCost (cost_timing : Q) (cost_state : State) : option Z :=
  let current_cost := (remaining_cost_points cost_state / COST_POINT_UNIT)%Q in
  let target_cost := cost_timing in
  if Js.leQ target_cost current_cost then Some (current_frame cost_state)
  else
    let cost_needed := (target_cost - current_cost)%Q in
    let cost_points_needed := (cost_needed * COST_POINT_UNIT)%Q in
    let total_cost_recovery := total_cost_recovery cost_state in
    if Qeq_bool total_cost_recovery 0 then None
    else
      let frames_needed := Js.ceil (cost_points_needed / total_cost_recovery) in
      Some (current_frame cost_state + frames_needed).

End TLEditor.

(** ** buffs.js: the catalog *)

Module Buffs.

Import TLEditor.

(** ".*水.*(ホシノ|おじ).*" *)
Definition mizugi_hoshino_regex (name : string) : bool :=
  match Js.after_first "水" name with
  | Some rest => Js.includes rest "ホシノ" || Js.includes rest "おじ"
  | None => false
  end.

Definition BUFF_DATA : BuffData :=
  [ ("mizugi_hoshino",
     {| buff_name := "水着ホシノEX"; cfg_buff_target := Some "水着ホシノ";
        cfg_buff_amount := 684; base_buff_amount := 0; additional_buff_amount := 0;
        duration_frames := DurationNumber 1500; offset_frames := 21;
        detection_patterns := [RegexPattern mizugi_hoshino_regex];
        exclusion_patterns := None |});
    ("seia",
     {| buff_name := "セイアEX"; cfg_buff_target := Some "セイア";
        cfg_buff_amount := 718; base_buff_amount := 0; additional_buff_amount := 0;
        duration_frames := DurationArray [450; 535]; offset_frames := 98;
        detection_patterns := [RegexPattern (fun name => Js.includes name "セイア")];
        exclusion_patterns := Some [RegexPattern (fun name => Js.includes name "水")] |});
    ("kanoe",
     {| buff_name := "カノエSS"; cfg_buff_target := Some "カノエ";
        cfg_buff_amount := 0; base_buff_amount := 342; additional_buff_amount := 85;
        duration_frames := DurationNumber 1000000; offset_frames := 0;
        detection_patterns := []; exclusion_patterns := None |});
    ("cherino",
     {| buff_name := "チェリノSS"; cfg_buff_target := Some "チェリノ";
        cfg_buff_amount := 0; base_buff_amount := 511; additional_buff_amount := 146;
        duration_frames := DurationNumber 1000000; offset_frames := 0;
        detection_patterns := []; exclusion_patterns := None |});
    ("general",
     {| buff_name := "コスト回復力増加"; cfg_buff_target := Some "NA";
        cfg_buff_amount := 0; base_buff_amount := 0; additional_buff_amount := 0;
        duration_frames := DurationNumber 0; offset_frames := 0;
        detection_patterns := []; exclusion_patterns := None |}) ].

End Buffs.

(** ** Sample inputs *)

Module Samples.

Import TLEditor.

Definition default_settings : Settings :=
  {| max_cost := None; ss_enabled := false; special_command_accepted := None;
     modifier_always_forward := None; time_display_format := None;
     seia_koyuu2 := None; kanoe_ss := 0; cherino_ss := 0 |}.

(** Rows as [createInputJSON] builds them, with [note: []]. *)
Definition at_time (t : Q) (name : string) (cost : Q) : Row :=
  {| row_frame := None; row_time := Some t; reference := None; cost_timing := None;
     explicit_cost_timing := false; modifier := None; modified_amount := None;
     row_event_name := name; row_cost_used := cost; label := None;
     row_note := Some []; row_duration := None; row_value := 0;
     row_target := None; is_special_command := false |}.

Definition at_cost (c : Q) (explicit : bool) (name : string) (cost : Q) : Row :=
  {| row_frame := None; row_time := None; reference := None; cost_timing := Some c;
     explicit_cost_timing := explicit; modifier := None; modified_amount := None;
     row_event_name := name; row_cost_used := cost; label := None;
     row_note := Some []; row_duration := None; row_value := 0;
     row_target := None; is_special_command := false |}.

Definition at_reference (ref_label : string) (sign : string) (amount : Q) (name : string)
    : Row :=
  {| row_frame := None; row_time := None; reference := Some ref_label; cost_timing := None;
     explicit_cost_timing := false; modifier := Some sign; modified_amount := Some amount;
     row_event_name := name; row_cost_used := 0; label := None;
     row_note := Some []; row_duration := None; row_value := 0;
     row_target := None; is_special_command := false |}.

(** A row that publishes a label and is anchored by a target cost. *)
Definition labelled_at_cost (c : Q) (name lbl : string) : Row :=
  {| row_frame := None; row_time := None; reference := None; cost_timing := Some c;
     explicit_cost_timing := true; modifier := None; modified_amount := None;
     row_event_name := name; row_cost_used := 0; label := Some lbl;
     row_note := Some []; row_duration := None; row_value := 0;
     row_target := None; is_special_command := false |}.

(** A special command row: a name, a value and a duration in seconds. *)
Definition special_command (t : Q) (name : string) (value duration0 : Q) : Row :=
  {| row_frame := None; row_time := Some t; reference := None; cost_timing := None;
     explicit_cost_timing := false; modifier := None; modified_amount := None;
     row_event_name := name; row_cost_used := 0; label := None;
     row_note := Some []; row_duration := Some duration0; row_value := value;
     row_target := None; is_special_command := false |}.

(** A special command for one participant. *)
Definition special_command_for (target : string) : Row :=
  {| row_frame := None; row_time := Some 5%Q; reference := None; cost_timing := None;
     explicit_cost_timing := false; modifier := None; modified_amount := None;
     row_event_name := "コスト回復力増加"; row_cost_used := 0; label := None;
     row_note := Some []; row_duration := Some 10%Q; row_value := 100;
     row_target := Some target; is_special_command := false |}.

Definition kanoe_settings : Settings :=
  {| max_cost := None; ss_enabled := false; special_command_accepted := None;
     modifier_always_forward := None; time_display_format := None;
     seia_koyuu2 := None; kanoe_ss := 1; cherino_ss := 0 |}.

Definition special_settings : Settings :=
  {| max_cost := None; ss_enabled := false; special_command_accepted := Some "yes";
     modifier_always_forward := None; time_display_format := None;
     seia_koyuu2 := None; kanoe_ss := 0; cherino_ss := 0 |}.

(** The state of the worked example of the source comments: cap 10.5,
    3,149,000 points at frame 3003, rate 2000. *)
Definition example_processor : Processor :=
  {| settings := default_settings; buff_data := None; window_BUFF_DATA := None;
     max_cost_points := 3150000;
     state := {| remaining_cost_points := 3149000; total_cost_recovery := 2000;
                 remaining_students := 6; current_frame := 3003 |};
     label_map := ∅; timeline := []; additional_events := [] |}.

Definition example_skill : InputEvent :=
  {| ie_frame := 3007; ie_cost_used := 5; ie_event_name := "EX";
     ie_note := None; ie_remaining_students := None |}.

Definition run_catalog (rows : list Row) (settings0 : Settings)
    : result (Processor * list Row) :=
  convert rows settings0 (Some Buffs.BUFF_DATA) (Some Buffs.BUFF_DATA).

(** Seven individually targeted buffs in effect at frame 100, with six
    participants. *)
Definition crowded_processor : Processor :=
  {| settings := default_settings; buff_data := None; window_BUFF_DATA := None;
     max_cost_points := 3000000;
     state := {| remaining_cost_points := 0; total_cost_recovery := 4200;
                 remaining_students := 6; current_frame := 90 |};
     label_map := ∅; timeline := [];
     additional_events :=
       List.map (fun t => {| start_frame := 80; end_frame := 500; event_name := "buff";
                             buff_target := Some t; duration := 14000;
                             buff_amount := 100; active := true |})
                ["A"; "B"; "C"; "D"; "E"; "F"; "G"] |}.

Definition plain_event (frame : Z) : InputEvent :=
  {| ie_frame := frame; ie_cost_used := 0; ie_event_name := "X";
     ie_note := None; ie_remaining_students := None |}.

(** A processor whose label map holds a label without a time. *)
Definition forward_label_processor : Processor :=
  {| settings := default_settings; buff_data := None; window_BUFF_DATA := None;
     max_cost_points := 3000000;
     state := {| remaining_cost_points := 0; total_cost_recovery := 4200;
                 remaining_students := 6; current_frame := 60 |};
     label_map := {[ "#a" := {| le_time := None; le_frame := None |} ]};
     timeline := []; additional_events := [] |}.

(** A processor with a pending interval of length zero at frame 300, as a
    special command with a duration below one frame leaves it. *)
Definition zero_length_processor : Processor :=
  {| settings := default_settings; buff_data := None; window_BUFF_DATA := None;
     max_cost_points := 3000000;
     state := {| remaining_cost_points := 0; total_cost_recovery := 4200;
                 remaining_students := 6; current_frame := 60 |};
     label_map := ∅; timeline := [];
     additional_events :=
       [{| start_frame := 300; end_frame := 300; event_name := "コスト回復力500増加";
           buff_target := Some "NA"; duration := 0; buff_amount := 500;
           active := false |}] |}.

(** A processor with an active 水着ホシノ interval and a pending one. *)
Definition hoshino_processor : Processor :=
  {| settings := default_settings; buff_data := Some Buffs.BUFF_DATA;
     window_BUFF_DATA := None; max_cost_points := 3000000;
     state := {| remaining_cost_points := 0; total_cost_recovery := 4884;
                 remaining_students := 6; current_frame := 200 |};
     label_map := ∅; timeline := [];
     additional_events :=
       [{| start_frame := 171; end_frame := 1671; event_name := "水着ホシノEX";
           buff_target := Some "水着ホシノ"; duration := 50000; buff_amount := 684;
           active := true |};
        {| start_frame := 250; end_frame := 1750; event_name := "水着ホシノEX";
           buff_target := Some "水着ホシノ"; duration := 50000; buff_amount := 684;
           active := false |}] |}.

Definition radiator_events_sample : list RadiatorManager.RadiatorEvent :=
  [ {| RadiatorManager.frame := 10; RadiatorManager.event_name := "ラジエータ開始";
       RadiatorManager.is_start := true; RadiatorManager.is_end := false |};
    {| RadiatorManager.frame := 20; RadiatorManager.event_name := "過負荷開始";
       RadiatorManager.is_start := true; RadiatorManager.is_end := false |};
    {| RadiatorManager.frame := 30; RadiatorManager.event_name := "ラジエータ終了";
       RadiatorManager.is_start := false; RadiatorManager.is_end := true |};
    {| RadiatorManager.frame := 40; RadiatorManager.event_name := "ラジエータ停止";
       RadiatorManager.is_start := false; RadiatorManager.is_end := true |};
    {| RadiatorManager.frame := 50; RadiatorManager.event_name := "過負荷起動";
       RadiatorManager.is_start := true; RadiatorManager.is_end := false |} ].

(** Views of a result, for reading the examples. *)
Definition log_view (r : result (Processor * list Row))
    : option (list (Z * string * list string)) :=
  match r with
  | Ok (p, _) => Some (List.map (fun e => (te_frame e, te_event_name e, te_note e)) (timeline p))
  | Err _ => None
  end.

Definition intervals_view (r : result (Processor * list Row))
    : option (list (option string * Z * Z * bool)) :=
  match r with
  | Ok (p, _) =>
      Some (List.map (fun b => (buff_target b, start_frame b, end_frame b, active b))
                     (additional_events p))
  | Err _ => None
  end.

Definition rates_view (r : result (Processor * list Row))
    : option (list (Z * string * Q)) :=
  match r with
  | Ok (p, _) =>
      Some (List.map (fun e => (te_frame e, te_event_name e, te_total_cost_recovery e))
                     (timeline p))
  | Err _ => None
  end.

(** A second conversion of the rows that a first one has processed. *)
Definition rerun (rows : list Row) (settings0 : Settings) : result (Processor * list Row) :=
  '(_, rows1) ← run_catalog rows settings0;
  run_catalog rows1 settings0.

End Samples.

(** ** Invariants of a conversion *)

Module Invariants.

Import TLEditor.

(** Frames never decrease along the log, and no logged frame is beyond
    the current frame. *)
Definition frames_sorted (log : list TimelineEvent) : Prop :=
  forall i j ei ej, (i < j)%nat -> log !! i = Some ei -> log !! j = Some ej ->
                    te_frame ei <= te_frame ej.

Definition log_inv (p : Processor) : Prop :=
  frames_sorted (timeline p) /\
  forall e, e ∈ timeline p -> te_frame e <= current_frame (state p).

(** [p'] is a later state of the same processor: the log has only grown,
    the frame has not gone back, the participants and the configuration
    are the same, and the log invariant is kept. *)
Record later (p p' : Processor) : Prop := {
  later_timeline : timeline p `prefix_of` timeline p';
  later_frame : current_frame (state p) <= current_frame (state p');
  later_students : remaining_students (state p') = remaining_students (state p);
  later_settings : settings p' = settings p;
  later_buff_data : buff_data p' = buff_data p;
  later_window : window_BUFF_DATA p' = window_BUFF_DATA p;
  later_max : max_cost_points p' = max_cost_points p;
  later_log : log_inv p -> log_inv p'
}.

(** The state in which the engine recomputes the rate: six participants,
    or, for the first default event, no participant and no buff yet. *)
Definition engine_commit (p : Processor) (input : TimelineInput) : Prop :=
  students_after p input = 6 \/
  (students_after p input = 0 /\ additional_events p = []).

(** A selected transition comes from [frames_to_check] of the entry it
    points to. *)
Definition selected_from (events : list BuffEvent) (cur : Z) (base : nat)
    (tr : Transition) : Prop :=
  exists k, (base <= tr_original tr)%nat /\ k = (tr_original tr - base)%nat /\
            events !! k = Some (tr_event tr) /\
            (tr_frame tr, tr_type tr) ∈ frames_to_check cur (tr_event tr).

(** Rows that differ at most in the [is_special_command] flag. *)
Definition same_input (row row' : Row) : Prop :=
  with_is_special_command row false = with_is_special_command row' false.

(** The row carries the label [l]: its [label], trimmed, is [l] and is
    not empty. *)
Definition carries_label (row : Row) (l : string) : Prop :=
  exists lbl, label row = Some lbl /\ Js.trim lbl = l /\ l <> "".

(** The points are within the cap, now and at every entry of the log,
    and no entry records a negative overflow. *)
Definition capped (p : Processor) : Prop :=
  (remaining_cost_points (state p) <= max_cost_points p)%Q /\
  forall e, e ∈ timeline p ->
    (te_remaining_cost_points e <= max_cost_points p)%Q /\
    forall o, overflow_cost e = Some o -> (0 <= o)%Q.

(** The rows that were resolved carry frames that start at [c] and
    never decrease. *)
Fixpoint frames_from (c : Z) (rows : list Row) : Prop :=
  match rows with
  | [] => True
  | row :: rest =>
      if is_special_command row then frames_from c rest
      else exists f, row_frame row = Some f /\ c <= f /\ frames_from f rest
  end.

(** What a conversion that ends in [final] leaves of a row: the row
    flagged as a special command, or the row with its notes and the frame
    of its entry in the log. *)
Definition resolved_as (final : Processor) (row row' : Row) : Prop :=
  if is_special_command row'
  then row' = with_is_special_command row true
  else exists note f,
         row' = with_row_frame (with_row_note (with_is_special_command row false) note) f /\
         f <= current_frame (state final) /\
         exists e, e ∈ timeline final /\ te_frame e = f /\
                   te_event_name e = row_event_name row /\
                   te_cost_used e = row_cost_used row.

End Invariants.

(** ** Orders on the radiator events and intervals *)

Module RadiatorOrder.

Import RadiatorManager.

Definition by_frame (a b : RadiatorEvent) : Prop := frame a <= frame b.

(** Intervals in order: each begins no earlier than the one before it
    ends, and each one that has a successor ends no earlier than it
    begins. *)
Definition in_order (intervals : list RadiatorInterval) : Prop :=
  forall i j a b, (i < j)%nat -> intervals !! i = Some a -> intervals !! j = Some b ->
    start_frame a <= end_frame a /\ end_frame a <= start_frame b.

(** The state of the scan after the events up to frame [lo]. *)
Definition scan_inv (st : option Z * list RadiatorInterval) (lo : Z) : Prop :=
  (forall interval, interval ∈ st.2 ->
     start_frame interval <= end_frame interval /\ end_frame interval <= lo) /\
  in_order st.2 /\
  (forall s, st.1 = Some s ->
     s <= lo /\ forall interval, interval ∈ st.2 -> end_frame interval <= s).

End RadiatorOrder.

(** ** Counting the steps of a list of times *)

Module Steps.

Import AssistantUtils.

(** The steps up and down along a list of times. *)
Definition steps (times : list Q) : nat * nat :=
  match times with
  | [] => (O, O)
  | first :: rest => count_steps first rest
  end.

(** The step from one time to the next. *)
Definition step (previous t : Q) : nat * nat :=
  if Js.gtQ t previous then (1%nat, O)
  else if Js.gtQ previous t then (O, 1%nat) else (O, O).

Definition add2 (a b : nat * nat) : nat * nat := ((a.1 + b.1)%nat, (a.2 + b.2)%nat).

End Steps.

(** ** Decimal digits *)

Module Digits.

(** The last [k] decimal digits of [n]. *)
Fixpoint digit_string (k : nat) (n : N) : string :=
  match k with
  | O => EmptyString
  | S k' => digit_string k' (n / 10) +:+ String (pretty_N_char (n mod 10)) EmptyString
  end.

Definition no_leading_digit (s : string) : Prop :=
  match s with
  | EmptyString => True
  | String c _ => Js.is_digit c = false
  end.

Fixpoint all_chars (keep : Ascii.ascii -> bool) (s : string) : bool :=
  match s with
  | EmptyString => true
  | String c s' => keep c && all_chars keep s'
  end.

End Digits.

(* ================================================================== *)
(** * Part II: properties                                              *)
(* ================================================================== *)

(** ** RadiatorManager *)

Section Radiator.

Import RadiatorManager.

Lemma scan_snoc (events : list RadiatorEvent) (event : RadiatorEvent) :
  scan (events ++ [event]) = scan_step (scan events) event.
Proof. unfold scan. by rewrite fold_left_app. Qed.

Lemma active_in_spec (intervals : list RadiatorInterval) (f : Z) :
  active_in intervals f = true <->
  exists interval, interval ∈ intervals /\
                   start_frame interval <= f < end_frame interval.
Proof.
  induction intervals as [|interval rest IH]; simpl.
  - split; [discriminate | intros (i & Hi & _); by apply elem_of_nil in Hi].
  - destruct (Z.leb_spec (start_frame interval) f) as [Hs|Hs];
      destruct (Z.ltb_spec f (end_frame interval)) as [He|He]; simpl.
    1: { split; [intros _ | done]. exists interval. split; [left | lia]. }
    all: rewrite IH; split;
      [ intros (i & Hi & Hin); exists i; split; [by right | done]
      | intros (i & Hi & Hin); apply elem_of_cons in Hi as [->|Hi]; [lia | eauto] ].
Qed.

(** C9.  The scan of [calculateRadiatorIntervals] handles the marker
    events one by one, in order.  With no interval open, a start marker
    opens one at its frame and any other event, an end marker included,
    changes nothing.  With an interval open, an end marker closes it at
    its frame, recording it, and any other event, a start marker
    included, changes nothing.  An interval still open after the last
    event is recorded up to the supplied battle end frame.  Afterwards
    [isRadiatorActiveAt] answers true exactly for the frames [f] with
    [start_frame <= f < end_frame] for one of the recorded intervals. *)
Theorem radiator_intervals_scan_and_query :
  (scan [] = (None, []) /\
   forall events event, scan (events ++ [event]) = scan_step (scan events) event) /\
  (forall intervals event,
     scan_step (None, intervals) event =
       if is_start event then (Some (frame event), intervals) else (None, intervals)) /\
  (forall s intervals event,
     scan_step (Some s, intervals) event =
       if is_end event
       then (None, intervals ++ [{| start_frame := s; end_frame := frame event;
                                    auto_extended := false |}])
       else (Some s, intervals)) /\
  (forall m btf,
     radiator_intervals (calculateRadiatorIntervals m (Some btf)) =
       match scan (radiator_events m) with
       | (Some s, intervals) =>
           intervals ++ [{| start_frame := s; end_frame := btf; auto_extended := true |}]
       | (None, intervals) => intervals
       end) /\
  (forall m f,
     isRadiatorActiveAt m f = true <->
     exists interval, interval ∈ radiator_intervals m /\
                      start_frame interval <= f < end_frame interval).
Proof.
  split; [split; [reflexivity | apply scan_snoc] |].
  split; [reflexivity |].
  split; [reflexivity |].
  split.
  - intros m btf. simpl. by destruct (scan (radiator_events m)) as [[s|] intervals].
  - intros m f. apply active_in_spec.
Qed.

End Radiator.

(** ** Committing an event *)

Section Commit.

Import TLEditor.

(** What a successful [addEventToTimeline] leaves behind. *)
Lemma addEventToTimeline_Ok (p p' : Processor) (input : TimelineInput) :
  addEventToTimeline p input = Ok p' ->
  exists rate,
    calculateTotalCostRecovery (mark_original input (additional_events p))
      (target_frame_of input) (ss_enabled (settings p)) (students_after p input) = Ok rate /\
    let points := pay input (fst (accrue p (target_frame_of input))) in
    state p' = {| remaining_cost_points := points;
                  total_cost_recovery := rate;
                  remaining_students := students_after p input;
                  current_frame := target_frame_of input |} /\
    timeline p' = timeline p ++
      [{| te_frame := target_frame_of input;
          te_cost_used := formatted_cost_used input;
          te_event_name := formatted_event_name input;
          current_cost_display_only := (points / COST_POINT_UNIT)%Q;
          te_remaining_cost_points := points;
          te_note := formatted_note input;
          overflow_cost := snd (accrue p (target_frame_of input));
          te_total_cost_recovery := rate;
          te_remaining_students := students_after p input |}] /\
    additional_events p' = mark_original input (additional_events p) /\
    settings p' = settings p /\ buff_data p' = buff_data p /\
    window_BUFF_DATA p' = window_BUFF_DATA p /\
    max_cost_points p' = max_cost_points p /\ label_map p' = label_map p.
Proof.
  unfold addEventToTimeline.
  destruct (accrue p (target_frame_of input)) as [points overflow].
  destruct (calculateTotalCostRecovery _ _ _ _) as [rate|e]; simpl; [|discriminate].
  intros [= <-]. exists rate. simpl. repeat split.
Qed.

(** The recomputation of the rate is the only step that can fail, and it
    fails when seven or more individually targeted buffs are in effect. *)
Lemma calculateTotalCostRecovery_Err (events : list BuffEvent) (f : Z) (ss : bool)
    (students : Z) (e : Error) :
  calculateTotalCostRecovery events f ss students = Err e <->
  (7 <= length (buffs_in_effect IndividualBuff events f))%nat /\
  e = TooManyBuffs (length (buffs_in_effect IndividualBuff events f)).
Proof.
  unfold calculateTotalCostRecovery.
  destruct (Nat.leb_spec 7 (length (buffs_in_effect IndividualBuff events f))) as [H|H].
  - split; [intros [= <-]; done | intros [_ ->]; done].
  - split; [discriminate | lia].
Qed.

Lemma calculateTotalCostRecovery_total (events : list BuffEvent) (f : Z) (ss : bool)
    (students : Z) :
  (length (buffs_in_effect IndividualBuff events f) < 7)%nat ->
  exists rate, calculateTotalCostRecovery events f ss students = Ok rate.
Proof.
  intros H. destruct (calculateTotalCostRecovery events f ss students) as [r|e] eqn:E; [eauto|].
  apply calculateTotalCostRecovery_Err in E. lia.
Qed.

Lemma addEventToTimeline_Err (p : Processor) (input : TimelineInput) (e : Error) :
  addEventToTimeline p input = Err e <->
  calculateTotalCostRecovery (mark_original input (additional_events p))
    (target_frame_of input) (ss_enabled (settings p)) (students_after p input) = Err e.
Proof.
  unfold addEventToTimeline.
  destruct (accrue p (target_frame_of input)) as [points overflow].
  destruct (calculateTotalCostRecovery _ _ _ _) as [rate|e']; simpl; split; congruence.
Qed.

Lemma pay_eq (input : TimelineInput) (points : Q) :
  (pay input points == points - formatted_cost_used input * COST_POINT_UNIT)%Q.
Proof.
  destruct input as [event|event ty orig]; simpl.
  - destruct (Qeq_bool (ie_cost_used event) 0) eqn:E; simpl; [|reflexivity].
    apply Qeq_bool_eq in E. rewrite E. ring.
  - ring.
Qed.

(** C1.  A commit at a target frame [f] beyond the current frame [c]
    first adds [(f - c) * total_cost_recovery] to [remaining_cost_points].
    If the sum exceeds [max_cost_points] the accumulator is set to
    [max_cost_points] itself and the committed event records the excess,
    divided by [COST_POINT_UNIT], as [overflow_cost]; otherwise it
    records overflow 0.  The frame then advances to [f], and only then
    is [cost_used * COST_POINT_UNIT] subtracted: the final accumulator is
    the capped sum minus the payment. *)
Theorem commit_accrues_caps_then_pays (p p' : Processor) (input : TimelineInput) :
  current_frame (state p) < target_frame_of input ->
  addEventToTimeline p input = Ok p' ->
  let f := target_frame_of input in
  let unclamped := (remaining_cost_points (state p) +
                    inject_Z (f - current_frame (state p)) *
                    total_cost_recovery (state p))%Q in
  let payment := (formatted_cost_used input * COST_POINT_UNIT)%Q in
  exists committed,
    timeline p' = timeline p ++ [committed] /\
    te_frame committed = f /\
    current_frame (state p') = f /\
    te_remaining_cost_points committed = remaining_cost_points (state p') /\
    ((max_cost_points p < unclamped)%Q ->
       fst (accrue p f) = max_cost_points p /\
       overflow_cost committed =
         Some ((unclamped - max_cost_points p) / COST_POINT_UNIT)%Q /\
       (remaining_cost_points (state p') == max_cost_points p - payment)%Q) /\
    ((unclamped <= max_cost_points p)%Q ->
       fst (accrue p f) = unclamped /\
       overflow_cost committed = Some 0%Q /\
       (remaining_cost_points (state p') == unclamped - payment)%Q).
Proof.
  intros Hlt Hok f unclamped payment.
  apply addEventToTimeline_Ok in Hok as (rate & _ & Hst & Htl & _).
  eexists. split; [exact Htl|]. rewrite Hst. simpl.
  split; [done|]. split; [done|]. split; [done|].
  assert (Hacc : accrue p f =
                 if Js.gtQ unclamped (max_cost_points p)
                 then (max_cost_points p,
                       Some ((unclamped - max_cost_points p) / COST_POINT_UNIT)%Q)
                 else (unclamped, Some 0%Q)).
  { unfold accrue. fold f. by destruct (Z.ltb_spec (current_frame (state p)) f); [|lia]. }
  fold f. rewrite Hacc. unfold Js.gtQ.
  destruct (Qle_bool unclamped (max_cost_points p)) eqn:E; simpl.
  - apply Qle_bool_iff in E. split.
    + intros Hgt. exfalso. apply (Qlt_not_le _ _ Hgt E).
    + intros _. repeat split. apply pay_eq.
  - assert (Hgt : (max_cost_points p < unclamped)%Q).
    { apply Qnot_le_lt. intros Hle. apply Qle_bool_iff in Hle. congruence. }
    split.
    + intros _. repeat split. apply pay_eq.
    + intros Hle. exfalso. apply (Qlt_not_le _ _ Hgt Hle).
Qed.

End Commit.

(** ** Estimating the frame of a row *)

Section Estimate.

Import TLEditor.

Lemma anchor_of_reference (row : Row) (ref_label : string) :
  anchor_of row = ReferenceAnchor ref_label ->
  Js.truthyZ (row_frame row) = false /\ Js.truthyQ (row_time row) = false /\
  Js.truthyS (reference row) = true /\ reference row = Some ref_label.
Proof.
  unfold anchor_of.
  destruct (Js.truthyZ (row_frame row)); [discriminate|].
  destruct (Js.truthyQ (row_time row)); [discriminate|].
  destruct (reference row) as [l|] eqn:Hl; simpl.
  - destruct (negb (String.eqb l "")); [by intros [= ->]|].
    by destruct (Js.truthyQ (cost_timing row)).
  - by destruct (Js.truthyQ (cost_timing row)).
Qed.

(** C2.  A row whose target cost is 0, as the input processor makes it
    for the line [[0] C], is given no estimate, whatever the state of the
    processor: [estimateFrameFromRow] tests [cost_timing] for truth, so
    the row counts as a row without an anchor, although every cost is at
    least that target.  The conversion of the row ends with the error of
    its first row. *)
Lemma zero_target_cost_is_no_anchor :
  (forall p, estimateFrameFromRow p (Samples.at_cost 0 true "C" 0) = Err NoAnchor) /\
  Samples.run_catalog [Samples.at_cost 0 true "C" 0] Samples.default_settings
    = Err (CreateError (RowError 1 NoAnchor)).
Proof. split; [reflexivity | vm_compute; reflexivity]. Qed.

(** A row anchored by a label reference is always given an estimate:
    [calculateFramesFromReference] has no failing path. *)
Lemma reference_anchor_never_fails (p : Processor) (row : Row) (ref_label : string) :
  anchor_of row = ReferenceAnchor ref_label ->
  estimateFrameFromRow p row =
    Ok (calculateFramesFromReference row (label_map p) (settings p)).
Proof.
  intros (Hrf & Hrt & Hrr & _)%anchor_of_reference.
  unfold estimateFrameFromRow. by rewrite Hrf, Hrt, Hrr.
Qed.

(** C6, as the code has it.  For a row anchored by a reference to a
    label that is in the label map but has neither a frame nor a time
    yet, with a modifier and a non-zero amount: the estimation does not
    fail.  It pushes the note asking for a time on the label onto the
    row, takes 0 as the frame of the label and returns
    [0 + sign * secondsToFrames(amount)]. *)
Theorem forward_label_with_offset_is_annotated (p : Processor) (row : Row)
    (ref_label : string) (entry : LabelEntry) :
  anchor_of row = ReferenceAnchor ref_label ->
  label_map p !! ref_label = Some entry ->
  Js.truthyZ (le_frame entry) = false ->
  Js.truthyQ (le_time entry) = false ->
  Js.truthyS (modifier row) = true ->
  Js.truthyQ (modified_amount row) = true ->
  estimateFrameFromRow p row =
    Ok (0 + interpretSign (modifier row) (settings p) *
            Utilities.secondsToFrames (modified_amount row),
        with_row_note row
          (push_note (Some (default [] (row_note row))) (FORWARD_LABEL_NOTE ref_label))).
Proof.
  intros Ha Hl Hf Ht Hm Hma.
  apply anchor_of_reference in Ha as (Hrf & Hrt & Hrr & Href).
  unfold estimateFrameFromRow. rewrite Hrf, Hrt, Hrr.
  unfold calculateFramesFromReference. rewrite Href. simpl. rewrite Hl.
  rewrite Hm, Hma, Hf, Ht. reflexivity.
Qed.

End Estimate.

(** ** Invariants along a conversion *)

Section Run.

Import TLEditor Invariants.

Lemma later_refl (p : Processor) : later p p.
Proof. by split. Qed.

Lemma later_trans (p1 p2 p3 : Processor) : later p1 p2 -> later p2 p3 -> later p1 p3.
Proof.
  intros [] []. split; try congruence; try lia; [by etrans | tauto].
Qed.

Lemma frames_sorted_snoc (log : list TimelineEvent) (e : TimelineEvent) :
  frames_sorted log -> (forall x, x ∈ log -> te_frame x <= te_frame e) ->
  frames_sorted (log ++ [e]).
Proof.
  intros Hs Hle i j ei ej Hij Hi Hj.
  assert (Hjl : (j < length (log ++ [e]))%nat) by (by eapply lookup_lt_Some).
  rewrite length_app in Hjl. simpl in Hjl.
  rewrite lookup_app_l in Hi by lia.
  destruct (decide (j < length log)%nat) as [Hlt|Hge].
  - rewrite lookup_app_l in Hj by lia. exact (Hs i j ei ej Hij Hi Hj).
  - rewrite lookup_app_r in Hj by lia.
    replace (j - length log)%nat with 0%nat in Hj by lia.
    injection Hj as <-. apply Hle. by eapply list_elem_of_lookup_2.
Qed.

(** A commit at or beyond the current frame keeps the log ordered. *)
Lemma addEventToTimeline_log (p p' : Processor) (input : TimelineInput) :
  current_frame (state p) <= target_frame_of input ->
  addEventToTimeline p input = Ok p' ->
  log_inv p -> log_inv p'.
Proof.
  intros Hle Hok [Hs Hb].
  apply addEventToTimeline_Ok in Hok as (rate & _ & Hst & Htl & _).
  split; rewrite Htl.
  - apply frames_sorted_snoc; [done|]. intros x Hx. simpl. specialize (Hb x Hx). lia.
  - rewrite Hst. simpl. intros e [He|He]%elem_of_app.
    + specialize (Hb e He). lia.
    + apply list_elem_of_singleton in He as ->. simpl. lia.
Qed.

Lemma addEventToTimeline_later (p p' : Processor) (input : TimelineInput) :
  current_frame (state p) <= target_frame_of input ->
  students_after p input = remaining_students (state p) ->
  addEventToTimeline p input = Ok p' ->
  later p p'.
Proof.
  intros Hle Hst Hok.
  pose proof (addEventToTimeline_log p p' input Hle Hok) as Hlog.
  apply addEventToTimeline_Ok in Hok as (rate & _ & Hs & Htl & _ & ? & ? & ? & ? & _).
  split; try done.
  - rewrite Htl. by apply prefix_app_r.
  - by rewrite Hs.
  - by rewrite Hs.
Qed.

(** *** The transition that [findMostRecentAdditionalEvent] selects *)

Lemma frames_to_check_spec (cur : Z) (event : BuffEvent) (f : Z) (ty : TransitionType) :
  (f, ty) ∈ frames_to_check cur event ->
  cur <= end_frame event /\
  match ty with
  | start => f = start_frame event /\ active event = false /\ cur <= start_frame event
  | end_ => f = end_frame event /\ active event = true
  end.
Proof.
  unfold frames_to_check.
  destruct (Z.ltb_spec (end_frame event) cur) as [H|H]; [by intros ?%elem_of_nil|].
  intros [Hin|Hin]%elem_of_app.
  - destruct (active event) eqn:Ha; [|by apply elem_of_nil in Hin].
    apply list_elem_of_singleton in Hin. injection Hin as -> ->. done.
  - destruct (active event) eqn:Ha; simpl in Hin; [by apply elem_of_nil in Hin|].
    destruct (Z.leb_spec cur (start_frame event)); [|by apply elem_of_nil in Hin].
    apply list_elem_of_singleton in Hin. injection Hin as -> ->. done.
Qed.

Lemma consider_fold (i : nat) (event : BuffEvent) (l : list (Z * TransitionType))
    (best : option Transition) (tr : Transition) :
  fold_left (consider i event) l best = Some tr ->
  best = Some tr \/
  (tr_original tr = i /\ tr_event tr = event /\ (tr_frame tr, tr_type tr) ∈ l).
Proof.
  revert best. induction l as [|c l IH]; intros best H; simpl in H; [by left|].
  apply IH in H as [H|(?&?&?)]; [|right; repeat split; [done..|by right]].
  unfold consider in H. destruct best as [b|].
  - destruct (fst c <? tr_frame b); [|by left].
    injection H as <-. right. simpl. repeat split. destruct c; left.
  - injection H as <-. right. simpl. repeat split. destruct c; left.
Qed.

Lemma find_from_spec (events : list BuffEvent) (cur : Z) (i : nat)
    (best : option Transition) (tr : Transition) :
  find_from i events cur best = Some tr ->
  best = Some tr \/ selected_from events cur i tr.
Proof.
  revert i best. induction events as [|event rest IH]; intros i best H; simpl in H; [by left|].
  apply IH in H as [H|(k & Hle & -> & Hk & Hin)].
  - apply consider_fold in H as [H|(Ho & He & Hin)]; [by left|].
    right. exists 0%nat. split; [lia|]. split; [lia|]. split; [by rewrite He | by rewrite He].
  - right. exists (S (tr_original tr - S i)). split; [lia|]. split; [lia|]. done.
Qed.

Lemma findMostRecentAdditionalEvent_spec (events : list BuffEvent) (cur : Z)
    (tr : Transition) :
  findMostRecentAdditionalEvent events cur = Some tr ->
  events !! tr_original tr = Some (tr_event tr) /\
  (tr_frame tr, tr_type tr) ∈ frames_to_check cur (tr_event tr).
Proof.
  intros H. apply find_from_spec in H as [H|(k & _ & -> & Hk & Hin)]; [done|].
  by rewrite Nat.sub_0_r in Hk.
Qed.

Lemma transition_frame (events : list BuffEvent) (cur : Z) (tr : Transition) :
  findMostRecentAdditionalEvent events cur = Some tr ->
  cur <= tr_frame tr /\
  target_frame_of (additional_event (tr_event tr) (Some (tr_type tr))
                     (Some (tr_original tr))) = tr_frame tr.
Proof.
  intros (_ & Hin)%findMostRecentAdditionalEvent_spec.
  apply frames_to_check_spec in Hin as (He & Hty).
  destruct (tr_type tr); simpl; lia.
Qed.

(** *** Operations that leave the log and the state alone *)

Lemma later_with_additional_events (p : Processor) (events : list BuffEvent) :
  later p (with_additional_events p events).
Proof. by split. Qed.

Lemma later_with_label_map (p : Processor) (m : gmap string LabelEntry) :
  later p (with_label_map p m).
Proof. by split. Qed.

Lemma detectAndProcessBuff_later (p : Processor) (name : string) (f : Z) :
  later p (detectAndProcessBuff p name f).
Proof.
  unfold detectAndProcessBuff.
  destruct (detectCostRecoveryBuff name (buff_data p));
    [apply later_with_additional_events | apply later_refl].
Qed.

Lemma detectAndProcessBuff_state (p : Processor) (name : string) (f : Z) :
  state (detectAndProcessBuff p name f) = state p /\
  timeline (detectAndProcessBuff p name f) = timeline p /\
  settings (detectAndProcessBuff p name f) = settings p /\
  max_cost_points (detectAndProcessBuff p name f) = max_cost_points p.
Proof.
  unfold detectAndProcessBuff. by destruct (detectCostRecoveryBuff name (buff_data p)).
Qed.

Lemma addSS_later (key : string) (level : Z) (p : Processor) : later p (addSS key level p).
Proof.
  unfold addSS. destruct (1 <=? level); [|apply later_refl].
  destruct (buff_data p ≫= _); [apply later_with_additional_events | apply later_refl].
Qed.

Lemma processSpecialCommand_later (p p' : Processor) (row row' : Row) :
  processSpecialCommand p row = Ok (p', row') -> later p p'.
Proof.
  unfold processSpecialCommand.
  repeat match goal with
         | |- context [if ?b then _ else _] => destruct b
         | |- context [match ?o with Some _ => _ | None => _ end] => destruct o
         end;
    try discriminate;
    intros [= <- <-]; first [apply later_refl | apply later_with_additional_events].
Qed.

(** *** The merge loop and the commit of the row *)

Lemma resolve_loop_later (fuel n : nat) (p p' : Processor) (row row' : Row)
    (index : nat) (f : Z) (n' : nat) :
  resolve_loop fuel n p row index = Ok (f, n', p', row') -> later p p'.
Proof.
  revert n p row. induction fuel as [|fuel IH]; intros n p row; simpl; [discriminate|].
  destruct (estimateFrameFromRow p row) as [[est row1]|e]; simpl; [|discriminate].
  destruct (findMostRecentAdditionalEvent _ _) as [tr|] eqn:Hfind;
    [|intros [= <- <- <- <-]; apply later_refl].
  destruct (tr_frame tr <=? est); [|intros [= <- <- <- <-]; apply later_refl].
  destruct (addEventToTimeline p _) as [p1|e] eqn:Hadd; simpl; [|discriminate].
  intros H. apply IH in H.
  apply transition_frame in Hfind as [Hle Htf].
  eapply later_trans; [|exact H].
  apply (addEventToTimeline_later _ _ _) with (3 := Hadd); [rewrite Htf; lia | done].
Qed.

Lemma publish_label_state (p : Processor) (row : Row) (f : Z) :
  state (publish_label p row f) = state p /\
  timeline (publish_label p row f) = timeline p /\
  additional_events (publish_label p row f) = additional_events p.
Proof. unfold publish_label. by destruct (_ && _). Qed.

Lemma publish_label_later (p : Processor) (row : Row) (f : Z) :
  later p (publish_label p row f).
Proof.
  unfold publish_label. destruct (_ && _); [apply later_with_label_map | apply later_refl].
Qed.

Lemma processed_event_frame (p : Processor) (row : Row) (f : Z) :
  ie_frame (processed_event_of p row f) = Z.max f (current_frame (state p)).
Proof. simpl. destruct (Z.ltb_spec f (current_frame (state p))); lia. Qed.

Lemma commit_row_Ok (p p' : Processor) (row row' : Row) (f : Z) (ev : InputEvent) :
  commit_row p row f = Ok (p', row', ev) ->
  ev = processed_event_of p row f /\ row' = written_row p row f /\
  addEventToTimeline
    (detectAndProcessBuff (publish_label p row (ie_frame ev)) (ie_event_name ev) (ie_frame ev))
    (input_row ev) = Ok p'.
Proof.
  unfold commit_row.
  destruct (addEventToTimeline _ _) as [p3|e] eqn:Hadd; simpl; [|discriminate].
  intros [= <- <- <-]. done.
Qed.

Lemma commit_row_later (p p' : Processor) (row row' : Row) (f : Z) (ev : InputEvent) :
  commit_row p row f = Ok (p', row', ev) -> later p p'.
Proof.
  intros (Hev & _ & Hadd)%commit_row_Ok.
  eapply later_trans; [apply (publish_label_later p row (ie_frame ev))|].
  eapply later_trans; [apply detectAndProcessBuff_later|].
  apply (addEventToTimeline_later _ _ _) with (3 := Hadd); [|by rewrite Hev].
  destruct (detectAndProcessBuff_state (publish_label p row (ie_frame ev))
              (ie_event_name ev) (ie_frame ev)) as (-> & _).
  destruct (publish_label_state p row (ie_frame ev)) as (-> & _).
  simpl. rewrite Hev, processed_event_frame. lia.
Qed.

Lemma resolveRowTiming_later (p p' : Processor) (row row' : Row) (index : nat)
    (ev : InputEvent) :
  resolveRowTiming p row index = Ok (p', row', ev) -> later p p'.
Proof.
  unfold resolveRowTiming.
  destruct (resolve_loop LOOP_LIMIT 0 p row index) as [[[[f n] p1] row1]|e] eqn:Hloop;
    simpl; [|discriminate].
  destruct (commit_row p1 row1 f) as [[[p2 row2] ev2]|e] eqn:Hc; simpl; [|discriminate].
  intros [= <- <- <-].
  eapply later_trans; [by eapply resolve_loop_later | by eapply commit_row_later].
Qed.

Lemma process_rows_later (rows rows' : list Row) (i : nat) (p p' : Processor) :
  process_rows i rows p = Ok (p', rows') -> later p p'.
Proof.
  revert i p rows'. induction rows as [|row rest IH]; intros i p rows'; simpl.
  { intros [= <- <-]. apply later_refl. }
  destruct (processSpecialCommand p row) as [[p1 row1]|e] eqn:Hsp; simpl; [|discriminate].
  apply processSpecialCommand_later in Hsp.
  destruct (is_special_command row1).
  - destruct (process_rows (S i) rest p1) as [[p2 rest']|e] eqn:Hrest; simpl; [|discriminate].
    intros [= <- <-]. eapply later_trans; [exact Hsp | by eapply IH].
  - destruct (resolveRowTiming p1 row1 i) as [[[p2 row2] ev]|e] eqn:Hres; simpl; [|discriminate].
    destruct (process_rows (S i) rest p2) as [[p3 rest']|e] eqn:Hrest; simpl; [|discriminate].
    intros [= <- <-].
    eapply later_trans; [exact Hsp|].
    eapply later_trans; [by eapply resolveRowTiming_later | by eapply IH].
Qed.

Lemma createTimelineJSON_later (p p' : Processor) (rows rows' : list Row) :
  createTimelineJSON p rows = Ok (p', rows') -> later p p'.
Proof.
  unfold createTimelineJSON.
  destruct (process_rows 0 rows p) as [[p1 rows1]|e] eqn:H; simpl; [|discriminate].
  intros [= <- <-]. by eapply process_rows_later.
Qed.

End Run.

(** ** The constructor and the default events *)

Section Constructor.

Import TLEditor Invariants.

(** The processor after the first default event. *)
Lemma time_start_commit (rows : list Row) (s : Settings) (bd w : option BuffData) :
  addEventToTimeline (initial rows s bd w) (input_row TIME_START) =
    Ok {| settings := s; buff_data := bd; window_BUFF_DATA := w;
          max_cost_points := max_cost_points (initial rows s bd w);
          state := {| remaining_cost_points := 0; total_cost_recovery := 0;
                      remaining_students := 0; current_frame := 0 |};
          label_map := InitializeLabelMap rows;
          timeline := [{| te_frame := 0; te_cost_used := 0;
                          te_event_name := "タイム計測開始";
                          current_cost_display_only := (0 / COST_POINT_UNIT)%Q;
                          te_remaining_cost_points := 0; te_note := [];
                          overflow_cost := None; te_total_cost_recovery := 0;
                          te_remaining_students := 0 |}];
          additional_events := [] |}.
Proof. reflexivity. Qed.

Lemma constructor_Ok (rows : list Row) (s : Settings) (bd w : option BuffData) :
  exists p1 p2,
    addEventToTimeline (initial rows s bd w) (input_row TIME_START) = Ok p1 /\
    addEventToTimeline p1 (input_row BATTLE_START) = Ok p2 /\
    constructor rows s bd w = Ok (addCherinoSS (addKanoeSS p2)).
Proof.
  eexists. rewrite time_start_commit.
  match goal with |- exists p2, _ /\ addEventToTimeline ?p1 ?i = _ /\ _ =>
    destruct (addEventToTimeline p1 i) as [p2|e] eqn:H2 end.
  - exists p2. repeat split. unfold constructor. rewrite time_start_commit.
    unfold mbind, result_bind. cbv beta iota. by rewrite H2.
  - apply addEventToTimeline_Err, calculateTotalCostRecovery_Err in H2 as [H2 _].
    simpl in H2. lia.
Qed.

Lemma addSS_fields (key : string) (level : Z) (p : Processor) :
  state (addSS key level p) = state p /\ timeline (addSS key level p) = timeline p /\
  max_cost_points (addSS key level p) = max_cost_points p /\
  settings (addSS key level p) = settings p.
Proof.
  unfold addSS. destruct (1 <=? level); [|done]. by destruct (buff_data p ≫= _).
Qed.

(** What the constructor leaves: the two default events in the log, frame
    60, six participants. *)
Lemma constructor_spec (rows : list Row) (s : Settings) (bd w : option BuffData) :
  exists p0 e0 e1,
    constructor rows s bd w = Ok p0 /\
    timeline p0 = [e0; e1] /\
    current_frame (state p0) = 60 /\ remaining_students (state p0) = 6 /\
    settings p0 = s /\
    max_cost_points p0 = max_cost_points (initial rows s bd w) /\
    (te_event_name e0 = "タイム計測開始" /\ te_frame e0 = 0 /\
     te_remaining_students e0 = 0 /\ te_total_cost_recovery e0 = 0%Q /\
     te_remaining_cost_points e0 = 0%Q /\ overflow_cost e0 = None) /\
    (te_event_name e1 = "戦闘開始" /\ te_frame e1 = 60 /\
     te_remaining_students e1 = 6 /\
     ((0 <= max_cost_points p0)%Q ->
      te_remaining_cost_points e1 = 0%Q /\ overflow_cost e1 = Some 0%Q /\
      remaining_cost_points (state p0) = 0%Q)).
Proof.
  destruct (constructor_Ok rows s bd w) as (p1 & p2 & H1 & H2 & Hc).
  rewrite time_start_commit in H1. injection H1 as <-.
  apply addEventToTimeline_Ok in H2 as (rate & _ & Hst & Htl & _ & Hs & _ & _ & Hm & _).
  simpl in Hst, Htl, Hs, Hm.
  unfold addCherinoSS, addKanoeSS in Hc.
  destruct (addSS_fields "cherino" (cherino_ss (settings (addSS "kanoe" (kanoe_ss (settings p2)) p2)))
              (addSS "kanoe" (kanoe_ss (settings p2)) p2)) as (Hs1 & Ht1 & Hm1 & Hset1).
  destruct (addSS_fields "kanoe" (kanoe_ss (settings p2)) p2) as (Hs2 & Ht2 & Hm2 & Hset2).
  eexists _, _, _. split; [exact Hc|].
  rewrite Ht1, Ht2, Hs1, Hs2, Hm1, Hm2, Hset1, Hset2, Htl, Hst, Hm, Hs. simpl.
  split; [reflexivity|].
  repeat match goal with |- _ /\ _ => split end; try done.
  intros Hmax. unfold accrue. simpl. unfold Js.gtQ.
  match goal with |- context [Qle_bool ?a ?b] =>
    assert (Hle : Qle_bool a b = true) by (apply Qle_bool_iff; exact Hmax) end.
  by rewrite Hle.
Qed.

(** The cap on the points is the maximal cost, 10 by default, times
    [COST_POINT_UNIT]. *)
Lemma ceiling_is_cap_times_unit (rows : list Row) (s : Settings) (bd w : option BuffData)
    (p0 : Processor) :
  constructor rows s bd w = Ok p0 ->
  max_cost_points p0 =
    ((if Js.truthyQ (max_cost s) then default 0%Q (max_cost s) else DEFAULT_MAX_COST)
     * COST_POINT_UNIT)%Q.
Proof.
  destruct (constructor_spec rows s bd w) as (p & e0 & e1 & Hc & _ & _ & _ & _ & Hm & _).
  rewrite Hc. intros [= <-]. exact Hm.
Qed.

Lemma constructor_log_inv (rows : list Row) (s : Settings) (bd w : option BuffData)
    (p0 : Processor) :
  constructor rows s bd w = Ok p0 -> log_inv p0.
Proof.
  destruct (constructor_spec rows s bd w) as (p & e0 & e1 & Hc & Htl & Hf & _ & _ & _ & H0 & H1).
  rewrite Hc. intros [= <-]. destruct H0 as (_ & Hf0 & _), H1 as (_ & Hf1 & _).
  split; rewrite Htl.
  - intros i j ei ej Hij Hi Hj.
    destruct i as [|[|i]], j as [|[|[|j]]]; simpl in *; try lia; try discriminate;
      injection Hi as <-; injection Hj as <-; lia.
  - rewrite Hf. intros e He. apply elem_of_cons in He as [->|He]; [lia|].
    apply list_elem_of_singleton in He as ->. lia.
Qed.

End Constructor.

(** ** The committed log *)

Section Log.

Import TLEditor Invariants.

Lemma convert_later (rows rows' : list Row) (s : Settings) (bd w : option BuffData)
    (p : Processor) :
  convert rows s bd w = Ok (p, rows') ->
  exists p0, constructor rows s bd w = Ok p0 /\ later p0 p.
Proof.
  unfold convert.
  destruct (constructor rows s bd w) as [p0|e] eqn:Hc; simpl; [|discriminate].
  intros H. exists p0. split; [done|]. by eapply createTimelineJSON_later.
Qed.

Lemma commit_row_Err (p : Processor) (row : Row) (f : Z) (e : Error) :
  commit_row p row f = Err e -> exists n, e = TooManyBuffs n.
Proof.
  unfold commit_row.
  destruct (addEventToTimeline _ _) as [p3|e'] eqn:Hadd; simpl; [discriminate|].
  intros [= <-].
  apply addEventToTimeline_Err, calculateTotalCostRecovery_Err in Hadd as [_ ->]. eauto.
Qed.

(** C3.  In the log of every conversion that completes, frames never
    decrease: an earlier entry has a frame at most that of a later one.
    When the final estimate of a row lies before the current frame, the
    processed event takes the current frame and the note "指定タイムが
    直前の行動より早くなっています"; the commit then fails only if the
    rate recomputation does (too many buffs), and otherwise appends that
    event, at the current frame and with the note, and writes the frame
    back into the row. *)
Theorem committed_log_monotone :
  (forall rows s bd w p rows',
     convert rows s bd w = Ok (p, rows') ->
     forall i j ei ej, (i < j)%nat ->
       timeline p !! i = Some ei -> timeline p !! j = Some ej ->
       te_frame ei <= te_frame ej) /\
  (forall p row f,
     f < current_frame (state p) ->
     let ev := processed_event_of p row f in
     ie_frame ev = current_frame (state p) /\
     ie_note ev = Some (default [] (row_note row) ++ [REORDERED_NOTE]) /\
     (forall e, commit_row p row f = Err e -> exists n, e = TooManyBuffs n) /\
     (forall p' row' ev',
        commit_row p row f = Ok (p', row', ev') ->
        ev' = ev /\
        row_frame row' = Some (current_frame (state p)) /\
        exists committed,
          timeline p' = timeline p ++ [committed] /\
          te_frame committed = current_frame (state p) /\
          REORDERED_NOTE ∈ te_note committed)).
Proof.
  split.
  - intros rows s bd w p rows' Hconv.
    apply convert_later in Hconv as (p0 & Hc & Hl).
    apply constructor_log_inv in Hc. by apply (later_log _ _ Hl) in Hc as [Hs _].
  - intros p row f Hlt ev.
    assert (Hb : (f <? current_frame (state p)) = true) by (by apply Z.ltb_lt).
    assert (Hf : ie_frame ev = current_frame (state p)) by (unfold ev; simpl; by rewrite Hb).
    assert (Hn : ie_note ev = Some (default [] (row_note row) ++ [REORDERED_NOTE]))
      by (unfold ev; simpl; by rewrite Hb).
    split; [done|]. split; [done|]. split; [apply commit_row_Err|].
    intros p' row' ev' (-> & -> & Hadd)%commit_row_Ok. fold ev in Hadd |- *.
    split; [done|]. split.
    { unfold written_row. fold ev. rewrite Hf. reflexivity. }
    apply addEventToTimeline_Ok in Hadd as (rate & _ & _ & Htl & _).
    destruct (detectAndProcessBuff_state (publish_label p row (ie_frame ev))
                (ie_event_name ev) (ie_frame ev)) as (_ & Ht & _).
    rewrite Ht in Htl. destruct (publish_label_state p row (ie_frame ev)) as (_ & Ht' & _).
    rewrite Ht' in Htl.
    eexists. split; [exact Htl|].
    cbn [te_frame te_note formatted_note target_frame_of]. split; [done|].
    rewrite Hn. cbn [default from_option]. apply elem_of_app. right. left.
Qed.

(** *** The participants at a recomputation of the rate *)

Lemma engine_commit_time_start (rows : list Row) (s : Settings) (bd w : option BuffData) :
  engine_commit (initial rows s bd w) (input_row TIME_START).
Proof. by right. Qed.

Lemma engine_commit_battle_start (p : Processor) :
  engine_commit p (input_row BATTLE_START).
Proof. by left. Qed.

(** After the constructor the participant count is 6 for good, and the
    events committed from then on (buff transitions and processed rows)
    carry no participant count. *)
Lemma engine_commit_later (p0 p : Processor) (input : TimelineInput) :
  remaining_students (state p0) = 6 -> later p0 p ->
  students_after p input = remaining_students (state p) ->
  engine_commit p input.
Proof. intros H6 Hl Hs. left. rewrite Hs, (later_students _ _ Hl). done. Qed.

Lemma mark_original_nil (input : TimelineInput) : mark_original input [] = [].
Proof. by destruct input as [|? [[]|] []]. Qed.

(** The participant count is 6 when the constructor returns and stays 6
    through the conversion. *)
Lemma conversion_keeps_six_participants (rows rows' : list Row) (s : Settings)
    (bd w : option BuffData) (p : Processor) :
  convert rows s bd w = Ok (p, rows') -> remaining_students (state p) = 6.
Proof.
  intros (p0 & Hc & Hl)%convert_later.
  destruct (constructor_spec rows s bd w) as (p0' & e0 & e1 & Hc' & _ & _ & H6 & _).
  rewrite Hc in Hc'. injection Hc' as <-. by rewrite (later_students _ _ Hl).
Qed.

(** C5.  Whenever the engine recomputes the rate (in a commit, with the
    six participants of the battle, or with none and no buff for the
    first default event), the recomputation fails exactly when the
    individually targeted buffs in effect outnumber the participants, and
    the error it fails with is the too-many-buffs error carrying their
    number. *)
Theorem too_many_individual_buffs (p : Processor) (input : TimelineInput) :
  engine_commit p input ->
  let individual :=
    buffs_in_effect IndividualBuff (mark_original input (additional_events p))
                    (target_frame_of input) in
  (addEventToTimeline p input = Err (TooManyBuffs (length individual)) <->
   students_after p input < Z.of_nat (length individual)) /\
  (forall e, addEventToTimeline p input = Err e -> e = TooManyBuffs (length individual)).
Proof.
  intros Hc individual. split.
  - rewrite addEventToTimeline_Err, calculateTotalCostRecovery_Err. fold individual.
    destruct Hc as [->|[-> Hnil]]; [split; [intros [? _]; lia | intros ?; split; [lia|done]]|].
    unfold individual. rewrite Hnil, mark_original_nil. simpl. split; [lia | lia].
  - intros e He. by apply addEventToTimeline_Err, calculateTotalCostRecovery_Err in He as [_ ->].
Qed.

(** *** The default events *)

(** C10.  Every conversion commits, before any row, the event
    "タイム計測開始" at frame 0 with no participant and the event
    "戦闘開始" at frame 60 with six participants: these are the two
    entries of the log the constructor leaves, and the first two of the
    log of every conversion that completes.  The rate is 0 until the
    second one is committed, so the recovery added by that commit,
    [60 * 0], is nothing; and once the constructor is done, a commit
    whose target frame is at most 60 does not advance the frame and adds
    no recovery either. *)
Theorem default_events_first (rows : list Row) (s : Settings) (bd w : option BuffData) :
  exists p0 e0 e1,
    constructor rows s bd w = Ok p0 /\ timeline p0 = [e0; e1] /\
    (te_event_name e0 = "タイム計測開始" /\ te_frame e0 = 0 /\
     te_remaining_students e0 = 0 /\ te_total_cost_recovery e0 = 0%Q /\
     te_remaining_cost_points e0 = 0%Q) /\
    (te_event_name e1 = "戦闘開始" /\ te_frame e1 = 60 /\
     te_remaining_students e1 = 6 /\
     ((0 <= max_cost_points p0)%Q -> te_remaining_cost_points e1 = 0%Q)) /\
    (forall p rows',
       convert rows s bd w = Ok (p, rows') -> exists rest, timeline p = e0 :: e1 :: rest) /\
    (exists p1,
       addEventToTimeline (initial rows s bd w) (input_row TIME_START) = Ok p1 /\
       accrue (initial rows s bd w) 0 = (0%Q, None) /\
       total_cost_recovery (state p1) = 0%Q /\
       (inject_Z (60 - current_frame (state p1)) * total_cost_recovery (state p1) == 0)%Q) /\
    (forall p input,
       later p0 p -> target_frame_of input <= 60 ->
       accrue p (target_frame_of input) = (remaining_cost_points (state p), None)).
Proof.
  destruct (constructor_spec rows s bd w)
    as (p0 & e0 & e1 & Hc & Htl & Hf & H6 & _ & _ & H0 & H1).
  exists p0, e0, e1. split; [done|]. split; [done|].
  split; [tauto|]. split.
  { destruct H1 as (? & ? & ? & H1). repeat split; try done. intros Hmax. by apply H1. }
  split; [|split].
  - intros p rows' Hconv. apply convert_later in Hconv as (p0' & Hc' & Hl).
    rewrite Hc in Hc'. injection Hc' as <-.
    destruct (later_timeline _ _ Hl) as [rest Hrest]. exists rest. by rewrite Hrest, Htl.
  - eexists. split; [apply time_start_commit|]. simpl. repeat split.
  - intros p input Hl Hle. unfold accrue.
    pose proof (later_frame _ _ Hl) as Hfr. rewrite Hf in Hfr.
    destruct (Z.ltb_spec (current_frame (state p)) (target_frame_of input)); [lia|done].
Qed.

End Log.

(** ** The merge loop *)

Section Loop.

Import TLEditor Invariants.

Lemma estimateFrameFromRow_Err (p : Processor) (row : Row) (e : Error) :
  estimateFrameFromRow p row = Err e -> e = NoAnchor \/ e = ZeroRecovery.
Proof.
  unfold estimateFrameFromRow.
  destruct (Js.truthyZ (row_frame row)); [discriminate|].
  destruct (Js.truthyQ (row_time row)); [discriminate|].
  destruct (Js.truthyS (reference row)); [discriminate|].
  destruct (Js.truthyQ (cost_timing row)); [|intros [= <-]; by left].
  unfold calculateFramesFromCostTiming.
  destruct (Js.leQ _ _); simpl; [discriminate|].
  destruct (Js.leQ _ _); simpl; [intros [= <-]; by right | discriminate].
Qed.

(** Each iteration but the last commits one transition. *)
Lemma resolve_loop_count (fuel n : nat) (p p' : Processor) (row row' : Row)
    (index : nat) (f : Z) (n' : nat) :
  resolve_loop fuel n p row index = Ok (f, n', p', row') ->
  (n < n' <= n + fuel)%nat /\
  length (timeline p') = (length (timeline p) + (n' - n - 1))%nat.
Proof.
  revert n p row. induction fuel as [|fuel IH]; intros n p row; simpl; [discriminate|].
  destruct (estimateFrameFromRow p row) as [[est row1]|e]; simpl; [|discriminate].
  destruct (findMostRecentAdditionalEvent _ _) as [tr|];
    [|intros [= <- <- <- <-]; lia].
  destruct (tr_frame tr <=? est); [|intros [= <- <- <- <-]; lia].
  destruct (addEventToTimeline p _) as [p1|e] eqn:Hadd; simpl; [|discriminate].
  intros [Hn Hlen]%IH.
  apply addEventToTimeline_Ok in Hadd as (rate & _ & _ & Htl & _).
  rewrite Htl, length_app in Hlen. simpl in Hlen. lia.
Qed.

Lemma resolve_loop_Err (fuel n : nat) (p : Processor) (row : Row) (index : nat) (e : Error) :
  resolve_loop fuel n p row index = Err e ->
  e = InfiniteLoop (index + 1) \/ e = NoAnchor \/ e = ZeroRecovery \/
  exists k, e = TooManyBuffs k.
Proof.
  revert n p row. induction fuel as [|fuel IH]; intros n p row; simpl.
  { intros [= <-]. by left. }
  destruct (estimateFrameFromRow p row) as [[est row1]|e'] eqn:Hest; simpl.
  2: { intros [= <-]. apply estimateFrameFromRow_Err in Hest. tauto. }
  destruct (findMostRecentAdditionalEvent _ _) as [tr|]; [|discriminate].
  destruct (tr_frame tr <=? est); [|discriminate].
  destruct (addEventToTimeline p _) as [p1|e'] eqn:Hadd; simpl; [apply IH|].
  intros [= <-].
  apply addEventToTimeline_Err, calculateTotalCostRecovery_Err in Hadd as [_ ->]. eauto 6.
Qed.

(** An outcome other than the loop error does not depend on the limit. *)
Lemma resolve_loop_more_fuel (fuel n : nat) (p : Processor) (row : Row) (index : nat)
    (r : result (Z * nat * Processor * Row)) :
  resolve_loop fuel n p row index = r ->
  r <> Err (InfiniteLoop (index + 1)) ->
  resolve_loop (S fuel) n p row index = r.
Proof.
  revert n p row. induction fuel as [|fuel IH]; intros n p row Hr Hne.
  { simpl in Hr. congruence. }
  change (resolve_loop (S (S fuel)) n p row index) with
    ('(frame_estimated, row1) ← estimateFrameFromRow p row;
     match findMostRecentAdditionalEvent (additional_events p) (current_frame (state p)) with
     | Some tr =>
         if tr_frame tr <=? frame_estimated then
           p1 ← addEventToTimeline p
                  (additional_event (tr_event tr) (Some (tr_type tr)) (Some (tr_original tr)));
           resolve_loop (S fuel) (S n) p1 row1 index
         else Ok (frame_estimated, S n, p, row1)
     | None => Ok (frame_estimated, S n, p, row1)
     end).
  simpl in Hr.
  destruct (estimateFrameFromRow p row) as [[est row1]|e']; simpl in *; [|done].
  destruct (findMostRecentAdditionalEvent _ _) as [tr|]; [|done].
  destruct (tr_frame tr <=? est); [|done].
  destruct (addEventToTimeline p _) as [p1|e']; simpl in *; [|done].
  by apply IH.
Qed.

Lemma resolve_loop_limit_exceeded (fuel n : nat) (p : Processor) (row : Row) (index : nat) :
  resolve_loop fuel n p row index = Err (InfiniteLoop (index + 1)) ->
  forall fuel', (fuel' <= fuel)%nat ->
    resolve_loop fuel' n p row index = Err (InfiniteLoop (index + 1)).
Proof.
  intros H fuel' Hle. induction Hle as [|fuel Hle IH]; [done|].
  apply IH.
  destruct (resolve_loop fuel n p row index) as [r|e] eqn:E.
  - rewrite (resolve_loop_more_fuel _ _ _ _ _ _ E) in H; [discriminate | done].
  - destruct (resolve_loop_Err _ _ _ _ _ _ E) as [->|He]; [done|].
    rewrite (resolve_loop_more_fuel _ _ _ _ _ _ E) in H; [done|].
    intros [= ->]. destruct He as [?|[?|[k ?]]]; discriminate.
Qed.

(** C7.  The merge loop of [resolveRowTiming] is bounded: when it ends
    normally it has made at most 100 iterations, each but the last one
    committing one transition to the log; its only failures are the loop
    error carrying the line of the row ([index + 1]), raised when no
    number of iterations up to the limit lets it end, and the errors of
    the estimation and of the commit.  [resolveRowTiming] reports every
    failure with the line of the row, the loop error as
    [RowError (index + 1) (InfiniteLoop (index + 1))]. *)
Theorem merge_loop_bounded (p : Processor) (row : Row) (index : nat) :
  (forall f n p' row',
     resolve_loop LOOP_LIMIT 0 p row index = Ok (f, n, p', row') ->
     (1 <= n <= 100)%nat /\
     length (timeline p') = (length (timeline p) + (n - 1))%nat) /\
  (forall e,
     resolve_loop LOOP_LIMIT 0 p row index = Err e ->
     e = InfiniteLoop (index + 1) \/ e = NoAnchor \/ e = ZeroRecovery \/
     exists k, e = TooManyBuffs k) /\
  (resolve_loop LOOP_LIMIT 0 p row index = Err (InfiniteLoop (index + 1)) <->
   forall fuel, (fuel <= 100)%nat ->
     resolve_loop fuel 0 p row index = Err (InfiniteLoop (index + 1))) /\
  (resolve_loop LOOP_LIMIT 0 p row index = Err (InfiniteLoop (index + 1)) <->
   resolveRowTiming p row index = Err (RowError (index + 1) (InfiniteLoop (index + 1)))) /\
  (forall e, resolveRowTiming p row index = Err e ->
             exists cause, e = RowError (index + 1) cause).
Proof.
  split; [|split; [|split; [|split]]].
  - intros f n p' row' [Hn Hlen]%resolve_loop_count. unfold LOOP_LIMIT in Hn.
    split; [lia|]. rewrite Hlen. f_equal. lia.
  - intros e. apply resolve_loop_Err.
  - split.
    + intros H fuel Hle. by apply (resolve_loop_limit_exceeded LOOP_LIMIT).
    + intros H. by apply H.
  - unfold resolveRowTiming. split.
    + by intros ->.
    + destruct (resolve_loop LOOP_LIMIT 0 p row index) as [[[[f n] p1] row1]|e]; simpl.
      * destruct (commit_row p1 row1 f) as [r|e] eqn:Hc; simpl; [discriminate|].
        intros [= ->]. by apply commit_row_Err in Hc as [k Hk].
      * by intros [= ->].
  - intros e. unfold resolveRowTiming.
    destruct (_ ≫= _) as [r|e']; simpl; [discriminate|]. intros [= <-]. eauto.
Qed.

End Loop.

(** ** Duplicate buffs *)

Section Duplicates.

Import TLEditor Invariants Samples.

Lemma is_duplicate_spec (target : string) (new_start : Z) (b : BuffEvent) :
  is_duplicate target new_start b = true <->
  buff_target b = Some target /\ active b = true /\ new_start < end_frame b.
Proof.
  unfold is_duplicate. rewrite !andb_true_iff, Z.ltb_lt.
  destruct (buff_target b) as [t|]; [|split; [intros [[? ?] ?]; done | intros [? _]; done]].
  rewrite String.eqb_eq. split; [intros [[-> ?] ?]; done | intros [[= ->] [? ?]]; done].
Qed.

(** C4.  A pending interval is not truncated.  Two rows matching the
    水着ホシノ entry, at 5 and 5.5 seconds (frames 150 and 165), create
    intervals that start at frames 171 and 186.  The first has not
    started when the second is created, so [checkAndUpdateDuplicateBuffs]
    passes over it: it keeps its end frame 1671 instead of ending at
    186, and from frame 186 on both intervals are in effect, which the
    rate shows (5568 = 4 * 700 + 2 * (700 + 684)). *)
Lemma pending_interval_not_truncated :
  intervals_view
    (run_catalog [at_time 5 "水着ホシノ" 0; at_time (11 # 2) "水着ホシノ" 0; at_time 10 "B" 0]
       default_settings)
  = Some [(Some "水着ホシノ", 171, 1671, true); (Some "水着ホシノ", 186, 1686, true)] /\
  rates_view
    (run_catalog [at_time 5 "水着ホシノ" 0; at_time (11 # 2) "水着ホシノ" 0; at_time 10 "B" 0]
       default_settings)
  = Some [(0, "タイム計測開始", 0%Q); (60, "戦闘開始", 4200%Q);
          (150, "水着ホシノ", 4200%Q); (165, "水着ホシノ", 4200%Q);
          (171, "水着ホシノEX開始", 4884%Q); (186, "水着ホシノEX開始", 5568%Q);
          (300, "B", 5568%Q)].
Proof. split; vm_compute; reflexivity. Qed.

(** A start transition is only selected for an entry that has not
    started and whose start frame is not behind the current frame. *)
Lemma start_transition_only_pending (events : list BuffEvent) (cur : Z)
    (tr : Transition) (b : BuffEvent) :
  findMostRecentAdditionalEvent events cur = Some tr ->
  events !! tr_original tr = Some b ->
  tr_type tr = start ->
  active b = false /\ cur <= start_frame b.
Proof.
  intros (Hb & Hin)%findMostRecentAdditionalEvent_spec Hb' Hty.
  rewrite Hb in Hb'. injection Hb' as <-.
  apply frames_to_check_spec in Hin as (_ & Hin). rewrite Hty in Hin. tauto.
Qed.

(** A catalog row that overrides a running interval: 水着ホシノ at frames
    150 and 600.  The first interval, started at 171, ends at the start
    frame 621 of the second instead of 1671. *)
Example active_interval_truncated :
  intervals_view
    (run_catalog [at_time 5 "水着ホシノ" 0; at_time 20 "水着ホシノ" 0] default_settings)
  = Some [(Some "水着ホシノ", 171, 621, true); (Some "水着ホシノ", 621, 2121, false)].
Proof. vm_compute. reflexivity. Qed.

End Duplicates.

(** ** Running a conversion twice *)

Section Determinism.

Import TLEditor Invariants Samples.

(** C8 as stated fails when the second conversion is given the rows that
    the first one has processed.  With the カノエ buff granted at frame
    60 and a first row written for frame 30: the first conversion forces
    the row up to frame 60, before the start of the buff; it writes frame
    60 into the row, so the second conversion finds the start of the
    buff due first. *)
Lemma rerun_on_processed_rows_differs :
  log_view (run_catalog [at_time 1 "A" 0; at_time 10 "B" 0] kanoe_settings)
  = Some [(0, "タイム計測開始", []); (60, "戦闘開始", []);
          (60, "A", [REORDERED_NOTE]); (60, "カノエSS開始", []); (300, "B", [])] /\
  log_view (rerun [at_time 1 "A" 0; at_time 10 "B" 0] kanoe_settings)
  = Some [(0, "タイム計測開始", []); (60, "戦闘開始", []);
          (60, "カノエSS開始", []); (60, "A", [REORDERED_NOTE]); (300, "B", [])] /\
  log_of (run_catalog [at_time 1 "A" 0; at_time 10 "B" 0] kanoe_settings)
  <> log_of (rerun [at_time 1 "A" 0; at_time 10 "B" 0] kanoe_settings).
Proof.
  split; [vm_compute; reflexivity|]. split; [vm_compute; reflexivity|].
  intros H.
  apply (f_equal (fun r => match r with
                           | Ok l => te_event_name <$> l !! 2%nat
                           | Err _ => None
                           end)) in H.
  vm_compute in H. discriminate.
Qed.

Lemma with_is_special_command_same (row row' : Row) (b : bool) :
  same_input row row' -> with_is_special_command row b = with_is_special_command row' b.
Proof. unfold same_input, with_is_special_command. intros [=]. f_equal; assumption. Qed.

Lemma same_input_fields (row row' : Row) :
  same_input row row' ->
  row_frame row = row_frame row' /\ row_time row = row_time row' /\
  label row = label row' /\ row_event_name row = row_event_name row' /\
  row_duration row = row_duration row' /\ row_value row = row_value row' /\
  row_target row = row_target row'.
Proof. unfold same_input, with_is_special_command. intros [=]. done. Qed.

Lemma processSpecialCommand_same (p : Processor) (row row' : Row) :
  same_input row row' -> processSpecialCommand p row = processSpecialCommand p row'.
Proof.
  intros H. unfold processSpecialCommand.
  rewrite (with_is_special_command_same _ _ false H),
          (with_is_special_command_same _ _ true H).
  destruct (same_input_fields _ _ H) as (_ & -> & _ & -> & -> & -> & ->). reflexivity.
Qed.

End Determinism.

(** ** Worked instances *)

Section Instances.

Import TLEditor Invariants Samples.

(** The scan on five markers: the second start and the second end are
    ignored, the last start is extended to the battle end frame 5400. *)
Lemma radiator_intervals_scan_and_query_witness :
  let m := RadiatorManager.calculateRadiatorIntervals
             {| RadiatorManager.radiator_events := radiator_events_sample;
                RadiatorManager.radiator_intervals := [] |} (Some 5400) in
  RadiatorManager.radiator_intervals m =
    [ {| RadiatorManager.start_frame := 10; RadiatorManager.end_frame := 30;
         RadiatorManager.auto_extended := false |};
      {| RadiatorManager.start_frame := 50; RadiatorManager.end_frame := 5400;
         RadiatorManager.auto_extended := true |} ] /\
  RadiatorManager.isRadiatorActiveAt m 29 = true /\
  RadiatorManager.isRadiatorActiveAt m 30 = false.
Proof.
  intros m. subst m.
  destruct radiator_intervals_scan_and_query as (_ & _ & _ & Hext & Hq).
  split; [rewrite (Hext _ 5400); reflexivity|]. split.
  - apply Hq. eexists. split; [left|]. simpl. lia.
  - reflexivity.
Defined.

(** The last step of the worked example of the source: from 3,149,000
    points at frame 3003 with rate 2000 and cap 3,150,000, a skill of cost
    5 at frame 3007 leaves 1,650,000 points and records the overflow. *)
Lemma commit_accrues_caps_then_pays_witness :
  exists p',
    current_frame (state example_processor) < target_frame_of (input_row example_skill) /\
    addEventToTimeline example_processor (input_row example_skill) = Ok p' /\
    exists committed,
      timeline p' = [committed] /\
      overflow_cost committed = Some ((3149000 + inject_Z (3007 - 3003) * 2000 - 3150000)
                                      / COST_POINT_UNIT)%Q /\
      (remaining_cost_points (state p') == 1650000)%Q.
Proof.
  eexists.
  assert (H1 : current_frame (state example_processor)
               < target_frame_of (input_row example_skill)) by (simpl; lia).
  split; [exact H1|].
  assert (H2 : addEventToTimeline example_processor (input_row example_skill) = Ok _)
    by (vm_compute; reflexivity).
  split; [exact H2|].
  destruct (commit_accrues_caps_then_pays _ _ _ H1 H2) as (c & Htl & _ & _ & _ & Hover & _).
  exists c. split; [exact Htl|].
  destruct Hover as (_ & Ho & Hr); [reflexivity|].
  split; [exact Ho|]. rewrite Hr. reflexivity.
Defined.

Lemma committed_log_monotone_witness :
  exists p rows',
    run_catalog [at_time 5 "水着ホシノ" 3; at_time 1 "B" 0; at_cost 5 true "C" 5]
      default_settings = Ok (p, rows') /\
    frames_sorted (timeline p) /\
    (te_frame <$> timeline p) = [0; 60; 150; 150; 171; 567].
Proof.
  destruct (run_catalog [at_time 5 "水着ホシノ" 3; at_time 1 "B" 0; at_cost 5 true "C" 5]
              default_settings) as [[p rows']|e] eqn:E.
  - exists p, rows'. split; [reflexivity|]. split.
    + destruct committed_log_monotone as [Hmono _]. exact (Hmono _ _ _ _ _ _ E).
    + vm_compute in E. injection E as <- _. reflexivity.
  - vm_compute in E. discriminate.
Defined.

Lemma too_many_individual_buffs_witness :
  engine_commit crowded_processor (input_row (plain_event 100)) /\
  addEventToTimeline crowded_processor (input_row (plain_event 100)) = Err (TooManyBuffs 7).
Proof.
  assert (H : engine_commit crowded_processor (input_row (plain_event 100)))
    by (left; reflexivity).
  split; [exact H|].
  destruct (too_many_individual_buffs _ _ H) as [Hiff _].
  apply Hiff. simpl. lia.
Defined.

Lemma forward_label_with_offset_is_annotated_witness :
  estimateFrameFromRow forward_label_processor (at_reference "#a" "+" 1 "X") =
    Ok (-30, with_row_note (at_reference "#a" "+" 1 "X")
               (Some ["未来の時間を指定する場合、#aで時間指定が必要です"])).
Proof.
  rewrite (forward_label_with_offset_is_annotated forward_label_processor
             (at_reference "#a" "+" 1 "X") "#a" {| le_time := None; le_frame := None |});
    reflexivity.
Defined.

(** The loop guard at work: the zero-length interval at frame 300 starts
    and ends over and over, and row 2 (index 1) is abandoned. *)
Lemma merge_loop_bounded_witness :
  resolveRowTiming zero_length_processor (at_time 20 "B" 0) 1 =
    Err (RowError 2 (InfiniteLoop 2)).
Proof.
  destruct (merge_loop_bounded zero_length_processor (at_time 20 "B" 0) 1)
    as (_ & _ & _ & H & _).
  apply H. vm_compute. reflexivity.
Defined.

Lemma default_events_first_witness :
  exists p rows' e0 e1 rest,
    run_catalog [at_time 5 "A" 0] kanoe_settings = Ok (p, rows') /\
    timeline p = e0 :: e1 :: rest /\
    te_event_name e0 = "タイム計測開始" /\ te_frame e0 = 0 /\ te_remaining_students e0 = 0 /\
    te_event_name e1 = "戦闘開始" /\ te_frame e1 = 60 /\ te_remaining_students e1 = 6.
Proof.
  destruct (default_events_first [at_time 5 "A" 0] kanoe_settings (Some Buffs.BUFF_DATA)
              (Some Buffs.BUFF_DATA))
    as (p0 & e0 & e1 & _ & _ & (Hn0 & Hf0 & Hs0 & _) & (Hn1 & Hf1 & Hs1 & _) & Hpre & _).
  destruct (run_catalog [at_time 5 "A" 0] kanoe_settings) as [[p rows']|e] eqn:E.
  - destruct (Hpre p rows' E) as [rest Hrest].
    exists p, rows', e0, e1, rest. repeat split; assumption.
  - vm_compute in E. discriminate.
Defined.

(** *** Runs of the engine *)

(** C6 as stated fails: a label without a time, referred to with an
    offset, does not make the resolution fail.  The conversion completes;
    the referring row is estimated at frame -30, forced up to frame 60,
    and carries both notes. *)
Lemma forward_label_offset_does_not_fail :
  log_view (run_catalog [at_reference "#a" "+" 1 "X"; labelled_at_cost 1 "Y" "#a"]
              default_settings)
  = Some [(0, "タイム計測開始", []); (60, "戦闘開始", []);
          (60, "X", ["未来の時間を指定する場合、#aで時間指定が必要です"; REORDERED_NOTE]);
          (132, "Y", [])].
Proof. vm_compute. reflexivity. Qed.

(** A special command with a duration below one frame makes the next row
    hit the loop limit. *)
Example loop_limit_reached :
  run_catalog [special_command 10 "コスト回復力増加" 500 (1 # 100); at_time 20 "B" 0]
    special_settings
  = Err (CreateError (RowError 2 (InfiniteLoop 2))).
Proof. vm_compute. reflexivity. Qed.

(** Seven buffs for seven different targets, all starting at frame 150:
    the commit of the seventh start fails, and the conversion with it. *)
Example seven_individual_buffs_run :
  run_catalog (List.map special_command_for ["A"; "B"; "C"; "D"; "E"; "F"; "G"]
               ++ [at_time 6 "X" 0]) special_settings
  = Err (CreateError (RowError 8 (TooManyBuffs 7))).
Proof. vm_compute. reflexivity. Qed.

(** A special command lowering the rate by 500 for 5 seconds. *)
Example special_command_run :
  log_view (run_catalog [special_command 10 "コスト回復力減少" 500 5; at_time 20 "B" 0]
              special_settings)
  = Some [(0, "タイム計測開始", []); (60, "戦闘開始", []);
          (300, "コスト回復力500減少開始", []); (450, "コスト回復力500減少終了", []);
          (600, "B", [])].
Proof. vm_compute. reflexivity. Qed.

End Instances.

(* ================================================================== *)
(** * Part III: further properties                                     *)
(* ================================================================== *)

Section Frames.

Import Utilities.

Lemma round_bounds (x : Q) :
  (x - (1 # 2) < inject_Z (Js.round x) /\ inject_Z (Js.round x) <= x + (1 # 2))%Q.
Proof.
  unfold Js.round. split.
  - pose proof (Qlt_floor (x + (1 # 2))) as H. rewrite inject_Z_plus in H.
    change (inject_Z 1) with 1%Q in H. lra.
  - apply Qfloor_le.
Qed.

Lemma gtQ_spec (a b : Q) : if Js.gtQ a b then (b < a)%Q else (a <= b)%Q.
Proof.
  unfold Js.gtQ. destruct (Qle_bool a b) eqn:E; simpl.
  - by apply Qle_bool_iff.
  - apply Qnot_le_lt. intros H%Qle_bool_iff. congruence.
Qed.

End Frames.

Section Rate.

Import TLEditor.

Lemma buffs_in_effect_none (s : BuffScope) (events : list BuffEvent) (f : Z) :
  (forall e, e ∈ events -> in_effect f e = false) -> buffs_in_effect s events f = [].
Proof.
  intros H. unfold buffs_in_effect. induction events as [|e rest IH]; [done|].
  simpl. rewrite (H e) by left. simpl. apply IH. intros e' He'. apply H. by right.
Qed.

(** X3.  When no interval of [additional_events] is in effect at the
    frame, [calculateTotalCostRecovery] does not fail and the rate is 700
    points a frame for each participant, 842 with the SS bonus; a
    negative number of participants counts as none. *)
Theorem base_rate_without_buffs (events : list BuffEvent) (f : Z) (ss : bool) (students : Z) :
  (forall e, e ∈ events -> in_effect f e = false) ->
  exists rate,
    calculateTotalCostRecovery events f ss students = Ok rate /\
    (rate == inject_Z (Z.max students 0) * (if ss then 842 else 700))%Q.
Proof.
  intros H. unfold calculateTotalCostRecovery.
  rewrite !(buffs_in_effect_none _ _ _ H). simpl.
  eexists. split; [reflexivity|].
  assert (Hss : (ss_actual ss (700 + 0) == if ss then 842 else 700)%Q).
  { destruct ss; [by vm_compute | simpl; ring]. }
  rewrite Z.sub_0_r.
  destruct (Z.ltb_spec 0 students) as [Hp|Hp].
  - rewrite Hss, Z.max_l by lia. ring.
  - rewrite Z.max_r by lia. simpl. ring.
Qed.

End Rate.

Section NextTransition.

Import TLEditor Invariants.

Lemma consider_fold_min (i : nat) (event : BuffEvent) (l : list (Z * TransitionType))
    (best : option Transition) (tr : Transition) :
  fold_left (consider i event) l best = Some tr ->
  (forall b, best = Some b ->
     tr_frame tr <= tr_frame b /\ (tr_frame tr = tr_frame b -> tr = b)) /\
  (forall c, c ∈ l -> tr_frame tr <= fst c).
Proof.
  revert best. induction l as [|c l IH]; intros best H; simpl in H.
  { split; [intros b Hb; rewrite Hb in H; injection H as ->; done|].
    by intros c ?%elem_of_nil. }
  apply IH in H as [H1 H2]. unfold consider in H1. split.
  - intros b ->. destruct (Z.ltb_spec (fst c) (tr_frame b)) as [Hlt|Hge].
    + destruct (H1 _ eq_refl) as [Hle _]. simpl in Hle. split; lia.
    + exact (H1 _ eq_refl).
  - intros c' [->|Hc']%elem_of_cons; [|by apply H2].
    destruct best as [b|].
    + destruct (Z.ltb_spec (fst c) (tr_frame b)) as [Hlt|Hge];
        destruct (H1 _ eq_refl) as [Hle _]; simpl in Hle; lia.
    + destruct (H1 _ eq_refl) as [Hle _]. exact Hle.
Qed.

Lemma consider_fold_None (i : nat) (event : BuffEvent) (l : list (Z * TransitionType))
    (best : option Transition) :
  fold_left (consider i event) l best = None <-> best = None /\ l = [].
Proof.
  split; [|by intros [-> ->]].
  revert best. induction l as [|c l IH]; intros best H; simpl in H; [done|].
  apply IH in H as [H _]. unfold consider in H. destruct best as [b|]; [|done].
  by destruct (fst c <? tr_frame b).
Qed.

Lemma find_from_None (events : list BuffEvent) (cur : Z) (i : nat)
    (best : option Transition) :
  find_from i events cur best = None <->
  best = None /\ forall e, e ∈ events -> frames_to_check cur e = [].
Proof.
  revert i best. induction events as [|event rest IH]; intros i best; simpl.
  { split; [intros ->; split; [done|]; by intros e ?%elem_of_nil | by intros [-> _]]. }
  rewrite IH, consider_fold_None. split.
  - intros [[-> Hnil] Hrest]. split; [done|].
    intros e [->|He]%elem_of_cons; [done | by apply Hrest].
  - intros [-> H]. split; [split; [done|]; apply H; left|].
    intros e He. apply H. by right.
Qed.

Lemma find_from_min (events : list BuffEvent) (cur : Z) (i : nat)
    (best : option Transition) (tr : Transition) :
  find_from i events cur best = Some tr ->
  (forall b, best = Some b ->
     tr_frame tr <= tr_frame b /\ (tr_frame tr = tr_frame b -> tr = b)) /\
  (forall k e f ty, events !! k = Some e -> (f, ty) ∈ frames_to_check cur e ->
     tr_frame tr <= f /\
     (f = tr_frame tr -> best = Some tr \/ (tr_original tr <= i + k)%nat)).
Proof.
  revert i best. induction events as [|event rest IH]; intros i best H; simpl in H.
  { subst best. split; [by intros b [= <-]|]. intros k e f ty Hk. done. }
  apply IH in H as [Ha Hb].
  destruct (fold_left (consider i event) (frames_to_check cur event) best) as [b'|] eqn:Hfold.
  2: { apply consider_fold_None in Hfold as [-> Hnil]. split; [done|].
       intros [|k] e f ty Hk Hin; simpl in Hk.
       - injection Hk as <-. rewrite Hnil in Hin. by apply elem_of_nil in Hin.
       - destruct (Hb k e f ty Hk Hin) as [Hle Htie]. split; [done|].
         intros Hf. destruct (Htie Hf) as [?|?]; [done | right; lia]. }
  destruct (Ha _ eq_refl) as [Hle' Htie'].
  pose proof (consider_fold_min _ _ _ _ _ Hfold) as [Hc1 Hc2].
  pose proof (consider_fold _ _ _ _ _ Hfold) as Hsrc.
  split.
  - intros b ->. destruct (Hc1 _ eq_refl) as [Hle0 Htie0]. split; [lia|].
    intros Heq. assert (tr = b') as -> by (apply Htie'; lia). apply Htie0. lia.
  - intros [|k] e f ty Hk Hin; simpl in Hk.
    + injection Hk as <-. specialize (Hc2 _ Hin). simpl in Hc2. split; [lia|].
      intros Hf. assert (tr = b') as -> by (apply Htie'; lia).
      destruct Hsrc as [->|(Ho & _)]; [by left | right; lia].
    + destruct (Hb k e f ty Hk Hin) as [Hle Htie]. split; [done|].
      intros Hf. destruct (Htie Hf) as [[= ->]|?]; [|right; lia].
      destruct Hsrc as [->|(Ho & _)]; [by left | right; lia].
Qed.

(** X5.  [findMostRecentAdditionalEvent] returns [null] exactly when no
    interval has a transition left to check.  Otherwise the transition
    it returns belongs to the interval at the index it reports, and no
    transition left to check has an earlier frame; among the transitions
    of that frame it is one of the interval with the lowest index. *)
Theorem next_transition_is_earliest (events : list BuffEvent) (cur : Z) :
  (findMostRecentAdditionalEvent events cur = None <->
   forall e, e ∈ events -> frames_to_check cur e = []) /\
  (forall tr,
     findMostRecentAdditionalEvent events cur = Some tr ->
     events !! tr_original tr = Some (tr_event tr) /\
     (tr_frame tr, tr_type tr) ∈ frames_to_check cur (tr_event tr) /\
     forall k e f ty, events !! k = Some e -> (f, ty) ∈ frames_to_check cur e ->
       tr_frame tr <= f /\ (f = tr_frame tr -> (tr_original tr <= k)%nat)).
Proof.
  split.
  - unfold findMostRecentAdditionalEvent. rewrite find_from_None.
    split; [by intros [_ H] | by intros H].
  - intros tr H. pose proof (findMostRecentAdditionalEvent_spec _ _ _ H) as [H1 H2].
    split; [done|]. split; [done|].
    apply find_from_min in H as [_ H].
    intros k e f ty Hk Hin. destruct (H k e f ty Hk Hin) as [Hle Htie].
    split; [done|]. intros Hf. destruct (Htie Hf) as [?|?]; [done | lia].
Qed.

End NextTransition.

Section Sign.

Import TLEditor.

Lemma interpretSign_plus (s : Settings) :
  interpretSign (Some "+") s =
    if String.eqb (if Js.truthyS (modifier_always_forward s)
                   then default "" (modifier_always_forward s) else "no") "yes" then 1
    else if String.eqb (if Js.truthyS (time_display_format s)
                        then default "" (time_display_format s) else "backward") "backward"
         then -1 else 1.
Proof. reflexivity. Qed.

Lemma interpretSign_minus (s : Settings) :
  interpretSign (Some "-") s =
    if String.eqb (if Js.truthyS (modifier_always_forward s)
                   then default "" (modifier_always_forward s) else "no") "yes" then -1
    else if String.eqb (if Js.truthyS (time_display_format s)
                        then default "" (time_display_format s) else "backward") "backward"
         then 1 else -1.
Proof. reflexivity. Qed.

(** [value || fallback] is [expected] *)
Lemma or_default_eqb (o : option string) (fallback expected : string) :
  expected <> "" ->
  String.eqb (if Js.truthyS o then default "" o else fallback) expected =
    if Js.truthyS o then bool_decide (o = Some expected) else String.eqb fallback expected.
Proof.
  intros Hne. destruct o as [v|]; simpl; [|done].
  destruct (String.eqb_spec v "") as [->|Hv]; simpl; [done|].
  destruct (String.eqb_spec v expected) as [->|Hn].
  - by rewrite bool_decide_eq_true_2.
  - rewrite bool_decide_eq_false_2; [done|]. by intros [= ->].
Qed.

(** X6.  [interpretSign] gives opposite signs to the modifiers [+] and
    [-], each of them 1 or -1, and 0 to every other modifier.  The
    modifier [+] means later in time (1) exactly when
    [modifier_always_forward] is [yes] or the display format is set and
    is not [backward]; with no display format it means earlier. *)
Theorem modifier_sign_flips (s : Settings) :
  interpretSign (Some "-") s = - interpretSign (Some "+") s /\
  (interpretSign (Some "+") s = 1 \/ interpretSign (Some "+") s = -1) /\
  (forall m, m <> Some "+" -> m <> Some "-" -> interpretSign m s = 0) /\
  (interpretSign (Some "+") s = 1 <->
   modifier_always_forward s = Some "yes" \/
   (Js.truthyS (time_display_format s) = true /\ time_display_format s <> Some "backward")).
Proof.
  rewrite interpretSign_plus, interpretSign_minus.
  rewrite !or_default_eqb by done.
  split; [|split; [|split]].
  - repeat match goal with |- context [if ?b then _ else _] => destruct b end; lia.
  - repeat match goal with |- context [if ?b then _ else _] => destruct b end; lia.
  - intros m Hp Hm. unfold interpretSign.
    destruct m as [m|]; [|done].
    destruct m as [|[[] [] [] [] [] [] [] []] [|? ?]]; done.
  - destruct (Js.truthyS (modifier_always_forward s)) eqn:Ha.
    + destruct (decide (modifier_always_forward s = Some "yes")) as [Hy|Hy].
      * rewrite bool_decide_eq_true_2 by done. split; [by left | done].
      * rewrite bool_decide_eq_false_2 by done.
        destruct (Js.truthyS (time_display_format s)) eqn:Ht.
        -- destruct (decide (time_display_format s = Some "backward")) as [Hb|Hb].
           ++ rewrite bool_decide_eq_true_2 by done. split; [lia|]. intros [?|[_ ?]]; done.
           ++ rewrite bool_decide_eq_false_2 by done. split; [by right | done].
        -- simpl. split; [lia|]. intros [?|[? _]]; done.
    + assert (Hy : modifier_always_forward s <> Some "yes")
        by (intros E; by rewrite E in Ha).
      simpl. destruct (Js.truthyS (time_display_format s)) eqn:Ht.
      * destruct (decide (time_display_format s = Some "backward")) as [Hb|Hb].
        -- rewrite bool_decide_eq_true_2 by done. split; [lia|]. intros [?|[_ ?]]; done.
        -- rewrite bool_decide_eq_false_2 by done. split; [by right | done].
      * simpl. split; [lia|]. intros [?|[? _]]; done.
Qed.

End Sign.

Section Rows.

Import TLEditor Invariants.

(** *** What the estimation and the merge loop do to the row *)

Lemma with_row_note_same (row : Row) : with_row_note row (row_note row) = row.
Proof. by destruct row. Qed.

Lemma with_row_note_twice (row : Row) (n1 n2 : option (list string)) :
  with_row_note (with_row_note row n1) n2 = with_row_note row n2.
Proof. reflexivity. Qed.

Lemma calculateFramesFromReference_row (row : Row) (m : gmap string LabelEntry)
    (s : Settings) :
  exists note, snd (calculateFramesFromReference row m s) = with_row_note row note.
Proof.
  unfold calculateFramesFromReference.
  destruct (m !! _) as [entry|]; [|by eexists].
  destruct (_ && _); [exists (row_note row); by rewrite with_row_note_same|].
  destruct (Js.truthyZ _); [exists (row_note row); by rewrite with_row_note_same|].
  destruct (Js.truthyQ (le_time entry)); [exists (row_note row); by rewrite with_row_note_same|].
  by eexists.
Qed.

Lemma estimateFrameFromRow_row (p : Processor) (row row1 : Row) (f : Z) :
  estimateFrameFromRow p row = Ok (f, row1) -> exists note, row1 = with_row_note row note.
Proof.
  unfold estimateFrameFromRow.
  destruct (Js.truthyZ _);
    [intros [= _ <-]; exists (row_note row); by rewrite with_row_note_same|].
  destruct (Js.truthyQ (row_time row));
    [intros [= _ <-]; exists (row_note row); by rewrite with_row_note_same|].
  destruct (Js.truthyS _).
  { intros [= E]. destruct (calculateFramesFromReference_row row (label_map p) (settings p))
      as [note Hn]. exists note. rewrite <- Hn. by rewrite E. }
  destruct (Js.truthyQ (cost_timing row)); [|discriminate].
  unfold calculateFramesFromCostTiming.
  destruct (Js.leQ _ _); simpl.
  - destruct (explicit_cost_timing row); intros [= _ <-]; [by eexists|].
    exists (row_note row); by rewrite with_row_note_same.
  - destruct (Js.leQ _ _); simpl; [discriminate|].
    intros [= _ <-]. exists (row_note row); by rewrite with_row_note_same.
Qed.

Lemma resolve_loop_row (fuel n : nat) (p p' : Processor) (row row' : Row)
    (index : nat) (f : Z) (n' : nat) :
  resolve_loop fuel n p row index = Ok (f, n', p', row') ->
  (exists note, row' = with_row_note row note) /\ label_map p' = label_map p.
Proof.
  revert n p row. induction fuel as [|fuel IH]; intros n p row; simpl; [discriminate|].
  destruct (estimateFrameFromRow p row) as [[est row1]|e] eqn:Hest; simpl; [|discriminate].
  apply estimateFrameFromRow_row in Hest as [note ->].
  destruct (findMostRecentAdditionalEvent _ _) as [tr|];
    [|intros [= <- <- <- <-]; split; [by eexists | done]].
  destruct (tr_frame tr <=? est); [|intros [= <- <- <- <-]; split; [by eexists | done]].
  destruct (addEventToTimeline p _) as [p1|e] eqn:Hadd; simpl; [|discriminate].
  intros [[note' ->] Hl]%IH.
  apply addEventToTimeline_Ok in Hadd as (rate & _ & _ & _ & _ & _ & _ & _ & _ & Hlm).
  split; [by eexists | congruence].
Qed.

End Rows.

Section Labels.

Import TLEditor Invariants.

Lemma truthyS_Some (s : string) : s <> "" -> Js.truthyS (Some s) = true.
Proof. intros H. simpl. by destruct (String.eqb_spec s ""). Qed.

(** X7.  A row anchored by a reference to a label that the label map
    does not hold is not an error.  Once the battle has begun (the
    current frame is positive) the row is committed at the current
    frame, and the row, the processed event and the log entry carry the
    row's notes followed by the note that the label does not exist and
    the note of a row earlier than the action before it.  The only
    possible failure is that of the rate recomputation (too many
    buffs). *)
Theorem reference_to_missing_label (p : Processor) (row : Row) (index : nat)
    (ref_label : string) :
  anchor_of row = ReferenceAnchor ref_label ->
  label_map p !! ref_label = None ->
  0 < current_frame (state p) ->
  let notes := default [] (row_note row) ++
               [ref_label +:+ "というラベルは存在しません"; REORDERED_NOTE] in
  (forall p' row' ev,
     resolveRowTiming p row index = Ok (p', row', ev) ->
     ie_frame ev = current_frame (state p) /\ ie_note ev = Some notes /\
     row_frame row' = Some (current_frame (state p)) /\ row_note row' = Some notes /\
     exists committed,
       timeline p' = timeline p ++ [committed] /\
       te_frame committed = current_frame (state p) /\ te_note committed = notes) /\
  (forall e, resolveRowTiming p row index = Err e ->
             exists n, e = RowError (index + 1) (TooManyBuffs n)).
Proof.
  intros Ha Hl Hcur notes.
  pose proof (reference_anchor_never_fails p row ref_label Ha) as Hest.
  apply anchor_of_reference in Ha as (_ & _ & _ & Href).
  set (row1 := with_row_note row
                 (push_note (row_note row) (ref_label +:+ "というラベルは存在しません"))).
  assert (Hcalc : calculateFramesFromReference row (label_map p) (settings p) = (0, row1)).
  { unfold calculateFramesFromReference. rewrite Href. simpl. by rewrite Hl. }
  rewrite Hcalc in Hest.
  assert (Hloop : resolve_loop LOOP_LIMIT 0 p row index = Ok (0, 1%nat, p, row1)).
  { unfold LOOP_LIMIT. simpl. rewrite Hest. simpl.
    destruct (findMostRecentAdditionalEvent _ _) as [tr|] eqn:Hfind; [|done].
    apply transition_frame in Hfind as [Hle _].
    destruct (Z.leb_spec (tr_frame tr) 0); [lia | done]. }
  assert (Hb : (0 <? current_frame (state p)) = true) by (by apply Z.ltb_lt).
  assert (Hev : processed_event_of p row1 0 =
                {| ie_frame := current_frame (state p);
                   ie_cost_used := row_cost_used row;
                   ie_event_name := row_event_name row;
                   ie_note := Some notes;
                   ie_remaining_students := None |}).
  { unfold processed_event_of. rewrite Hb. unfold notes, row1, push_note. simpl.
    by rewrite <- app_assoc. }
  unfold resolveRowTiming. rewrite Hloop. simpl. split.
  - intros p' row' ev.
    destruct (commit_row p row1 0) as [[[p2 row2] ev2]|e] eqn:Hc; simpl; [|discriminate].
    intros [= <- <- <-].
    apply commit_row_Ok in Hc as (-> & -> & Hadd). rewrite Hev in *. simpl in Hadd.
    split; [done|]. split; [done|].
    split; [unfold written_row; rewrite Hev; reflexivity|].
    split; [unfold written_row; rewrite Hev, Hb; reflexivity|].
    apply addEventToTimeline_Ok in Hadd as (rate & _ & _ & Htl & _).
    match type of Htl with context [detectAndProcessBuff ?q ?n ?f] =>
      destruct (detectAndProcessBuff_state q n f) as (_ & Ht & _) end.
    rewrite Ht in Htl.
    match type of Htl with context [publish_label ?q ?r ?f] =>
      destruct (publish_label_state q r f) as (_ & Ht' & _) end.
    rewrite Ht' in Htl. eexists. split; [exact Htl|]. done.
  - intros e. destruct (commit_row p row1 0) as [r|e'] eqn:Hc; simpl; [discriminate|].
    intros [= <-]. apply commit_row_Err in Hc as [n ->]. eauto.
Qed.

End Labels.

Section LabelRoundTrip.

Import TLEditor Invariants Utilities.

Lemma detectAndProcessBuff_label_map (p : Processor) (name : string) (f : Z) :
  label_map (detectAndProcessBuff p name f) = label_map p.
Proof. unfold detectAndProcessBuff. by destruct (detectCostRecoveryBuff name (buff_data p)). Qed.

Lemma resolveRowTiming_Ok (p p' : Processor) (row row' : Row) (index : nat)
    (ev : InputEvent) :
  resolveRowTiming p row index = Ok (p', row', ev) ->
  exists f n p1 row1,
    resolve_loop LOOP_LIMIT 0 p row index = Ok (f, n, p1, row1) /\
    commit_row p1 row1 f = Ok (p', row', ev).
Proof.
  unfold resolveRowTiming.
  destruct (resolve_loop LOOP_LIMIT 0 p row index) as [[[[f n] p1] row1]|e] eqn:Hloop;
    simpl; [|discriminate].
  destruct (commit_row p1 row1 f) as [[[p2 row2] ev2]|e] eqn:Hc; simpl; [|discriminate].
  intros [= <- <- <-]. by exists f, n, p1, row1.
Qed.

(** X8.  When a row with a label that is not blank is resolved once the
    battle has begun (the current frame is positive), the label map
    holds for the trimmed label the frame of the commit and its time in
    seconds, and every other label is as before.  A row that
    refers to that label afterwards is estimated at that frame plus the
    signed frames of its modifier amount, without a note. *)
Theorem label_resolves_to_committed_frame (p p' : Processor) (row row' : Row)
    (index : nat) (ev : InputEvent) (lbl : string) :
  resolveRowTiming p row index = Ok (p', row', ev) ->
  label row = Some lbl -> Js.trim lbl <> "" ->
  0 < current_frame (state p) ->
  label_map p' !! Js.trim lbl =
    Some {| le_time := Some (framesToSeconds (ie_frame ev));
            le_frame := Some (ie_frame ev) |} /\
  (forall other, other <> Js.trim lbl -> label_map p' !! other = label_map p !! other) /\
  (forall row2,
     reference row2 = Some (Js.trim lbl) ->
     calculateFramesFromReference row2 (label_map p') (settings p') =
       (ie_frame ev +
        interpretSign (modifier row2) (settings p') *
        secondsToFrames (if Js.truthyQ (modified_amount row2)
                         then modified_amount row2 else Some 0%Q),
        row2)).
Proof.
  intros Hres Hlbl Htrim Hcur.
  apply resolveRowTiming_Ok in Hres as (f & n & p1 & row1 & Hloop & Hc).
  pose proof (resolve_loop_later _ _ _ _ _ _ _ _ _ Hloop) as Hl1.
  apply resolve_loop_row in Hloop as [[note ->] Hlm1].
  apply commit_row_Ok in Hc as (Hev & _ & Hadd).
  apply addEventToTimeline_Ok in Hadd as (rate & _ & _ & _ & _ & _ & _ & _ & _ & Hlm).
  rewrite detectAndProcessBuff_label_map in Hlm.
  assert (Hne : lbl <> "") by (intros ->; by apply Htrim).
  assert (Hpub : label_map p' =
                 <[ Js.trim lbl := {| le_time := Some (framesToSeconds (ie_frame ev));
                                      le_frame := Some (ie_frame ev) |} ]> (label_map p)).
  { rewrite Hlm. unfold publish_label. cbn [label with_row_note]. rewrite Hlbl.
    rewrite (truthyS_Some _ Hne). cbn [default from_option id].
    destruct (String.eqb_spec (Js.trim lbl) "") as [?|_]; [done|].
    simpl. by rewrite Hlm1. }
  assert (Hframe : 0 < ie_frame ev).
  { rewrite Hev, processed_event_frame. pose proof (later_frame _ _ Hl1). lia. }
  split; [by rewrite Hpub, lookup_insert_eq|].
  split; [intros other Ho; by rewrite Hpub, lookup_insert_ne|].
  intros row2 Href. unfold calculateFramesFromReference.
  rewrite Href. cbn [default from_option id]. rewrite Hpub, lookup_insert_eq.
  cbn [le_frame le_time default from_option id].
  assert (Ht : Js.truthyZ (Some (ie_frame ev)) = true).
  { simpl. destruct (Z.eqb_spec (ie_frame ev) 0); [lia | done]. }
  rewrite Ht.
  destruct (Js.truthyS (modifier row2)) eqn:Hm; simpl.
  - done.
  - destruct (Js.truthyQ (modified_amount row2)) eqn:Hq; simpl; [done|].
    f_equal.
    assert (Hs : interpretSign (modifier row2) (settings p') = 0).
    { destruct (modifier row2) as [[|c m]|]; [done | discriminate | done]. }
    rewrite Hs. lia.
Qed.

End LabelRoundTrip.


Section InitialLabels.

Import TLEditor Invariants Utilities.

(** One step of the loop of [InitializeLabelMap]. *)
Lemma InitializeLabelMap_snoc (rows : list Row) (row : Row) :
  InitializeLabelMap (rows ++ [row]) =
    if Js.truthyS (label row) && negb (String.eqb (Js.trim (default "" (label row))) "")
    then <[ Js.trim (default "" (label row)) :=
            {| le_time := row_time row;
               le_frame := (fun t => secondsToFrames (Some t)) <$> row_time row |} ]>
           (InitializeLabelMap rows)
    else InitializeLabelMap rows.
Proof.
  unfold InitializeLabelMap. rewrite fold_left_app. simpl.
  destruct (_ && _); [|done]. by destruct (row_time row).
Qed.

Lemma carries_label_step (row : Row) (l : string) :
  carries_label row l <->
  Js.truthyS (label row) && negb (String.eqb (Js.trim (default "" (label row))) "") = true /\
  Js.trim (default "" (label row)) = l.
Proof.
  unfold carries_label. split.
  - intros (lbl & Hl & Ht & Hne). rewrite Hl. simpl. rewrite Ht.
    split; [|done]. destruct (String.eqb_spec l "") as [?|_]; [done|].
    destruct (String.eqb_spec lbl "") as [->|_]; [|done].
    by destruct Hne.
  - intros [Hc Ht]. destruct (label row) as [lbl|]; [|done]. simpl in *.
    exists lbl. split; [done|]. split; [done|].
    rewrite Ht in Hc. destruct (String.eqb_spec l "") as [->|?]; [|done].
    by rewrite andb_false_r in Hc.
Qed.

Lemma carries_label_dec (row : Row) (l : string) :
  carries_label row l \/ ~ carries_label row l.
Proof.
  rewrite carries_label_step.
  destruct (_ && _); [|right; by intros [? _]].
  destruct (decide (Js.trim (default "" (label row)) = l)); [by left | right; by intros [_ ?]].
Qed.

Lemma InitializeLabelMap_lookup_snoc (rows : list Row) (row : Row) (l : string) :
  (carries_label row l ->
   InitializeLabelMap (rows ++ [row]) !! l =
     Some {| le_time := row_time row;
             le_frame := (fun t => secondsToFrames (Some t)) <$> row_time row |}) /\
  (~ carries_label row l ->
   InitializeLabelMap (rows ++ [row]) !! l = InitializeLabelMap rows !! l).
Proof.
  rewrite InitializeLabelMap_snoc, carries_label_step. split.
  - intros [-> <-]. by rewrite lookup_insert_eq.
  - intros Hn. destruct (_ && _) eqn:E; [|done].
    rewrite lookup_insert_ne; [done|]. intros Heq. by apply Hn.
Qed.

(** X10.  [InitializeLabelMap] holds nothing for a label that no row
    carries, and for a label that rows carry the time of the last of
    them, with the frame of that time, or neither when that row has no
    time.  A row carries the label that is its [label] trimmed, if that
    is not empty. *)
Theorem initial_label_map_lookup (rows : list Row) (l : string) :
  (InitializeLabelMap rows !! l = None <->
   forall row, row ∈ rows -> ~ carries_label row l) /\
  (forall rows1 row rows2,
     rows = rows1 ++ row :: rows2 ->
     carries_label row l ->
     (forall later_row, later_row ∈ rows2 -> ~ carries_label later_row l) ->
     InitializeLabelMap rows !! l =
       Some {| le_time := row_time row;
               le_frame := (fun t => secondsToFrames (Some t)) <$> row_time row |}).
Proof.
  split.
  - induction rows as [|row rows IH] using rev_ind.
    { split; [by intros _ row ?%elem_of_nil | done]. }
    destruct (InitializeLabelMap_lookup_snoc rows row l) as [Hc Hn]. split.
    + intros Hnone r [Hr|Hr]%elem_of_app.
      * apply IH; [|done]. destruct (carries_label_dec row l) as [Hy|Hno].
        -- rewrite (Hc Hy) in Hnone. discriminate.
        -- by rewrite (Hn Hno) in Hnone.
      * apply list_elem_of_singleton in Hr as ->. intros Hy.
        rewrite (Hc Hy) in Hnone. discriminate.
    + intros Hall. rewrite Hn by (apply Hall, elem_of_app; right; left).
      apply IH. intros r Hr. apply Hall, elem_of_app. by left.
  - intros rows1 row rows2 -> Hc Hrest.
    induction rows2 as [|row2 rows2 IH] using rev_ind.
    { by apply InitializeLabelMap_lookup_snoc. }
    replace (rows1 ++ row :: rows2 ++ [row2]) with ((rows1 ++ row :: rows2) ++ [row2])
      by (by rewrite <- app_assoc).
    destruct (InitializeLabelMap_lookup_snoc (rows1 ++ row :: rows2) row2 l) as [_ Hn].
    rewrite Hn by (apply Hrest, elem_of_app; right; left).
    apply IH. intros r Hr. apply Hrest, elem_of_app. by left.
Qed.

End InitialLabels.

Section DuplicateCheck.

Import TLEditor Invariants.

Lemma lookup_map {A B} (g : A -> B) (l : list A) (i : nat) :
  List.map g l !! i = g <$> l !! i.
Proof. revert i. induction l as [|x l IH]; intros [|i]; simpl; auto. Qed.

Lemma is_duplicate_truncated (target : string) (f : Z) (b : BuffEvent) :
  is_duplicate target f (set_end_frame b f) = false.
Proof.
  unfold is_duplicate. simpl. rewrite Z.ltb_irrefl. by rewrite andb_false_r.
Qed.

(** X11.  [checkAndUpdateDuplicateBuffs] keeps every interval in its
    place.  An interval with the target given, active and ending after
    the new start frame is cut: its end becomes the new start frame and
    its duration becomes that of the new length, [(f - start_frame) / 30
    * 1000] milliseconds ([set_end_frame], the two assignments of the
    source); nothing else of it changes.  Every other
    interval is left exactly as it is.  The check reports a duplicate
    exactly when it has cut an interval, and a second check with the
    same target and frame cuts nothing and reports none. *)
Theorem duplicate_check_idempotent (events : list BuffEvent) (target : option string)
    (f : Z) :
  let events1 := fst (checkAndUpdateDuplicateBuffs events target f) in
  let found := snd (checkAndUpdateDuplicateBuffs events target f) in
  length events1 = length events /\
  checkAndUpdateDuplicateBuffs events1 target f = (events1, false) /\
  (found = false <-> events1 = events) /\
  (forall i b, events !! i = Some b ->
     (events1 !! i = Some b /\
      ~ (Js.truthyS target = true /\ buff_target b = target /\
         active b = true /\ f < end_frame b)) \/
     (events1 !! i = Some (set_end_frame b f) /\
      Js.truthyS target = true /\ buff_target b = target /\
      active b = true /\ f < end_frame b)) /\
  (forall b,
     start_frame (set_end_frame b f) = start_frame b /\
     end_frame (set_end_frame b f) = f /\
     event_name (set_end_frame b f) = event_name b /\
     buff_target (set_end_frame b f) = buff_target b /\
     buff_amount (set_end_frame b f) = buff_amount b /\
     active (set_end_frame b f) = active b /\
     duration (set_end_frame b f) = (inject_Z (f - start_frame b) / 30 * 1000)%Q).
Proof.
  unfold checkAndUpdateDuplicateBuffs.
  destruct (Js.truthyS target) eqn:Ht; simpl.
  { split; [by rewrite length_map|]. split; [|split; [|split]].
    - f_equal.
      + rewrite map_map. apply map_ext. intros b.
        destruct (is_duplicate _ f b) eqn:E.
        * by rewrite is_duplicate_truncated.
        * by rewrite E.
      + induction events as [|b rest IH]; [done|]. simpl. rewrite IH, orb_false_r.
        destruct (is_duplicate _ f b) eqn:E; [apply is_duplicate_truncated | done].
    - induction events as [|b rest IH]; [done|]. simpl. split.
      + intros [Hb Hr]%orb_false_elim. rewrite Hb. f_equal. by apply IH.
      + intros [= Hb Hr]. apply orb_false_intro; [|by apply IH].
        destruct (is_duplicate _ f b) eqn:E; [|done].
        apply (f_equal end_frame) in Hb. simpl in Hb.
        unfold is_duplicate in E. apply andb_prop in E as [_ E]. apply Z.ltb_lt in E. lia.
    - intros i b Hi. rewrite lookup_map, Hi. simpl.
      destruct target as [t|]; [|discriminate]. simpl.
      destruct (is_duplicate t f b) eqn:E.
      + right. apply is_duplicate_spec in E as (-> & ? & ?). done.
      + left. split; [done|]. intros (_ & Hb & Ha & Hlt).
        assert (is_duplicate t f b = true); [|congruence].
        by apply is_duplicate_spec.
    - done. }
  split; [done|]. split; [done|]. split; [done|]. split; [|done].
  intros i b Hi. left. split; [done|]. by intros [? _].
Qed.

End DuplicateCheck.

Section Detection.

Import TLEditor Invariants.

Lemma detect_in_Some (name : string) (cfg : BuffConfig) (patterns : list Pattern)
    (info : BuffConfig) :
  detect_in name cfg patterns = Some info <->
  info = buff_info_of cfg /\
  (exists pattern, pattern ∈ patterns /\ pattern_matches name pattern = true) /\
  existsb (pattern_matches name) (default [] (exclusion_patterns cfg)) = false.
Proof.
  induction patterns as [|pattern rest IH]; simpl.
  { split; [discriminate | intros (_ & (x & Hx%elem_of_nil & _) & _); done]. }
  destruct (pattern_matches name pattern) eqn:Hm.
  - destruct (existsb _ _) eqn:Hex.
    + rewrite IH. split; [intros (_ & _ & ?); done | intros (_ & _ & ?); done].
    + split.
      * intros [= <-]. split; [done|]. split; [|done]. exists pattern. split; [left | done].
      * by intros (-> & _ & _).
  - rewrite IH. split.
    + intros (? & (x & Hx & Hxm) & ?). split; [done|]. split; [|done].
      exists x. split; [by right | done].
    + intros (? & (x & [->|Hx]%elem_of_cons & Hxm) & ?); [congruence|].
      split; [done|]. split; [|done]. by exists x.
Qed.

Lemma detect_in_None (name : string) (cfg : BuffConfig) (patterns : list Pattern) :
  detect_in name cfg patterns = None <->
  (forall pattern, pattern ∈ patterns -> pattern_matches name pattern = false) \/
  existsb (pattern_matches name) (default [] (exclusion_patterns cfg)) = true.
Proof.
  destruct (detect_in name cfg patterns) as [info|] eqn:E.
  - apply detect_in_Some in E as (_ & (x & Hx & Hm) & Hex). split; [discriminate|].
    intros [H|H]; [rewrite (H x Hx) in Hm | rewrite H in Hex]; discriminate.
  - split; [intros _ | done].
    destruct (existsb _ (default [] (exclusion_patterns cfg))) eqn:Hex; [by right | left].
    intros x Hx. destruct (pattern_matches name x) eqn:Hm; [|done].
    assert (detect_in name cfg patterns = Some (buff_info_of cfg)) as Hs
      by (apply detect_in_Some; eauto).
    congruence.
Qed.

(** X12.  [detectCostRecoveryBuff] returns [null] without a catalog.  With
    one it returns the data of the first entry, in the order of the
    catalog, of which a detection pattern matches the name and no
    exclusion pattern does; it returns [null] exactly when every entry
    has no matching detection pattern or a matching exclusion pattern. *)
Theorem detected_buff_is_first_match (name : string) (data : BuffData) :
  detectCostRecoveryBuff name None = None /\
  (forall info,
     detectCostRecoveryBuff name (Some data) = Some info <->
     exists before key cfg after,
       data = before ++ (key, cfg) :: after /\
       info = buff_info_of cfg /\
       (exists pattern, pattern ∈ detection_patterns cfg /\
                        pattern_matches name pattern = true) /\
       (forall pattern, pattern ∈ default [] (exclusion_patterns cfg) ->
                        pattern_matches name pattern = false) /\
       (forall entry, entry ∈ before ->
          detect_in name (snd entry) (detection_patterns (snd entry)) = None)) /\
  (detectCostRecoveryBuff name (Some data) = None <->
   forall entry, entry ∈ data ->
     (forall pattern, pattern ∈ detection_patterns (snd entry) ->
                      pattern_matches name pattern = false) \/
     (exists pattern, pattern ∈ default [] (exclusion_patterns (snd entry)) /\
                      pattern_matches name pattern = true)).
Proof.
  split; [done|]. simpl. split.
  - intros info. induction data as [|[key cfg] rest IH]; simpl.
    { split; [discriminate|]. intros (before & k & c & after & H & _). by destruct before. }
    destruct (detect_in name cfg (detection_patterns cfg)) as [i|] eqn:E.
    + split.
      * intros [= ->]. apply detect_in_Some in E as (-> & Hp & Hex).
        exists [], key, cfg, rest. split; [done|]. split; [done|]. split; [done|].
        split; [|by intros e ?%elem_of_nil].
        intros x Hx. destruct (pattern_matches name x) eqn:Hm; [|done].
        assert (existsb (pattern_matches name) (default [] (exclusion_patterns cfg)) = true)
          by (apply existsb_exists; exists x; split; [by apply list_elem_of_In | done]).
        congruence.
      * intros (before & k & c & after & Hd & -> & Hp & Hex & Hb).
        destruct before as [|e before]; simpl in Hd.
        -- injection Hd as <- <- <-. apply detect_in_Some in E as (-> & _). done.
        -- injection Hd as <- ->. specialize (Hb (key, cfg) ltac:(left)). simpl in Hb.
           congruence.
    + rewrite IH. split.
      * intros (before & k & c & after & -> & -> & Hp & Hex & Hb).
        exists ((key, cfg) :: before), k, c, after. split; [done|]. split; [done|].
        split; [done|]. split; [done|].
        intros e [->|He]%elem_of_cons; [done | by apply Hb].
      * intros (before & k & c & after & Hd & -> & Hp & Hex & Hb).
        destruct before as [|e before]; simpl in Hd.
        -- injection Hd as <- <- <-.
           assert (detect_in name cfg (detection_patterns cfg) = Some (buff_info_of cfg)) as Hs.
           { apply detect_in_Some. split; [done|]. split; [done|].
             destruct (existsb _ _) eqn:Hx; [|done].
             apply existsb_exists in Hx as (x & Hx%list_elem_of_In & Hm).
             rewrite (Hex x Hx) in Hm. discriminate. }
           congruence.
        -- injection Hd as <- ->. exists before, k, c, after.
           split; [done|]. split; [done|]. split; [done|]. split; [done|].
           intros e' He'. apply Hb. by right.
  - induction data as [|[key cfg] rest IH]; simpl.
    { split; [by intros _ e ?%elem_of_nil | done]. }
    destruct (detect_in name cfg (detection_patterns cfg)) as [i|] eqn:E.
    + split; [discriminate|]. intros H. specialize (H (key, cfg) ltac:(left)). simpl in H.
      apply detect_in_Some in E as (_ & (x & Hx & Hm) & Hex).
      destruct H as [H|(y & Hy & Hym)]; [rewrite (H x Hx) in Hm; discriminate|].
      assert (existsb (pattern_matches name) (default [] (exclusion_patterns cfg)) = true)
        by (apply existsb_exists; exists y; split; [by apply list_elem_of_In | done]).
      congruence.
    + rewrite IH. split.
      * intros H e [->|He]%elem_of_cons; [|by apply H]. simpl.
        apply detect_in_None in E as [E|E]; [by left | right].
        apply existsb_exists in E as (x & Hx%list_elem_of_In & Hm). eauto.
      * intros H e He. apply H. by right.
Qed.

End Detection.

Section Cap.

Import TLEditor Invariants.

Lemma accrue_capped (p : Processor) (f : Z) :
  (remaining_cost_points (state p) <= max_cost_points p)%Q ->
  (fst (accrue p f) <= max_cost_points p)%Q /\
  forall o, snd (accrue p f) = Some o -> (0 <= o)%Q.
Proof.
  intros Hrem. unfold accrue. destruct (current_frame (state p) <? f); [|done].
  match goal with |- context [Js.gtQ ?a ?b] => pose proof (gtQ_spec a b) as Hg end.
  destruct (Js.gtQ _ _); simpl.
  - split; [lra|]. intros o [= <-]. apply Qle_shift_div_l; [reflexivity | lra].
  - split; [done|]. intros o [= <-]. lra.
Qed.

Lemma addEventToTimeline_capped (p p' : Processor) (input : TimelineInput) :
  (0 <= formatted_cost_used input)%Q ->
  addEventToTimeline p input = Ok p' -> capped p -> capped p'.
Proof.
  intros Hcost Hok [Hrem Hlog].
  apply addEventToTimeline_Ok in Hok as (rate & _ & Hst & Htl & _ & _ & _ & _ & Hm & _).
  destruct (accrue_capped p (target_frame_of input) Hrem) as [Hacc Hov].
  assert (Hpay : (pay input (fst (accrue p (target_frame_of input))) <= max_cost_points p)%Q).
  { rewrite pay_eq. assert (0 <= formatted_cost_used input * COST_POINT_UNIT)%Q
      by (apply Qmult_le_0_compat; [done | discriminate]). lra. }
  split; rewrite Hm.
  - by rewrite Hst.
  - rewrite Htl. intros e [He|He]%elem_of_app; [by apply Hlog|].
    apply list_elem_of_singleton in He as ->. simpl. split; [done | exact Hov].
Qed.

Lemma capped_same (p p' : Processor) :
  state p' = state p -> timeline p' = timeline p -> max_cost_points p' = max_cost_points p ->
  capped p -> capped p'.
Proof. unfold capped. by intros -> -> ->. Qed.

Lemma processSpecialCommand_fields (p p' : Processor) (row row' : Row) :
  processSpecialCommand p row = Ok (p', row') ->
  state p' = state p /\ timeline p' = timeline p /\
  max_cost_points p' = max_cost_points p /\ label_map p' = label_map p /\
  settings p' = settings p /\
  row' = with_is_special_command row (is_special_command row').
Proof.
  unfold processSpecialCommand.
  repeat match goal with
         | |- context [if ?b then _ else _] => destruct b
         | |- context [match ?o with Some _ => _ | None => _ end] => destruct o
         end;
    try discriminate; intros [= <- <-]; done.
Qed.

Lemma resolve_loop_capped (fuel n : nat) (p p' : Processor) (row row' : Row)
    (index : nat) (f : Z) (n' : nat) :
  resolve_loop fuel n p row index = Ok (f, n', p', row') -> capped p -> capped p'.
Proof.
  revert n p row. induction fuel as [|fuel IH]; intros n p row; simpl; [discriminate|].
  destruct (estimateFrameFromRow p row) as [[est row1]|e]; simpl; [|discriminate].
  destruct (findMostRecentAdditionalEvent _ _) as [tr|]; [|by intros [= <- <- <- <-]].
  destruct (tr_frame tr <=? est); [|by intros [= <- <- <- <-]].
  destruct (addEventToTimeline p _) as [p1|e] eqn:Hadd; simpl; [|discriminate].
  intros H Hc. apply (IH _ _ _ H). by apply (addEventToTimeline_capped _ _ _) with (2 := Hadd).
Qed.

Lemma commit_row_capped (p p' : Processor) (row row' : Row) (f : Z) (ev : InputEvent) :
  (0 <= row_cost_used row)%Q ->
  commit_row p row f = Ok (p', row', ev) -> capped p -> capped p'.
Proof.
  intros Hcost (Hev & _ & Hadd)%commit_row_Ok Hc.
  apply (addEventToTimeline_capped _ _ _) with (2 := Hadd); [by rewrite Hev|].
  match goal with |- capped (detectAndProcessBuff ?q ?n ?g) =>
    destruct (detectAndProcessBuff_state q n g) as (H1 & H2 & _ & H3) end.
  eapply capped_same; [exact H1 | exact H2 | exact H3 |].
  unfold publish_label. by destruct (_ && _).
Qed.

Lemma resolveRowTiming_capped (p p' : Processor) (row row' : Row) (index : nat)
    (ev : InputEvent) :
  (0 <= row_cost_used row)%Q ->
  resolveRowTiming p row index = Ok (p', row', ev) -> capped p -> capped p'.
Proof.
  intros Hcost (f & n & p1 & row1 & Hloop & Hc)%resolveRowTiming_Ok Hcap.
  pose proof (resolve_loop_capped _ _ _ _ _ _ _ _ _ Hloop Hcap) as Hcap1.
  apply resolve_loop_row in Hloop as [[note ->] _].
  by apply (commit_row_capped p1 p' (with_row_note row note) row' f ev).
Qed.

Lemma process_rows_capped (rows rows' : list Row) (i : nat) (p p' : Processor) :
  (forall row, row ∈ rows -> (0 <= row_cost_used row)%Q) ->
  process_rows i rows p = Ok (p', rows') -> capped p -> capped p'.
Proof.
  revert i p rows'. induction rows as [|row rest IH]; intros i p rows' Hcost; simpl.
  { by intros [= <- <-]. }
  destruct (processSpecialCommand p row) as [[p1 row1]|e] eqn:Hsp; simpl; [|discriminate].
  apply processSpecialCommand_fields in Hsp as (Hs & Ht & Hm & _ & _ & Hrow).
  assert (Hrest : forall r, r ∈ rest -> (0 <= row_cost_used r)%Q)
    by (intros r Hr; apply Hcost; by right).
  assert (Hc1 : (0 <= row_cost_used row1)%Q)
    by (rewrite Hrow; simpl; apply Hcost; left).
  destruct (is_special_command row1).
  - destruct (process_rows (S i) rest p1) as [[p2 rest']|e] eqn:Hr; simpl; [|discriminate].
    intros [= <- <-] Hcap. apply (IH _ _ _ Hrest Hr). by eapply capped_same.
  - destruct (resolveRowTiming p1 row1 i) as [[[p2 row2] ev]|e] eqn:Hres; simpl; [|discriminate].
    destruct (process_rows (S i) rest p2) as [[p3 rest']|e] eqn:Hr; simpl; [|discriminate].
    intros [= <- <-] Hcap. apply (IH _ _ _ Hrest Hr).
    apply (resolveRowTiming_capped _ _ _ _ _ _ Hc1 Hres). by eapply capped_same.
Qed.

Lemma constructor_capped (rows : list Row) (s : Settings) (bd w : option BuffData)
    (p0 : Processor) :
  (forall c, max_cost s = Some c -> (0 <= c)%Q) ->
  constructor rows s bd w = Ok p0 -> capped p0.
Proof.
  intros Hmax Hc.
  destruct (constructor_Ok rows s bd w) as (p1 & p2 & H1 & H2 & Hc').
  rewrite Hc in Hc'. injection Hc' as ->.
  assert (Hinit : capped (initial rows s bd w)).
  { split; [|by intros e ?%elem_of_nil]. simpl.
    apply Qmult_le_0_compat; [|discriminate].
    destruct (max_cost s) as [c|] eqn:E; simpl; [|discriminate].
    destruct (negb (Qeq_bool c 0)); [by apply Hmax | discriminate]. }
  assert (Hcap2 : capped p2).
  { apply (addEventToTimeline_capped _ _ _) with (2 := H2); [discriminate|].
    apply (addEventToTimeline_capped _ _ _) with (2 := H1); [discriminate | done]. }
  unfold addCherinoSS, addKanoeSS.
  match goal with |- capped (addSS ?k ?l ?q) =>
    destruct (addSS_fields k l q) as (E1 & E2 & E3 & _) end.
  eapply capped_same; [exact E1 | exact E2 | exact E3 |].
  match goal with |- capped (addSS ?k ?l ?q) =>
    destruct (addSS_fields k l q) as (E4 & E5 & E6 & _) end.
  by eapply capped_same.
Qed.

(** X13.  In a conversion that completes, with a cost cap that is not
    negative and no row of negative cost, the points never exceed the
    cap: neither the points left at the end nor those recorded in any
    entry of the log, and no entry records a negative overflow. *)
Theorem cost_never_exceeds_cap (rows rows' : list Row) (s : Settings)
    (bd w : option BuffData) (p : Processor) :
  (forall c, max_cost s = Some c -> (0 <= c)%Q) ->
  (forall row, row ∈ rows -> (0 <= row_cost_used row)%Q) ->
  convert rows s bd w = Ok (p, rows') ->
  (remaining_cost_points (state p) <= max_cost_points p)%Q /\
  forall e, e ∈ timeline p ->
    (te_remaining_cost_points e <= max_cost_points p)%Q /\
    forall o, overflow_cost e = Some o -> (0 <= o)%Q.
Proof.
  intros Hmax Hcost. unfold convert.
  destruct (constructor rows s bd w) as [p0|e] eqn:Hc; simpl; [|discriminate].
  unfold createTimelineJSON.
  destruct (process_rows 0 rows p0) as [[p1 rows1]|e] eqn:Hp; simpl; [|discriminate].
  intros [= <- <-].
  apply (process_rows_capped _ _ _ _ _ Hcost Hp). by eapply constructor_capped.
Qed.

End Cap.

Section WriteBack.

Import TLEditor Invariants Utilities.

Lemma estimateFrameFromRow_note (p : Processor) (row row1 : Row) (f : Z) :
  estimateFrameFromRow p row = Ok (f, row1) ->
  is_Some (row_note row) -> is_Some (row_note row1).
Proof.
  unfold estimateFrameFromRow.
  destruct (Js.truthyZ _); [by intros [= _ <-]|].
  destruct (Js.truthyQ (row_time row)); [by intros [= _ <-]|].
  destruct (Js.truthyS _).
  { intros [= E] Hs. unfold calculateFramesFromReference in E.
    destruct (label_map p !! _) as [entry|]; [|by injection E as _ <-].
    destruct (_ && _); [by injection E as _ <-|].
    destruct (Js.truthyZ _); [by injection E as _ <-|].
    destruct (Js.truthyQ (le_time entry)); [by injection E as _ <-|].
    injection E as _ <-. simpl. by destruct (_ && _). }
  destruct (Js.truthyQ (cost_timing row)); [|discriminate].
  unfold calculateFramesFromCostTiming.
  destruct (Js.leQ _ _); simpl.
  - destruct (explicit_cost_timing row); by intros [= _ <-].
  - destruct (Js.leQ _ _); simpl; [discriminate|]. by intros [= _ <-].
Qed.

Lemma resolve_loop_note (fuel n : nat) (p p' : Processor) (row row' : Row)
    (index : nat) (f : Z) (n' : nat) :
  resolve_loop fuel n p row index = Ok (f, n', p', row') ->
  is_Some (row_note row) -> is_Some (row_note row').
Proof.
  revert n p row. induction fuel as [|fuel IH]; intros n p row; simpl; [discriminate|].
  destruct (estimateFrameFromRow p row) as [[est row1]|e] eqn:Hest; simpl; [|discriminate].
  pose proof (estimateFrameFromRow_note _ _ _ _ Hest) as Hn.
  destruct (findMostRecentAdditionalEvent _ _) as [tr|]; [|by intros [= <- <- <- <-]].
  destruct (tr_frame tr <=? est); [|by intros [= <- <- <- <-]].
  destruct (addEventToTimeline p _) as [p1|e] eqn:Hadd; simpl; [|discriminate].
  intros H Hs. apply (IH _ _ _ H). by apply Hn.
Qed.

Lemma commit_row_log (p p' : Processor) (row row' : Row) (f : Z) (ev : InputEvent) :
  commit_row p row f = Ok (p', row', ev) ->
  current_frame (state p') = ie_frame ev /\
  exists committed,
    timeline p' = timeline p ++ [committed] /\
    te_frame committed = ie_frame ev /\
    te_event_name committed = row_event_name row /\
    te_cost_used committed = row_cost_used row /\
    te_note committed = default [] (ie_note ev).
Proof.
  intros (Hev & _ & Hadd)%commit_row_Ok.
  apply addEventToTimeline_Ok in Hadd as (rate & _ & Hst & Htl & _).
  match type of Htl with context [detectAndProcessBuff ?q ?n ?g] =>
    destruct (detectAndProcessBuff_state q n g) as (_ & Ht & _) end.
  rewrite Ht in Htl.
  match type of Htl with context [publish_label ?q ?r ?g] =>
    destruct (publish_label_state q r g) as (_ & Ht' & _) end.
  rewrite Ht' in Htl. rewrite Hst. split; [done|].
  eexists. split; [exact Htl|]. rewrite Hev. done.
Qed.

Lemma resolveRowTiming_outcome (p p' : Processor) (row row' : Row) (index : nat)
    (ev : InputEvent) :
  resolveRowTiming p row index = Ok (p', row', ev) ->
  current_frame (state p) <= ie_frame ev /\
  current_frame (state p') = ie_frame ev /\
  row_frame row' = Some (ie_frame ev) /\
  row_time row' = Some (framesToSeconds (ie_frame ev)) /\
  (exists note, with_row_frame (with_row_note row note) (ie_frame ev) = row') /\
  (is_Some (row_note row) -> row_note row' = ie_note ev) /\
  exists transitions committed,
    timeline p' = timeline p ++ transitions ++ [committed] /\
    (length transitions < 100)%nat /\
    te_frame committed = ie_frame ev /\
    te_event_name committed = row_event_name row /\
    te_cost_used committed = row_cost_used row /\
    te_note committed = default [] (ie_note ev).
Proof.
  intros (f & n & p1 & row1 & Hloop & Hc)%resolveRowTiming_Ok.
  pose proof (resolve_loop_later _ _ _ _ _ _ _ _ _ Hloop) as Hl1.
  pose proof (resolve_loop_count _ _ _ _ _ _ _ _ _ Hloop) as [Hn Hlen].
  pose proof (resolve_loop_note _ _ _ _ _ _ _ _ _ Hloop) as Hnote.
  apply resolve_loop_row in Hloop as [[note ->] _].
  pose proof (commit_row_log _ _ _ _ _ _ Hc) as (Hcur & committed & Htl & Hf & Hname & Hcost & Hn').
  apply commit_row_Ok in Hc as (Hev & Hrow & _).
  assert (Hframe : ie_frame ev = Z.max f (current_frame (state p1)))
    by (rewrite Hev; apply processed_event_frame).
  pose proof (later_frame _ _ Hl1) as Hfr.
  split; [lia|]. split; [done|].
  assert (Hw : row' = with_row_frame
                        (with_row_note row (if (f <? current_frame (state p1)) &&
                                               bool_decide (is_Some note)
                                            then ie_note ev else note))
                        (ie_frame ev)).
  { rewrite Hrow, Hev. unfold written_row. cbn [row_note with_row_note].
    by destruct (_ && _). }
  split; [by rewrite Hw|]. split; [by rewrite Hw|]. split; [eexists; by rewrite Hw|].
  split.
  { intros Hs. specialize (Hnote Hs). simpl in Hnote. rewrite Hw. cbn [row_note with_row_frame with_row_note].
    rewrite bool_decide_eq_true_2 by done. rewrite andb_true_r.
    destruct (f <? current_frame (state p1)) eqn:E; [done|].
    rewrite Hev. unfold processed_event_of. rewrite E. cbn [ie_note row_note with_row_note].
    by destruct Hnote as [x ->]. }
  destruct (later_timeline _ _ Hl1) as [transitions Htr].
  exists transitions, committed. rewrite Htl, Htr, <- app_assoc.
  split; [done|]. split; [|done].
  rewrite Htr, length_app in Hlen. unfold LOOP_LIMIT in Hn. lia.
Qed.

(** X14.  When [resolveRowTiming] resolves a row, the frame of the
    processed event is not before the frame the processor was at and is
    the frame it is at afterwards.  The row is left with that frame and
    its time in seconds and, if it had a list of notes, with the notes
    of the event.  The log grows by fewer
    than 100 transitions followed by exactly one entry for the row, with
    that frame and the row's event name, cost and notes. *)
Theorem row_written_back_as_logged (p p' : Processor) (row row' : Row) (index : nat)
    (ev : InputEvent) :
  resolveRowTiming p row index = Ok (p', row', ev) ->
  current_frame (state p) <= ie_frame ev /\
  current_frame (state p') = ie_frame ev /\
  row_frame row' = Some (ie_frame ev) /\
  row_time row' = Some (framesToSeconds (ie_frame ev)) /\
  (exists note, with_row_frame (with_row_note row note) (ie_frame ev) = row') /\
  (is_Some (row_note row) -> row_note row' = ie_note ev) /\
  exists transitions committed,
    timeline p' = timeline p ++ transitions ++ [committed] /\
    (length transitions < 100)%nat /\
    te_frame committed = ie_frame ev /\
    te_event_name committed = row_event_name row /\
    te_cost_used committed = row_cost_used row /\
    te_note committed = default [] (ie_note ev).
Proof. apply resolveRowTiming_outcome. Qed.

End WriteBack.

Section RowsAfter.

Import TLEditor Invariants Utilities.

Lemma frames_from_weaken (c c' : Z) (rows : list Row) :
  c' <= c -> frames_from c rows -> frames_from c' rows.
Proof.
  revert c c'. induction rows as [|row rest IH]; intros c c' Hle; simpl; [done|].
  destruct (is_special_command row); [by apply IH|].
  intros (f & Hf & Hc & Hrest). exists f. split; [done|]. split; [lia | done].
Qed.

Lemma frames_from_bound (c : Z) (rows : list Row) (i : nat) (row : Row) (f : Z) :
  frames_from c rows -> rows !! i = Some row ->
  is_special_command row = false -> row_frame row = Some f -> c <= f.
Proof.
  revert c i. induction rows as [|r rest IH]; intros c [|i] H Hi Hs Hf; simpl in *;
    try discriminate.
  - injection Hi as ->. rewrite Hs in H. destruct H as (g & Hg & Hc & _). congruence.
  - destruct (is_special_command r); [by eapply IH|].
    destruct H as (g & Hg & Hc & H). assert (g <= f) by (by eapply IH). lia.
Qed.

Lemma frames_from_sorted (c : Z) (rows : list Row) (i j : nat) (ri rj : Row) (fi fj : Z) :
  frames_from c rows -> (i < j)%nat ->
  rows !! i = Some ri -> rows !! j = Some rj ->
  is_special_command ri = false -> is_special_command rj = false ->
  row_frame ri = Some fi -> row_frame rj = Some fj -> fi <= fj.
Proof.
  revert c i j. induction rows as [|r rest IH]; intros c i j H Hij Hi Hj Hsi Hsj Hfi Hfj;
    [done|].
  destruct j as [|j]; [lia|]. destruct i as [|i]; simpl in *.
  - injection Hi as ->. rewrite Hsi in H. destruct H as (g & Hg & _ & H).
    assert (g = fi) as -> by congruence. by eapply frames_from_bound.
  - assert (Hrest : exists c', frames_from c' rest).
    { destruct (is_special_command r); [by exists c|]. destruct H as (g & _ & _ & H). by exists g. }
    destruct Hrest as [c' Hrest]. eapply (IH c' i j); eauto. lia.
Qed.

Lemma process_rows_rows (rows rows' : list Row) (i : nat) (p p' : Processor) :
  process_rows i rows p = Ok (p', rows') ->
  Forall2 (resolved_as p') rows rows' /\ frames_from (current_frame (state p)) rows'.
Proof.
  revert i p rows'. induction rows as [|row rest IH]; intros i p rows'; simpl.
  { intros [= <- <-]. split; [constructor | done]. }
  destruct (processSpecialCommand p row) as [[p1 row1]|e] eqn:Hsp; simpl; [|discriminate].
  apply processSpecialCommand_fields in Hsp as (Hs & _ & _ & _ & _ & Hrow).
  destruct (is_special_command row1) eqn:Hflag.
  - destruct (process_rows (S i) rest p1) as [[p2 rest']|e] eqn:Hr; simpl; [|discriminate].
    intros [= <- <-]. apply IH in Hr as [Hall Hfrom]. rewrite Hs in Hfrom. split.
    + constructor; [|done]. unfold resolved_as. by rewrite Hflag.
    + simpl. by rewrite Hflag.
  - destruct (resolveRowTiming p1 row1 i) as [[[p2 row2] ev]|e] eqn:Hres; simpl; [|discriminate].
    destruct (process_rows (S i) rest p2) as [[p3 rest']|e] eqn:Hr; simpl; [|discriminate].
    intros [= <- <-].
    pose proof (process_rows_later _ _ _ _ _ Hr) as Hl.
    apply IH in Hr as [Hall Hfrom].
    apply resolveRowTiming_outcome in Hres
      as (Hle & Hcur & _ & _ & [note Hw] & _ & trs & committed & Htl & _ & Hf & Hn & Hc & _).
    rewrite Hcur in Hfrom. rewrite Hs in Hle.
    assert (Hflag2 : is_special_command row2 = false) by (by rewrite <- Hw, Hrow).
    split.
    + constructor; [|done]. unfold resolved_as. rewrite Hflag2.
      exists note, (ie_frame ev). rewrite <- Hw, Hrow. split; [done|].
      split; [rewrite <- Hcur; apply (later_frame _ _ Hl)|].
      exists committed. split; [|by rewrite Hrow in Hn, Hc].
      apply (elem_of_prefix (timeline p2)); [|apply (later_timeline _ _ Hl)].
      rewrite Htl, app_assoc. apply elem_of_app. right. left.
    + simpl. rewrite Hflag2. exists (ie_frame ev). split; [by rewrite <- Hw|]. done.
Qed.

(** X15.  A conversion that completes returns as many rows as it was
    given.  Each row comes back either flagged as a special command and
    otherwise unchanged, or unflagged with notes and the frame of an
    entry of the log that has its event name and cost; that frame is at
    least 60, the start of the battle, and at most the final frame.  The
    frames of the rows that are not special commands never decrease
    from one row to the next. *)
Theorem rows_after_conversion (rows rows' : list Row) (s : Settings)
    (bd w : option BuffData) (p : Processor) :
  convert rows s bd w = Ok (p, rows') ->
  length rows' = length rows /\
  (forall i row row', rows !! i = Some row -> rows' !! i = Some row' ->
     if is_special_command row'
     then row' = with_is_special_command row true
     else exists note f,
            row' = with_row_frame
                     (with_row_note (with_is_special_command row false) note) f /\
            60 <= f <= current_frame (state p) /\
            exists e, e ∈ timeline p /\ te_frame e = f /\
                      te_event_name e = row_event_name row /\
                      te_cost_used e = row_cost_used row) /\
  (forall i j ri rj fi fj,
     (i < j)%nat -> rows' !! i = Some ri -> rows' !! j = Some rj ->
     is_special_command ri = false -> is_special_command rj = false ->
     row_frame ri = Some fi -> row_frame rj = Some fj -> fi <= fj).
Proof.
  unfold convert.
  destruct (constructor_spec rows s bd w) as (p0 & e0 & e1 & Hc & _ & Hf & _).
  rewrite Hc. simpl. unfold createTimelineJSON.
  destruct (process_rows 0 rows p0) as [[p1 rows1]|e] eqn:Hp; simpl; [|discriminate].
  intros [= <- <-]. apply process_rows_rows in Hp as [Hall Hfrom]. rewrite Hf in Hfrom.
  split; [symmetry; by eapply Forall2_length|]. split.
  - intros i row row' Hi Hi'.
    pose proof (Forall2_lookup_lr _ _ _ _ _ _ Hall Hi Hi') as Hr. unfold resolved_as in Hr.
    destruct (is_special_command row') eqn:Hflag; [done|].
    destruct Hr as (note & f & Hw & Hle & He). exists note, f. split; [done|].
    split; [|done]. split; [|done].
    eapply (frames_from_bound 60 rows1 i row' f); eauto. by rewrite Hw.
  - intros i j ri rj fi fj. by apply frames_from_sorted with (c := 60).
Qed.

End RowsAfter.

Section SpecialCommand.

Import TLEditor Invariants Utilities.

Lemma accepted_yes (s : Settings) :
  negb (String.eqb (default "" (special_command_accepted s)) "yes") =
    negb (bool_decide (special_command_accepted s = Some "yes")).
Proof.
  destruct (special_command_accepted s) as [a|]; simpl; [|done].
  destruct (String.eqb_spec a "yes") as [->|Hn].
  - by rewrite bool_decide_eq_true_2.
  - rewrite bool_decide_eq_false_2; [done|]. by intros [= ->].
Qed.

Lemma createBuffEvent_fields (info : BuffConfig) (f : Z) (s : Settings) :
  let b := createBuffEvent info f s in
  active b = false /\ start_frame b = f + offset_frames info /\
  buff_amount b = cfg_buff_amount info /\ buff_target b = cfg_buff_target info /\
  event_name b = buff_name info /\
  (buff_name info <> "セイアEX" ->
   end_frame b = start_frame b + duration_first (duration_frames info)).
Proof.
  simpl. do 5 (split; [done|]). intros Hne.
  by destruct (String.eqb_spec (buff_name info) "セイアEX").
Qed.

(** X16.  [processSpecialCommand] leaves the processor as it is and the
    row unflagged unless special commands are accepted and the event
    name matches the increase or the decrease pattern.  A matching row
    without a positive duration is flagged and adds no interval.  One
    with a positive duration fails with a type error when the catalog
    or its [general] entry is missing; otherwise it is flagged and adds
    one pending interval, which starts at the frame of the row's time
    plus the offset of the [general] entry, lasts the frames of the
    duration (unless the entry is named セイアEX), has the row's value as
    amount, negated for a decrease, and the row's target if there is
    one, that of the entry otherwise. *)
Theorem special_command_outcome (p : Processor) (row : Row) :
  let name := row_event_name row in
  let matched := COST_RECOVERY_INCREASE_PATTERN name || COST_RECOVERY_DECREASE_PATTERN name in
  let accepted := bool_decide (special_command_accepted (settings p) = Some "yes") in
  (accepted && matched = false ->
   processSpecialCommand p row = Ok (p, with_is_special_command row false)) /\
  (accepted && matched = true ->
   ((row_duration row = None \/ exists d, row_duration row = Some d /\ (d <= 0)%Q) ->
    processSpecialCommand p row = Ok (p, with_is_special_command row true)) /\
   (forall d, row_duration row = Some d -> (0 < d)%Q ->
      match window_BUFF_DATA p ≫= (fun data => get_buff data "general") with
      | None => processSpecialCommand p row = Err JsTypeError
      | Some general =>
          exists b,
            processSpecialCommand p row =
              Ok (with_additional_events p (additional_events p ++ [b]),
                  with_is_special_command row true) /\
            active b = false /\
            start_frame b = secondsToFrames (row_time row) + offset_frames general /\
            buff_amount b = (if COST_RECOVERY_DECREASE_PATTERN name
                             then (- row_value row)%Q else row_value row) /\
            buff_target b = (if Js.truthyS (row_target row)
                             then row_target row else cfg_buff_target general) /\
            (event_name b <> "セイアEX" ->
             end_frame b = start_frame b + secondsToFrames (Some d))
      end)).
Proof.
  intros name matched accepted. unfold processSpecialCommand.
  rewrite accepted_yes. fold accepted name. split.
  - intros H. destruct accepted; simpl in *; [|done].
    destruct (String.eqb name ""); [done|]. fold matched. by rewrite H.
  - intros [Ha Hm]%andb_prop. rewrite Ha. simpl.
    assert (Hname : String.eqb name "" = false).
    { destruct (String.eqb_spec name "") as [E|]; [|done].
      unfold matched in Hm. rewrite E in Hm. discriminate. }
    rewrite Hname. fold matched. rewrite Hm. split.
    + intros [->|(d & -> & Hd)]; [done|].
      pose proof (gtQ_spec d 0) as Hg. destruct (Js.gtQ d 0); [lra | done].
    + intros d -> Hd. pose proof (gtQ_spec d 0) as Hg.
      destruct (Js.gtQ d 0); [|lra].
      destruct (window_BUFF_DATA p ≫= _) as [general|]; [|done].
      eexists. split; [reflexivity|].
      match goal with |- context [createBuffEvent ?info ?f ?s] =>
        destruct (createBuffEvent_fields info f s) as (H1 & H2 & H3 & H4 & H5 & H6) end.
      split; [exact H1|]. split; [exact H2|]. split; [exact H3|]. split; [exact H4|].
      intros Hne. rewrite H5 in Hne. exact (H6 Hne).
Qed.

End SpecialCommand.

Section RadiatorQuery.

Import RadiatorManager.

Lemma first_active_spec (intervals : list RadiatorInterval) (f : Z)
    (interval : RadiatorInterval) :
  first_active intervals f = Some interval <->
  exists before after,
    intervals = before ++ interval :: after /\
    start_frame interval <= f < end_frame interval /\
    forall other, other ∈ before -> ~ (start_frame other <= f < end_frame other).
Proof.
  induction intervals as [|x rest IH]; simpl.
  { split; [discriminate | intros (b & a & H & _); by destruct b]. }
  destruct (Z.leb_spec (start_frame x) f) as [Hs|Hs];
    destruct (Z.ltb_spec f (end_frame x)) as [He|He]; simpl.
  1: { split.
       - intros [= ->]. exists [], rest. split; [done|]. split; [lia|]. by intros o ?%elem_of_nil.
       - intros ([|y b] & a & H & Hin & Hnot); simpl in H; injection H as -> ->; [done|].
         exfalso. apply (Hnot y); [left | lia]. }
  all: rewrite IH; split;
    [ intros (b & a & -> & Hin & Hnot); exists (x :: b), a; split; [done|]; split; [done|];
      intros o [->|Ho]%elem_of_cons; [lia | by apply Hnot]
    | intros ([|y b] & a & H & Hin & Hnot); simpl in H; injection H as -> ->; [lia|];
      exists b, a; split; [done|]; split; [done|]; intros o Ho; apply Hnot; by right ].
Qed.

Lemma first_active_None (intervals : list RadiatorInterval) (f : Z) :
  first_active intervals f = None <-> active_in intervals f = false.
Proof.
  induction intervals as [|x rest IH]; simpl; [done|]. by destruct (_ && _).
Qed.

(** X17.  [getActiveRadiatorInterval] returns an interval exactly when
    [isRadiatorActiveAt] answers true, and the interval it returns is
    the first recorded one that holds the frame ([start_frame <= f <
    end_frame]). *)
Theorem active_interval_is_first_match (m : t) (f : Z) :
  (is_Some (getActiveRadiatorInterval m f) <-> isRadiatorActiveAt m f = true) /\
  (forall interval,
     getActiveRadiatorInterval m f = Some interval <->
     exists before after,
       radiator_intervals m = before ++ interval :: after /\
       start_frame interval <= f < end_frame interval /\
       forall other, other ∈ before -> ~ (start_frame other <= f < end_frame other)).
Proof.
  unfold getActiveRadiatorInterval, isRadiatorActiveAt. split.
  - pose proof (first_active_None (radiator_intervals m) f) as H.
    destruct (first_active _ _) as [i|].
    + split; [intros _ | by eexists].
      destruct (active_in _ _); [done|]. by destruct H as [_ H]; discriminate H.
    + split; [by intros [? ?] | intros Ha]. destruct H as [H _]. rewrite H in Ha; done.
  - intros interval. apply first_active_spec.
Qed.

End RadiatorQuery.

Section RadiatorExtraction.

Import RadiatorManager RadiatorOrder.

Lemma after_first_includes (pat s rest : string) :
  Js.after_first pat s = Some rest -> Js.includes s pat = true.
Proof.
  induction s as [|c s IH]; cbn -[String.prefix String.substring].
  - by destruct (String.prefix pat "").
  - destruct (String.prefix pat (String c s)); [done|]. intros H. rewrite (IH H).
    apply orb_true_r.
Qed.

Lemma marker_then_event (chars : list string) (name : string) :
  marker_then chars name = true -> isRadiatorEvent name = true.
Proof.
  unfold marker_then, isRadiatorEvent. simpl.
  destruct (Js.after_first "ラジエータ" name) as [r1|] eqn:E1.
  { intros _. by rewrite (after_first_includes _ _ _ E1). }
  destruct (Js.after_first "過負荷" name) as [r2|] eqn:E2; [|done].
  intros _. rewrite (after_first_includes _ _ _ E2). apply orb_true_r.
Qed.

Lemma insert_by_frame_perm (event : RadiatorEvent) (sorted : list RadiatorEvent) :
  insert_by_frame event sorted ≡ₚ event :: sorted.
Proof.
  induction sorted as [|other rest IH]; simpl; [done|].
  destruct (frame event <=? frame other); [done|].
  rewrite IH. apply perm_swap.
Qed.

Lemma sort_by_frame_perm (events : list RadiatorEvent) : sort_by_frame events ≡ₚ events.
Proof.
  induction events as [|event rest IH]; simpl; [done|].
  by rewrite insert_by_frame_perm, IH.
Qed.

Lemma insert_by_frame_sorted (event : RadiatorEvent) (sorted : list RadiatorEvent) :
  StronglySorted by_frame sorted -> StronglySorted by_frame (insert_by_frame event sorted).
Proof.
  induction 1 as [|other rest Hs IH Hall]; simpl; [repeat constructor|].
  destruct (Z.leb_spec (frame event) (frame other)) as [Hle|Hgt].
  - constructor; [by constructor|]. constructor; [done|].
    eapply Forall_impl; [exact Hall|]. unfold by_frame. intros x Hx. lia.
  - constructor; [done|].
    rewrite insert_by_frame_perm. constructor; [unfold by_frame; lia | done].
Qed.

Lemma sort_by_frame_sorted (events : list RadiatorEvent) :
  StronglySorted by_frame (sort_by_frame events).
Proof.
  induction events as [|event rest IH]; simpl; [constructor|].
  by apply insert_by_frame_sorted.
Qed.

Lemma sorted_lookup (events : list RadiatorEvent) (i j : nat) (a b : RadiatorEvent) :
  StronglySorted by_frame events -> (i < j)%nat ->
  events !! i = Some a -> events !! j = Some b -> frame a <= frame b.
Proof.
  intros Hs. revert i j. induction Hs as [|x rest Hs IH Hall]; intros i j Hij Hi Hj; [done|].
  destruct j as [|j]; [lia|]. destruct i as [|i]; simpl in *.
  - injection Hi as ->. rewrite Forall_forall in Hall. apply Hall.
    by eapply list_elem_of_lookup_2.
  - apply (IH i j); [lia | done | done].
Qed.

Lemma in_order_snoc (intervals : list RadiatorInterval) (x : RadiatorInterval) :
  in_order intervals ->
  (forall interval, interval ∈ intervals ->
     start_frame interval <= end_frame interval /\ end_frame interval <= start_frame x) ->
  in_order (intervals ++ [x]).
Proof.
  intros Ho Hx i j a b Hij Hi Hj.
  assert (Hjl : (j < length (intervals ++ [x]))%nat) by (by eapply lookup_lt_Some).
  rewrite length_app in Hjl. simpl in Hjl.
  rewrite lookup_app_l in Hi by lia.
  destruct (decide (j < length intervals)%nat) as [Hlt|Hge].
  - rewrite lookup_app_l in Hj by lia. by apply (Ho i j).
  - rewrite lookup_app_r in Hj by lia.
    replace (j - length intervals)%nat with 0%nat in Hj by lia.
    injection Hj as <-. apply Hx. by eapply list_elem_of_lookup_2.
Qed.

Lemma scan_step_inv (st : option Z * list RadiatorInterval) (lo : Z)
    (event : RadiatorEvent) :
  lo <= frame event -> scan_inv st lo -> scan_inv (scan_step st event) (frame event).
Proof.
  intros Hle (Hivs & Hord & Hcur). destruct st as [[s|] ivs]; simpl in *.
  - destruct (Hcur s eq_refl) as [Hs Hends].
    destruct (is_end event); simpl.
    + split; [|split; [|done]].
      * intros iv [Hiv|Hiv]%elem_of_app.
        -- destruct (Hivs iv Hiv). lia.
        -- apply list_elem_of_singleton in Hiv as ->. simpl. lia.
      * apply in_order_snoc; [done|]. intros iv Hiv. simpl.
        destruct (Hivs iv Hiv). specialize (Hends iv Hiv). lia.
    + split; [|split; [done|]].
      * intros iv Hiv. destruct (Hivs iv Hiv). lia.
      * intros s' [= <-]. split; [lia | done].
  - destruct (is_start event); simpl.
    + split; [|split; [done|]].
      * intros iv Hiv. destruct (Hivs iv Hiv). lia.
      * intros s' [= <-]. split; [lia|]. intros iv Hiv. destruct (Hivs iv Hiv). lia.
    + split; [|split; [done|done]].
      intros iv Hiv. destruct (Hivs iv Hiv). lia.
Qed.

Lemma scan_sorted_inv (events : list RadiatorEvent) (st : option Z * list RadiatorInterval)
    (lo : Z) :
  StronglySorted by_frame events ->
  Forall (fun event => lo <= frame event) events ->
  scan_inv st lo ->
  exists hi, scan_inv (fold_left scan_step events st) hi.
Proof.
  intros Hs. revert st lo. induction Hs as [|event rest Hs IH Hall]; intros st lo Hlo Hinv.
  { by exists lo. }
  simpl. apply Forall_cons in Hlo as [Hle _].
  apply (IH _ (frame event)); [exact Hall|]. by apply scan_step_inv with (lo := lo).
Qed.

Lemma extend_open_in_order (st : option Z * list RadiatorInterval) (hi : Z)
    (btf : option Z) :
  scan_inv st hi -> in_order (extend_open st btf).
Proof.
  intros (Hivs & Hord & Hcur). destruct st as [[s|] ivs], btf as [b|]; simpl in *; try done.
  destruct (Hcur s eq_refl) as [_ Hends].
  apply in_order_snoc; [done|]. intros iv Hiv. simpl.
  destruct (Hivs iv Hiv). specialize (Hends iv Hiv). lia.
Qed.

(** X18.  [extractAndProcessRadiatorEvents] keeps exactly the rows with a
    radiator name that have a frame or a time, as events ordered by
    frame and classified by [isRadiatorStart] and [isRadiatorEnd].  The
    intervals that [calculateRadiatorIntervals] then computes follow one
    another: each interval that has a successor does not end before it
    starts, and ends no later than the successor starts; so no frame is
    held by two intervals. *)
Theorem extracted_intervals_in_order (m : t) (timeline : list TimelineRow)
    (battle_time_frames : option Z) :
  let extracted := fst (extractAndProcessRadiatorEvents m timeline) in
  let intervals :=
    radiator_intervals (calculateRadiatorIntervals extracted battle_time_frames) in
  radiator_events extracted ≡ₚ omap radiator_event_of timeline /\
  (forall i j a b, (i < j)%nat ->
     radiator_events extracted !! i = Some a -> radiator_events extracted !! j = Some b ->
     frame a <= frame b) /\
  (forall event, event ∈ radiator_events extracted ->
     isRadiatorEvent (event_name event) = true /\
     is_start event = isRadiatorStart (event_name event) /\
     is_end event = isRadiatorEnd (event_name event)) /\
  (forall i j a b, (i < j)%nat -> intervals !! i = Some a -> intervals !! j = Some b ->
     start_frame a <= end_frame a /\ end_frame a <= start_frame b) /\
  (forall f i j a b, intervals !! i = Some a -> intervals !! j = Some b ->
     start_frame a <= f < end_frame a -> start_frame b <= f < end_frame b -> i = j).
Proof.
  intros extracted intervals.
  assert (Hsorted : StronglySorted by_frame (radiator_events extracted))
    by apply sort_by_frame_sorted.
  assert (Hord : in_order intervals).
  { unfold intervals, calculateRadiatorIntervals, scan. simpl.
    set (events := sort_by_frame _).
    assert (Hs : StronglySorted by_frame events) by apply sort_by_frame_sorted.
    destruct (scan_sorted_inv events (None, [])
                (match events with [] => 0 | event :: _ => frame event end) Hs)
      as [hi Hinv].
    - destruct events as [|event rest]; [constructor|].
      apply StronglySorted_inv in Hs as [_ Hall].
      constructor; [lia|]. exact Hall.
    - split; [by intros iv ?%elem_of_nil|]. split; [|done].
      intros i j a b _ Hi. simpl in Hi. by destruct i.
    - by apply extend_open_in_order with (hi := hi). }
  split; [apply sort_by_frame_perm|].
  split; [intros i j a b; by apply sorted_lookup|].
  split.
  { intros event Hin.
    change (event ∈ sort_by_frame (omap radiator_event_of timeline)) in Hin.
    rewrite sort_by_frame_perm in Hin.
    apply list_elem_of_omap in Hin as (row & _ & Hrow). unfold radiator_event_of in Hrow.
    destruct (isRadiatorEvent (tl_event_name row)) eqn:E; [|discriminate].
    destruct (frame_of_row row); [|discriminate]. injection Hrow as <-. done. }
  split; [exact Hord|].
  intros f i j a b Hi Hj Ha Hb.
  destruct (Nat.lt_trichotomy i j) as [Hlt|[Heq|Hgt]]; [|done|].
  - destruct (Hord i j a b Hlt Hi Hj). lia.
  - destruct (Hord j i b a Hgt Hj Hi). lia.
Qed.

(** X19.  Every name that [isRadiatorStart] or [isRadiatorEnd] accepts
    is also accepted by [isRadiatorEvent], so no start or end marker is
    missed by the extraction; the empty name is no radiator event. *)
Theorem start_and_end_markers_are_radiator_events (name : string) :
  (isRadiatorStart name = true -> isRadiatorEvent name = true) /\
  (isRadiatorEnd name = true -> isRadiatorEvent name = true) /\
  isRadiatorEvent "" = false.
Proof. split; [apply marker_then_event | split; [apply marker_then_event | done]]. Qed.

End RadiatorExtraction.

Section Direction.

Import AssistantUtils Steps.

Lemma count_steps_cons (previous t : Q) (rest : list Q) :
  count_steps previous (t :: rest) = add2 (step previous t) (count_steps t rest).
Proof.
  simpl. unfold step. destruct (count_steps t rest) as [fwd bwd].
  destruct (Js.gtQ t previous); [reflexivity|]. destruct (Js.gtQ previous t); reflexivity.
Qed.

Lemma last_cons (x d : Q) (l : list Q) : List.last (x :: l) d = List.last l x.
Proof.
  revert x d. induction l as [|y l IH]; intros x d; [done|].
  change (List.last (x :: y :: l) d) with (List.last (y :: l) d). by rewrite !IH.
Qed.

Lemma count_steps_snoc (previous : Q) (times : list Q) (t : Q) :
  count_steps previous (times ++ [t]) =
    add2 (count_steps previous times) (step (List.last times previous) t).
Proof.
  revert previous. induction times as [|x times IH]; intros previous.
  { simpl. unfold step, add2.
    destruct (Js.gtQ t previous); [reflexivity|]. destruct (Js.gtQ previous t); reflexivity. }
  change ((x :: times) ++ [t]) with (x :: (times ++ [t])).
  rewrite !count_steps_cons, IH.
  rewrite last_cons.
  unfold add2. simpl. f_equal; lia.
Qed.

Lemma step_swap (a b : Q) : step b a = ((step a b).2, (step a b).1).
Proof.
  unfold step, Js.gtQ.
  destruct (Qle_bool a b) eqn:E1, (Qle_bool b a) eqn:E2; simpl; try done.
  exfalso.
  assert (Hab : ~ (a <= b)%Q) by (intros Hle%Qle_bool_iff; congruence).
  assert (Hba : ~ (b <= a)%Q) by (intros Hle%Qle_bool_iff; congruence).
  lra.
Qed.

Lemma last_rev_head (times : list Q) (x d : Q) :
  List.last (rev times ++ [x]) d = x.
Proof. apply List.last_last. Qed.

Lemma steps_rev (times : list Q) : steps (rev times) = ((steps times).2, (steps times).1).
Proof.
  induction times as [|x times IH]; [done|].
  destruct times as [|y times]; [done|].
  change (rev (x :: y :: times)) with (rev (y :: times) ++ [x]).
  destruct (rev (y :: times)) as [|z zs] eqn:Hrev.
  { apply (f_equal length) in Hrev. rewrite length_rev in Hrev. done. }
  change (steps ((z :: zs) ++ [x])) with (count_steps z (zs ++ [x])).
  rewrite count_steps_snoc.
  change (count_steps z zs) with (steps (z :: zs)). rewrite IH.
  assert (Hlast : List.last zs z = y).
  { rewrite <- (last_cons z z zs), <- Hrev. simpl. apply List.last_last. }
  rewrite Hlast. change (steps (x :: y :: times)) with (count_steps x (y :: times)).
  rewrite count_steps_cons. rewrite (step_swap x y).
  unfold add2, steps. simpl. f_equal; lia.
Qed.

Lemma detect_steps (events : list ParsedEvent) :
  detectTimelineDirection events =
    if (length (omap time events) <? 2)%nat then "backward"
    else if ((steps (omap time events)).1 <=? (steps (omap time events)).2)%nat
         then "backward" else "forward".
Proof.
  unfold detectTimelineDirection. destruct (omap time events) as [|a [|b rest]]; try done.
  cbn [length Nat.ltb Nat.leb steps]. by destruct (count_steps a (b :: rest)).
Qed.

Lemma omap_rev {A B} (g : A -> option B) (l : list A) : omap g (rev l) = rev (omap g l).
Proof.
  induction l as [|x l IH]; [done|]. simpl. rewrite omap_app, IH. simpl.
  destruct (g x); [done|]. by rewrite app_nil_r.
Qed.

Lemma ascending_steps (first : Q) (rest : list Q) :
  (forall i a b, (first :: rest) !! i = Some a -> (first :: rest) !! S i = Some b -> (a < b)%Q) ->
  count_steps first rest = (length rest, O).
Proof.
  revert first. induction rest as [|t rest IH]; intros first Hasc; [done|].
  rewrite count_steps_cons, IH.
  - assert (Hlt : (first < t)%Q) by (by apply (Hasc 0%nat)).
    unfold step, Js.gtQ.
    assert (E : Qle_bool t first = false).
    { destruct (Qle_bool t first) eqn:E; [|done]. apply Qle_bool_iff in E. lra. }
    by rewrite E.
  - intros i a b Hi Hj. by apply (Hasc (S i)).
Qed.

(** X20.  [detectTimelineDirection] answers [backward] for fewer than two
    events with a time, and [forward] for two or more whose times
    strictly increase.  Whenever it answers [forward] for a list of
    events, it answers [backward] for the same events in the opposite
    order. *)
Theorem timeline_direction (events : list ParsedEvent) :
  ((length (omap time events) < 2)%nat -> detectTimelineDirection events = "backward") /\
  ((2 <= length (omap time events))%nat ->
   (forall i a b, omap time events !! i = Some a -> omap time events !! S i = Some b ->
                  (a < b)%Q) ->
   detectTimelineDirection events = "forward") /\
  (detectTimelineDirection events = "forward" ->
   detectTimelineDirection (rev events) = "backward").
Proof.
  rewrite !detect_steps, omap_rev, length_rev, steps_rev. cbn [fst snd].
  split; [|split].
  - intros H. by destruct (Nat.ltb_spec (length (omap time events)) 2); [|lia].
  - intros Hlen Hasc.
    destruct (Nat.ltb_spec (length (omap time events)) 2); [lia|].
    destruct (omap time events) as [|first rest] eqn:E; [simpl in Hlen; lia|].
    unfold steps. rewrite (ascending_steps first rest Hasc). cbn [fst snd].
    simpl in Hlen.
    destruct (Nat.leb_spec (length rest) 0); [lia | done].
  - destruct (length (omap time events) <? 2)%nat; [done|].
    destruct (Nat.leb_spec (steps (omap time events)).1 (steps (omap time events)).2);
      [done|].
    intros _. destruct (Nat.leb_spec (steps (omap time events)).2 (steps (omap time events)).1);
      [done | lia].
Qed.

End Direction.

Section DigitStrings.

Import Digits.

Lemma app_cons_s (x : ascii) (a b : string) : String x a +:+ b = String x (a +:+ b).
Proof. reflexivity. Qed.

Lemma app_assoc_s (a b c : string) : (a +:+ b) +:+ c = a +:+ (b +:+ c).
Proof. induction a as [|x a IH]; [done | by rewrite !app_cons_s, IH]. Qed.

Lemma app_nil_r_s (a : string) : a +:+ "" = a.
Proof. induction a as [|x a IH]; [done | by rewrite app_cons_s, IH]. Qed.

Lemma length_app_s (a b : string) :
  String.length (a +:+ b) = (String.length a + String.length b)%nat.
Proof. induction a as [|x a IH]; [done | rewrite app_cons_s; simpl; by rewrite IH]. Qed.

Lemma pretty_N_char_digit (d : N) :
  (d < 10)%N -> Js.is_digit (pretty_N_char d) = true /\ Js.digit_value (pretty_N_char d) = d.
Proof.
  intros H.
  assert (d = 0 \/ d = 1 \/ d = 2 \/ d = 3 \/ d = 4 \/ d = 5 \/ d = 6 \/ d = 7 \/ d = 8 \/ d = 9)%N
    as Hd by lia.
  repeat destruct Hd as [->|Hd]; try subst d; by vm_compute.
Qed.

Lemma read_digits_digit (acc : N) (d : N) (s : string) :
  (d < 10)%N ->
  Js.read_digits acc (String (pretty_N_char d) s) =
    let '(v, n, rest) := Js.read_digits (acc * 10 + d) s in (v, S n, rest).
Proof.
  intros H. destruct (pretty_N_char_digit d H) as [H1 H2].
  cbn [Js.read_digits]. by rewrite H1, H2.
Qed.

Lemma read_digits_stop (acc : N) (s : string) :
  no_leading_digit s -> Js.read_digits acc s = (acc, O, s).
Proof. destruct s as [|c s]; simpl; [done|]. by intros ->. Qed.

Lemma pretty_N_go_app (x : N) (s t : string) :
  pretty_N_go x s +:+ t = pretty_N_go x (s +:+ t).
Proof.
  revert s. induction (N.lt_wf_0 x) as [x _ IH]; intros s.
  destruct (decide (x = 0)%N) as [->|Hx]; [by rewrite !pretty_N_go_0|].
  rewrite !(pretty_N_go_step x) by lia.
  rewrite IH by (apply N.div_lt; lia). done.
Qed.

Lemma read_digits_pretty_go (x : N) (s : string) :
  exists k, ((0 < x)%N -> (0 < k)%nat) /\
    Js.read_digits 0 (pretty_N_go x s) =
      let '(v, n, rest) := Js.read_digits x s in (v, (n + k)%nat, rest).
Proof.
  revert s. induction (N.lt_wf_0 x) as [x _ IH]; intros s.
  destruct (decide (x = 0)%N) as [->|Hx].
  { exists O. split; [lia|]. rewrite pretty_N_go_0.
    destruct (Js.read_digits 0 s) as [[v n] rest]. by rewrite Nat.add_0_r. }
  rewrite (pretty_N_go_step x) by lia.
  destruct (IH (x / 10)%N ltac:(apply N.div_lt; lia)
              (String (pretty_N_char (x mod 10)) s)) as (k & _ & Hk).
  exists (S k). split; [lia|]. rewrite Hk.
  rewrite read_digits_digit by (apply N.mod_lt; lia).
  replace (x / 10 * 10 + x mod 10)%N with x by (rewrite (N.div_mod x 10) at 1; lia).
  destruct (Js.read_digits x s) as [[v n] rest]. f_equal. f_equal. lia.
Qed.

Lemma read_digits_pretty (x : N) (rest : string) :
  no_leading_digit rest ->
  exists k, (0 < k)%nat /\ Js.read_digits 0 (pretty x +:+ rest) = (x, k, rest).
Proof.
  intros Hrest. unfold pretty, pretty_N.
  destruct (decide (x = 0)%N) as [->|Hx].
  { exists 1%nat. split; [lia|].
    change ("0" +:+ rest) with (String (pretty_N_char 0) rest).
    rewrite read_digits_digit by lia. by rewrite read_digits_stop. }
  rewrite pretty_N_go_app. change ("" +:+ rest) with rest.
  destruct (read_digits_pretty_go x rest) as (k & Hk & Hr).
  exists k. split; [apply Hk; lia|]. rewrite Hr. by rewrite read_digits_stop.
Qed.

Lemma digit_string_length (k : nat) (n : N) : String.length (digit_string k n) = k.
Proof.
  revert n. induction k as [|k IH]; intros n; simpl; [done|].
  rewrite length_app_s, IH. simpl. lia.
Qed.

Lemma read_digits_digit_string (k : nat) (n acc : N) (rest : string) :
  Js.read_digits acc (digit_string k n +:+ rest) =
    let '(v, m, r) := Js.read_digits (acc * 10 ^ N.of_nat k + n mod 10 ^ N.of_nat k) rest in
    (v, (m + k)%nat, r).
Proof.
  revert n acc rest. induction k as [|k IH]; intros n acc rest.
  { change (digit_string 0 n +:+ rest) with rest. change (10 ^ N.of_nat 0)%N with 1%N.
    rewrite N.mod_1_r, N.mul_1_r, N.add_0_r.
    destruct (Js.read_digits acc rest) as [[v m] r]. by rewrite Nat.add_0_r. }
  cbn [digit_string]. rewrite app_assoc_s, app_cons_s. change ("" +:+ rest) with rest.
  rewrite IH. rewrite read_digits_digit by (apply N.mod_lt; lia).
  replace ((acc * 10 ^ N.of_nat k + (n / 10) mod 10 ^ N.of_nat k) * 10 + n mod 10)%N
    with (acc * 10 ^ N.of_nat (S k) + n mod 10 ^ N.of_nat (S k))%N.
  - destruct (Js.read_digits _ rest) as [[v m] r]. f_equal. f_equal. lia.
  - rewrite Nat2N.inj_succ, N.pow_succ_r'. rewrite (N.Div0.mod_mul_r n 10). lia.
Qed.

Lemma digit_string_zero (k : nat) (n : N) :
  (n < 10 ^ N.of_nat k)%N -> digit_string (S k) n = String "0" (digit_string k n).
Proof.
  revert n. induction k as [|k IH]; intros n Hn.
  { simpl in Hn. assert (n = 0)%N as -> by lia. done. }
  change (digit_string (S (S k)) n) with
    (digit_string (S k) (n / 10) +:+ String (pretty_N_char (n mod 10)) "").
  rewrite IH; [done|].
  rewrite Nat2N.inj_succ, N.pow_succ_r' in Hn. apply N.Div0.div_lt_upper_bound. lia.
Qed.

Lemma pretty_N_go_digits (k : nat) (x : N) (s : string) :
  (k = O \/ 10 ^ N.of_nat (k - 1) <= x)%N ->
  pretty_N_go x s = pretty_N_go (x / 10 ^ N.of_nat k) (digit_string k x +:+ s).
Proof.
  revert x s. induction k as [|k IH]; intros x s Hx.
  { simpl. by rewrite N.div_1_r. }
  destruct Hx as [?|Hx]; [done|]. replace (S k - 1)%nat with k in Hx by lia.
  assert (0 < 10 ^ N.of_nat k)%N by (apply N.neq_0_lt_0, N.pow_nonzero; lia).
  rewrite (pretty_N_go_step x) by lia.
  rewrite (IH (x / 10)%N).
  - rewrite N.Div0.div_div, <- N.pow_succ_r', <- Nat2N.inj_succ.
    cbn [digit_string]. by rewrite app_assoc_s.
  - destruct k as [|k]; [by left | right]. replace (S k - 1)%nat with k by lia.
    rewrite Nat2N.inj_succ, N.pow_succ_r' in Hx.
    apply N.div_le_lower_bound; lia.
Qed.

Lemma padStart0_length (w : nat) (s : string) :
  (w <= String.length s)%nat -> Js.padStart0 w s = s.
Proof. intros H. unfold Js.padStart0. by replace (w - String.length s)%nat with O by lia. Qed.

Lemma padStart0_succ (w : nat) (s : string) :
  (String.length s <= w)%nat -> Js.padStart0 (S w) s = String "0" (Js.padStart0 w s).
Proof.
  intros H. unfold Js.padStart0.
  by replace (S w - String.length s)%nat with (S (w - String.length s)) by lia.
Qed.

Lemma padStart0_length_ge (w : nat) (s : string) :
  (w <= String.length (Js.padStart0 w s))%nat /\
  (String.length s <= w -> String.length (Js.padStart0 w s) = w)%nat.
Proof.
  unfold Js.padStart0.
  assert (H : forall j, String.length (Nat.iter j (String "0") s) = (j + String.length s)%nat).
  { induction j as [|j IH]; simpl; [done | by rewrite IH]. }
  rewrite H. lia.
Qed.

Lemma pretty_N_length (x : N) : (1 <= String.length (pretty x))%nat.
Proof.
  unfold pretty, pretty_N. destruct (decide (x = 0)%N) as [->|Hx]; [simpl; lia|].
  rewrite (pretty_N_go_step x) by lia.
  rewrite <- (app_nil_r_s (String _ "")) at 1.
  change (String (pretty_N_char (x mod 10)) "" +:+ "") with
    ("" +:+ String (pretty_N_char (x mod 10)) "").
  rewrite <- pretty_N_go_app, length_app_s. simpl. lia.
Qed.

(** A number printed with at least [k + 1] digits: the quotient by
    [10^k], then the last [k] digits. *)
Lemma padStart0_pretty (k : nat) (n : N) :
  Js.padStart0 (S k) (pretty n) = pretty (n / 10 ^ N.of_nat k)%N +:+ digit_string k n.
Proof.
  assert (Hpow : forall j, (0 < 10 ^ N.of_nat j)%N)
    by (intros j; apply N.neq_0_lt_0, N.pow_nonzero; lia).
  destruct (decide (10 ^ N.of_nat k <= n)%N) as [Hge|Hlt].
  - (* no padding *)
    assert (Hq : (n / 10 ^ N.of_nat k <> 0)%N).
    { intros E. apply N.div_small_iff in E; [lia|]. specialize (Hpow k). lia. }
    assert (Hn : n <> 0%N) by (specialize (Hpow k); lia).
    assert (Hp : pretty n = pretty (n / 10 ^ N.of_nat k)%N +:+ digit_string k n).
    { unfold pretty, pretty_N. rewrite !decide_False by done.
      rewrite pretty_N_go_app. simpl. rewrite <- (app_nil_r_s (digit_string k n)).
      apply pretty_N_go_digits. destruct k as [|k]; [by left | right].
      replace (S k - 1)%nat with k by lia.
      etrans; [|exact Hge]. apply N.pow_le_mono_r; lia. }
    rewrite padStart0_length; [done|].
    rewrite Hp, length_app_s, digit_string_length.
    pose proof (pretty_N_length (n / 10 ^ N.of_nat k)). lia.
  - (* the quotient is 0 *)
    assert (Hsmall : (n < 10 ^ N.of_nat k)%N) by lia. clear Hlt.
    rewrite N.div_small by done.
    change (pretty 0%N +:+ digit_string k n) with (String "0" (digit_string k n)).
    revert n Hsmall. induction k as [|k IH]; intros n Hn.
    { simpl in Hn. assert (n = 0)%N as -> by lia. done. }
    destruct (decide (n < 10 ^ N.of_nat k)%N) as [Hlt|Hge].
    + rewrite padStart0_succ, (IH n Hlt), digit_string_zero; [done | done |].
      assert (String.length (Js.padStart0 (S k) (pretty n)) = S k) as Hl.
      { rewrite (IH n Hlt). simpl. by rewrite digit_string_length. }
      destruct (padStart0_length_ge (S k) (pretty n)) as [_ H2].
      destruct (decide (String.length (pretty n) <= S k)%nat); [done|].
      rewrite padStart0_length in Hl by lia. lia.
    + assert (Hn0 : n <> 0%N) by (specialize (Hpow k); lia).
      assert (Hp : pretty n = digit_string (S k) n).
      { unfold pretty, pretty_N. rewrite decide_False by done.
        rewrite (pretty_N_go_digits (S k) n "").
        - rewrite N.div_small by done. by rewrite pretty_N_go_0, app_nil_r_s.
        - right. replace (S k - 1)%nat with k by lia. lia. }
      rewrite padStart0_succ; [|by rewrite Hp, digit_string_length].
      by rewrite padStart0_length; [rewrite Hp | rewrite Hp, digit_string_length].
Qed.

End DigitStrings.

Section TimeText.

Import AssistantUtils Digits.

Lemma all_chars_app (keep : ascii -> bool) (a b : string) :
  all_chars keep (a +:+ b) = all_chars keep a && all_chars keep b.
Proof.
  induction a as [|c a IH]; [done|]. rewrite app_cons_s. simpl.
  by rewrite IH, andb_assoc.
Qed.

Lemma all_chars_impl (keep keep' : ascii -> bool) (s : string) :
  (forall c, keep c = true -> keep' c = true) ->
  all_chars keep s = true -> all_chars keep' s = true.
Proof.
  intros H. induction s as [|c s IH]; simpl; [done|].
  intros [Hc Hs]%andb_prop. by rewrite (H c Hc), IH.
Qed.

Lemma pretty_N_go_digits_only (x : N) (s : string) :
  all_chars Js.is_digit s = true -> all_chars Js.is_digit (pretty_N_go x s) = true.
Proof.
  revert s. induction (N.lt_wf_0 x) as [x _ IH]; intros s Hs.
  destruct (decide (x = 0)%N) as [->|Hx]; [by rewrite pretty_N_go_0|].
  rewrite (pretty_N_go_step x) by lia. apply IH; [apply N.div_lt; lia|].
  simpl. rewrite Hs, andb_true_r. apply pretty_N_char_digit, N.mod_lt. lia.
Qed.

Lemma pretty_N_digits_only (x : N) : all_chars Js.is_digit (pretty x) = true.
Proof.
  unfold pretty, pretty_N. destruct (decide (x = 0)%N); [done|].
  by apply pretty_N_go_digits_only.
Qed.

Lemma digit_string_digits_only (k : nat) (n : N) :
  all_chars Js.is_digit (digit_string k n) = true.
Proof.
  revert n. induction k as [|k IH]; intros n; [done|].
  cbn [digit_string]. rewrite all_chars_app, IH. simpl. rewrite andb_true_r.
  apply pretty_N_char_digit, N.mod_lt. lia.
Qed.

Lemma zeros_digits_only (j : nat) (s : string) :
  all_chars Js.is_digit (Nat.iter j (String "0") s) = all_chars Js.is_digit s.
Proof. induction j as [|j IH]; [done|]. simpl. exact IH. Qed.

Lemma zeros_digits_only0 (keep : ascii -> bool) (j : nat) (s : string) :
  keep "0"%char = true ->
  all_chars keep (Nat.iter j (String "0") s) = all_chars keep s.
Proof. intros H. induction j as [|j IH]; [done|]. simpl. by rewrite H. Qed.

Lemma filter_chars_all (keep : ascii -> bool) (s : string) :
  all_chars keep s = true -> Js.filter_chars keep s = s.
Proof.
  induction s as [|c s IH]; simpl; [done|].
  intros [Hc Hs]%andb_prop. by rewrite Hc, IH.
Qed.

Lemma filter_chars_other (keep : ascii -> bool) (s : string) :
  all_chars keep s = false -> Js.filter_chars keep s <> s.
Proof.
  intros H E. assert (Hall : all_chars keep (Js.filter_chars keep s) = true).
  { clear. induction s as [|c s IH]; simpl; [done|].
    destruct (keep c) eqn:Hc; [simpl; by rewrite Hc | done]. }
  rewrite E in Hall. congruence.
Qed.

Lemma split_none (sep : ascii) (s : string) :
  all_chars (fun c => negb (Ascii.eqb c sep)) s = true -> Js.split sep s = [s].
Proof.
  induction s as [|c s IH]; simpl; [done|].
  intros [Hc Hs]%andb_prop. apply negb_true_iff in Hc. by rewrite Hc, IH.
Qed.

Lemma split_app (sep : ascii) (a b : string) :
  all_chars (fun c => negb (Ascii.eqb c sep)) a = true ->
  Js.split sep (a +:+ String sep b) = a :: Js.split sep b.
Proof.
  induction a as [|c a IH].
  { intros _. change ("" +:+ String sep b) with (String sep b). simpl.
    by rewrite Ascii.eqb_refl. }
  rewrite app_cons_s. simpl. intros [Hc Ha]%andb_prop. apply negb_true_iff in Hc.
  by rewrite Hc, IH.
Qed.

Lemma includes_app (a b pat : string) :
  Js.includes b pat = true -> Js.includes (a +:+ b) pat = true.
Proof.
  intros H. induction a as [|c a IH]; [done|]. rewrite app_cons_s.
  cbn -[String.prefix]. rewrite IH. apply orb_true_r.
Qed.

Lemma includes_head (c : ascii) (s : string) : Js.includes (String c s) (String c "") = true.
Proof.
  cbn -[String.prefix]. replace (String.prefix (String c "") (String c s)) with true; [done|].
  symmetry. apply String.prefix_correct. simpl. by destruct s.
Qed.

Lemma digit_not (sep : ascii) :
  Js.is_digit sep = false ->
  forall c, Js.is_digit c = true -> negb (Ascii.eqb c sep) = true.
Proof.
  intros Hsep c Hc. apply negb_true_iff. destruct (Ascii.eqb_spec c sep) as [->|]; [|done].
  congruence.
Qed.

Lemma parseFloat_pretty (x : N) : Js.parseFloat (pretty x) = Some (inject_Z (Z.of_N x)).
Proof.
  unfold Js.parseFloat.
  destruct (read_digits_pretty x "" I) as (k & Hk & Hr). rewrite app_nil_r_s in Hr.
  rewrite Hr. destruct k; [lia | done].
Qed.

Lemma read_digits_zeros (j : nat) (s : string) :
  Js.read_digits 0 (Nat.iter j (String "0") s) =
    let '(v, n, rest) := Js.read_digits 0 s in (v, (n + j)%nat, rest).
Proof.
  induction j as [|j IH]; simpl.
  { destruct (Js.read_digits 0 s) as [[v n] rest]. by rewrite Nat.add_0_r. }
  change (Js.read_digits (0 * 10 + Js.digit_value "0") (Nat.iter j (String "0") s))
    with (Js.read_digits 0 (Nat.iter j (String "0") s)).
  rewrite IH. destruct (Js.read_digits 0 s) as [[v n] rest]. f_equal. f_equal. lia.
Qed.

(** Reading back a number printed with [k] decimals. *)
Lemma parseFloat_decimals (j k : nat) (whole n : N) :
  Js.parseFloat (Nat.iter j (String "0") (pretty whole +:+ "." +:+ digit_string k n)) =
    Some (inject_Z (Z.of_N whole) +
          inject_Z (Z.of_N (n mod 10 ^ N.of_nat k)) / inject_Z (10 ^ Z.of_nat k))%Q.
Proof.
  unfold Js.parseFloat. rewrite read_digits_zeros.
  destruct (read_digits_pretty whole ("." +:+ digit_string k n) eq_refl) as (c & Hc & Hr).
  rewrite Hr. change ("." +:+ digit_string k n) with (String "." (digit_string k n)).
  rewrite <- (app_nil_r_s (digit_string k n)), read_digits_digit_string.
  rewrite read_digits_stop by done. rewrite N.mul_0_l, N.add_0_l.
  replace (c + j =? 0)%nat with false by (symmetry; apply Nat.eqb_neq; lia).
  done.
Qed.

End TimeText.

Section TimeTextTheorems.

Import AssistantUtils TLEditor Digits.

Lemma parseFloat_nonneg (s : string) (q : Q) : Js.parseFloat s = Some q -> (0 <= q)%Q.
Proof.
  unfold Js.parseFloat. destruct (Js.read_digits 0 s) as [[ip ni] rest].
  assert (Hip : (0 <= inject_Z (Z.of_N ip))%Q) by (rewrite <- (Zle_Qle 0); lia).
  destruct rest as [|c rest]; [destruct (ni =? 0)%nat; [discriminate | by intros [= <-]]|].
  destruct c as [[] [] [] [] [] [] [] []];
    try (destruct (ni =? 0)%nat; [discriminate | by intros [= <-]]).
  destruct (Js.read_digits 0 rest) as [[fp nf] r].
  destruct (_ && _); [discriminate|]. intros [= <-].
  assert (0 <= inject_Z (Z.of_N fp) / inject_Z (10 ^ Z.of_nat nf))%Q; [|lra].
  apply Qle_shift_div_l; [rewrite <- (Zlt_Qlt 0); lia|].
  rewrite Qmult_0_l, <- (Zle_Qle 0). lia.
Qed.

Lemma number_or_0_nonneg (s : string) : (0 <= number_or_0 s)%Q.
Proof.
  unfold number_or_0. destruct (Js.parseFloat s) as [q|] eqn:E; simpl; [|lra].
  by eapply parseFloat_nonneg.
Qed.

Lemma time_chars_of_digits (s : string) :
  all_chars Js.is_digit s = true -> all_chars time_char s = true.
Proof. apply all_chars_impl. intros c Hc. unfold time_char. by rewrite Hc. Qed.

Lemma no_colon_of_digits (s : string) :
  all_chars Js.is_digit s = true ->
  all_chars (fun c => negb (Ascii.eqb c ":")) s = true.
Proof. apply all_chars_impl, digit_not. done. Qed.

(** A text of the form [minutes:seconds], the seconds made of digits and
    dots. *)
Lemma parse_minutes_seconds (m : N) (sec : string) :
  all_chars (fun c => Js.is_digit c || Ascii.eqb c ".") sec = true ->
  parseTimeToSeconds (pretty m +:+ ":" +:+ sec) =
    Some (inject_Z (Z.of_N m) * 60 + number_or_0 sec)%Q.
Proof.
  intros Hsec. unfold parseTimeToSeconds.
  assert (Hall : all_chars time_char (pretty m +:+ ":" +:+ sec) = true).
  { rewrite all_chars_app, (time_chars_of_digits _ (pretty_N_digits_only m)).
    change (":" +:+ sec) with (String ":" sec). simpl.
    eapply all_chars_impl; [|exact Hsec]. intros c. unfold time_char.
    intros [-> | ->]%orb_prop; [done | apply orb_true_r]. }
  rewrite (filter_chars_all _ _ Hall), String.eqb_refl. simpl negb.
  assert (Hne : String.eqb (pretty m +:+ ":" +:+ sec) "" = false).
  { pose proof (pretty_N_length m). destruct (pretty m) as [|c p]; [simpl in *; lia | done]. }
  rewrite Hne. simpl orb.
  rewrite (includes_app (pretty m) (":" +:+ sec) ":" (includes_head ":" sec)).
  change (":" +:+ sec) with (String ":"%char sec).
  rewrite (split_app ":" (pretty m) sec (no_colon_of_digits _ (pretty_N_digits_only m))).
  rewrite split_none.
  - simpl. unfold number_or_0 at 1. by rewrite parseFloat_pretty.
  - eapply all_chars_impl; [|exact Hsec]. intros c [Hc|Hc]%orb_prop.
    + by apply digit_not.
    + apply Ascii.eqb_eq in Hc as ->. done.
Qed.

(** X21.  [parseTimeToSeconds] returns [null] for the empty text and for
    a text with a character other than a digit, a colon or a point, and
    never returns a negative number.  A text [m:s] made of two decimal
    numerals is read as [60 m + s] seconds, and [m:s.d] with [k] decimal
    digits [d] as [60 m + s + d / 10^k]. *)
Theorem time_text_is_read (timeStr : string) :
  (all_chars time_char timeStr = false \/ timeStr = "" ->
   parseTimeToSeconds timeStr = None) /\
  (forall seconds, parseTimeToSeconds timeStr = Some seconds -> (0 <= seconds)%Q) /\
  (forall m s : N,
     parseTimeToSeconds (pretty m +:+ ":" +:+ pretty s) =
       Some (inject_Z (Z.of_N m) * 60 + inject_Z (Z.of_N s))%Q) /\
  (forall (m s fraction : N) (k : nat),
     parseTimeToSeconds (pretty m +:+ ":" +:+ pretty s +:+ "." +:+ digit_string k fraction) =
       Some (inject_Z (Z.of_N m) * 60 +
             (inject_Z (Z.of_N s) +
              inject_Z (Z.of_N (fraction mod 10 ^ N.of_nat k)) / inject_Z (10 ^ Z.of_nat k)))%Q).
Proof.
  split; [|split; [|split]].
  - unfold parseTimeToSeconds. intros [H| ->]; [|done].
    destruct (String.eqb_spec (Js.filter_chars time_char timeStr) timeStr) as [E|_]; [|done].
    by destruct (filter_chars_other _ _ H).
  - intros seconds. unfold parseTimeToSeconds.
    destruct (_ || _); [discriminate|].
    destruct (Js.includes _ ":").
    { intros [= <-].
      pose proof (number_or_0_nonneg (default "" (Js.split ":" (Js.filter_chars time_char timeStr) !! 0%nat))).
      pose proof (number_or_0_nonneg (default "" (Js.split ":" (Js.filter_chars time_char timeStr) !! 1%nat))).
      lra. }
    destruct (_ =? 2)%nat.
    { intros [= <-].
      pose proof (number_or_0_nonneg (default "" (Js.split "." (Js.filter_chars time_char timeStr) !! 0%nat))).
      pose proof (number_or_0_nonneg (default "" (Js.split "." (Js.filter_chars time_char timeStr) !! 1%nat))).
      pose proof (number_or_0_nonneg ("0." +:+ default "" (Js.split "." (Js.filter_chars time_char timeStr) !! 2%nat))).
      lra. }
    destruct (Js.includes _ ".").
    { destruct (Js.parseFloat _) as [q|] eqn:E; [|discriminate].
      destruct (Qeq_bool q 0); [discriminate|]. intros [= <-]. by eapply parseFloat_nonneg. }
    apply parseFloat_nonneg.
  - intros m s. rewrite parse_minutes_seconds.
    + unfold number_or_0. by rewrite parseFloat_pretty.
    + eapply all_chars_impl; [|apply pretty_N_digits_only]. by intros c ->.
  - intros m s fraction k. rewrite parse_minutes_seconds.
    + unfold number_or_0.
      pose proof (parseFloat_decimals 0 k s fraction) as Hp. cbn [Nat.iter nat_rect] in Hp.
      by rewrite Hp.
    + rewrite all_chars_app. apply andb_true_intro. split.
      * eapply all_chars_impl; [|apply pretty_N_digits_only]. by intros c ->.
      * change ("." +:+ digit_string k fraction) with (String "." (digit_string k fraction)).
        simpl. eapply all_chars_impl; [|apply digit_string_digits_only]. by intros c ->.
Qed.

End TimeTextTheorems.

Section DisplayRoundTrip.

Import AssistantUtils TLEditor Digits.

Lemma Qfloor_unique (x : Q) (k : Z) :
  (inject_Z k <= x)%Q -> (x < inject_Z (k + 1))%Q -> Qfloor x = k.
Proof.
  intros Hle Hlt. apply Z.le_antisymm.
  - apply Z.lt_succ_r. rewrite Zlt_Qlt. eapply Qle_lt_trans; [apply Qfloor_le | exact Hlt].
  - rewrite <- (Qfloor_Z k). by apply Qfloor_resp_le.
Qed.

Lemma Qfloor_add_Z (z : Z) (y : Q) : Qfloor (inject_Z z + y) = z + Qfloor y.
Proof.
  apply Qfloor_unique.
  - rewrite inject_Z_plus. pose proof (Qfloor_le y). lra.
  - rewrite <- Z.add_assoc, inject_Z_plus. pose proof (Qlt_floor y). lra.
Qed.

Lemma remainder_nonneg (a b : Q) :
  (0 <= a)%Q -> (0 < b)%Q ->
  Js.remainder a b = (a - b * inject_Z (Qfloor (a / b)))%Q.
Proof.
  intros Ha Hb. unfold Js.remainder.
  assert (Hq : (0 <= a / b)%Q) by (apply Qle_shift_div_l; [done | lra]).
  destruct (a / b)%Q as [n d] eqn:E. cbn [Qnum Qden Qfloor].
  rewrite Z.quot_div_nonneg; [done | | lia].
  unfold Qle in Hq. simpl in Hq. lia.
Qed.

Lemma substring_all (s : string) : String.substring 0 (String.length s) s = s.
Proof. induction s as [|c s IH]; simpl; [done | by rewrite IH]. Qed.

Lemma substring_app_l (a b : string) : String.substring 0 (String.length a) (a +:+ b) = a.
Proof.
  induction a as [|c a IH]; [by destruct b|]. rewrite app_cons_s. simpl. by rewrite IH.
Qed.

Lemma substring_app_r (a b : string) :
  String.substring (String.length a) (String.length b) (a +:+ b) = b.
Proof.
  induction a as [|c a IH]; [apply substring_all|]. rewrite app_cons_s. simpl. exact IH.
Qed.

Lemma pretty_Z_nonneg (z : Z) : 0 <= z -> pretty z = pretty (Z.to_N z).
Proof. intros H. destruct z as [|z|z]; [done | done | lia]. Qed.

(** [toFixed] on a number that is not negative. *)
Lemma toFixed_nonneg (k : nat) (x : Q) :
  (0 <= x)%Q ->
  let n := Z.to_N (Js.round (x * inject_Z (10 ^ Z.of_nat k))) in
  Js.toFixed k x =
    if (k =? 0)%nat then pretty n
    else pretty (n / 10 ^ N.of_nat k)%N +:+ "." +:+ digit_string k n.
Proof.
  intros Hx n. unfold Js.toFixed.
  assert (Hsign : Qle_bool 0 x = true) by (by apply Qle_bool_iff).
  rewrite Hsign. change ("" +:+ ?s) with s.
  assert (Hn : Qfloor (Qabs x * inject_Z (10 ^ Z.of_nat k) + (1 # 2)) =
               Js.round (x * inject_Z (10 ^ Z.of_nat k))).
  { unfold Js.round. apply Qfloor_comp. by rewrite Qabs_pos. }
  rewrite Hn.
  assert (Hr : 0 <= Js.round (x * inject_Z (10 ^ Z.of_nat k))).
  { unfold Js.round. rewrite <- (Qfloor_Z 0). apply Qfloor_resp_le.
    assert (Hy : (0 <= x * inject_Z (10 ^ Z.of_nat k))%Q).
    { apply Qmult_le_0_compat; [done|]. rewrite <- (Zle_Qle 0). lia. }
    change (inject_Z 0) with 0%Q. set (y := (x * inject_Z (10 ^ Z.of_nat k))%Q) in *. lra. }
  rewrite (pretty_Z_nonneg _ Hr). fold n.
  destruct k as [|k]; simpl Nat.eqb; cbv iota.
  { rewrite padStart0_length by apply pretty_N_length. done. }
  rewrite padStart0_pretty, length_app_s, digit_string_length.
  replace (String.length (pretty (n / 10 ^ N.of_nat (S k))%N) + S k - S k)%nat
    with (String.length (pretty (n / 10 ^ N.of_nat (S k))%N)) by lia.
  rewrite substring_app_l.
  rewrite <- (digit_string_length (S k) n) at 3. by rewrite substring_app_r.
Qed.

Lemma display_seconds_nonneg (frame : Z) (battle_time : Q) (format : string) :
  format = "backward" \/ 0 <= frame ->
  (0 <= display_seconds frame battle_time format)%Q.
Proof.
  intros H. unfold display_seconds.
  destruct (String.eqb_spec format "backward") as [_|Hne].
  - match goal with |- context [Js.gtQ ?a ?b] => pose proof (gtQ_spec a b) as Hg end.
    destruct (Js.gtQ _ _); [lra | done].
  - destruct H as [?|H]; [done|].
    apply Qle_shift_div_l; [reflexivity|]. rewrite Qmult_0_l, <- (Zle_Qle 0). done.
Qed.

(** X22.  The text that [formatGameTimeDisplay] shows for a frame (any
    frame for the format [backward], a frame that is not negative for
    the others) is accepted by [parseTimeToSeconds], which reads it as
    the time shown rounded to the millisecond, so within half a
    millisecond of the time shown.  This holds also where the seconds
    are printed as [60.000]. *)
Theorem displayed_time_reads_back (frame : Z) (battle_time : Q) (format : string) :
  format = "backward" \/ 0 <= frame ->
  let shown := display_seconds frame battle_time format in
  exists seconds,
    parseTimeToSeconds (formatGameTimeDisplay frame battle_time format) = Some seconds /\
    (seconds == inject_Z (Js.round (shown * 1000)) / 1000)%Q /\
    (Qabs (seconds - shown) <= 1 # 2000)%Q.
Proof.
  intros Hfmt shown.
  pose proof (display_seconds_nonneg frame battle_time format Hfmt) as Hshown.
  fold shown in Hshown. unfold formatGameTimeDisplay. fold shown.
  set (M := Qfloor (shown / 60)).
  assert (HM : 0 <= M).
  { unfold M. rewrite <- (Qfloor_Z 0). apply Qfloor_resp_le.
    change (inject_Z 0) with 0%Q. apply Qle_shift_div_l; [reflexivity | lra]. }
  rewrite (remainder_nonneg shown 60 Hshown eq_refl). fold M.
  set (r := (shown - 60 * inject_Z M)%Q).
  assert (Hr : (0 <= r /\ r < 60)%Q).
  { unfold r. pose proof (Qfloor_le (shown / 60)) as H1.
    pose proof (Qlt_floor (shown / 60)) as H2. fold M in H1, H2.
    rewrite inject_Z_plus in H2. change (inject_Z 1) with 1%Q in H2.
    unfold Qdiv in H1, H2. change (/ 60)%Q with (1 # 60)%Q in H1, H2.
    set (m := inject_Z M) in *. split; lra. }
  destruct Hr as [Hr0 Hr60].
  rewrite (toFixed_nonneg 3 r Hr0). cbn [Nat.eqb].
  set (n := Z.to_N (Js.round (r * inject_Z (10 ^ Z.of_nat 3)))).
  rewrite (pretty_Z_nonneg M HM).
  unfold Js.padStart0.
  set (j := (6 - String.length (pretty (n / 10 ^ N.of_nat 3)%N +:+ "." +:+ digit_string 3 n))%nat).
  rewrite parse_minutes_seconds.
  2: { rewrite zeros_digits_only0 by done. rewrite all_chars_app.
       apply andb_true_intro. split.
       - eapply all_chars_impl; [|apply pretty_N_digits_only]. by intros c ->.
       - change ("." +:+ digit_string 3 n) with (String "." (digit_string 3 n)).
         cbn [all_chars]. apply andb_true_intro. split; [done|].
         eapply all_chars_impl; [|apply digit_string_digits_only]. by intros c ->. }
  unfold number_or_0. rewrite parseFloat_decimals. cbn [default from_option id].
  eexists. split; [reflexivity|].
  assert (Hn : Z.of_N n = Js.round (r * 1000)).
  { unfold n. rewrite Z2N.id; [done|].
    unfold Js.round. rewrite <- (Qfloor_Z 0). apply Qfloor_resp_le.
    change (inject_Z 0) with 0%Q. change (inject_Z (10 ^ Z.of_nat 3)) with 1000%Q. lra. }
  assert (Hround : Js.round (shown * 1000) = 60000 * M + Z.of_N n).
  { rewrite Hn. unfold Js.round. rewrite <- Qfloor_add_Z. apply Qfloor_comp.
    unfold r. rewrite inject_Z_mult. change (inject_Z 60000) with 60000%Q. ring. }
  assert (Hsplit : Z.of_N n = 1000 * Z.of_N (n / 10 ^ N.of_nat 3) + Z.of_N (n mod 10 ^ N.of_nat 3)).
  { rewrite (N.div_mod n (10 ^ N.of_nat 3)) at 1 by done.
    change (10 ^ N.of_nat 3)%N with 1000%N. lia. }
  assert (Hval : (inject_Z (Z.of_N (Z.to_N M)) * 60 +
                  (inject_Z (Z.of_N (n / 10 ^ N.of_nat 3)) +
                   inject_Z (Z.of_N (n mod 10 ^ N.of_nat 3)) / inject_Z (10 ^ Z.of_nat 3)) ==
                  inject_Z (Js.round (shown * 1000)) / 1000)%Q).
  { rewrite Hround, Z2N.id by done. rewrite inject_Z_plus, inject_Z_mult, Hsplit.
    rewrite inject_Z_plus, inject_Z_mult.
    change (inject_Z (10 ^ Z.of_nat 3)) with 1000%Q.
    change (inject_Z 60000) with 60000%Q. change (inject_Z 1000) with 1000%Q. field. }
  split; [exact Hval|]. rewrite Hval.
  destruct (round_bounds (shown * 1000)) as [H1 H2].
  set (k := inject_Z (Js.round (shown * 1000))) in *.
  apply Qabs_Qle_condition. unfold Qdiv. change (/ 1000)%Q with (1 # 1000)%Q.
  split; lra.
Qed.

End DisplayRoundTrip.

Section Obsolete.

Import TLEditor Invariants.

(** X23.  Whenever the method [calculateFramesFromCostTiming] returns a
    frame, the function [calculateFramesFromCost] that it replaces
    returns the same frame for the same target and state.  Where the
    method throws (the target is not reached and the rate is 0 or
    negative), the function returns [Infinity] for a rate of 0 and a
    frame at or before the current one for a negative rate. *)
Theorem obsolete_cost_estimate_agrees (p : Processor) (target : Q) (row : option Row) :
  (forall f row',
     calculateFramesFromCostTiming p target row = Ok (f, row') ->
     calculateFramesFromCost target (state p) = Some f) /\
  (forall e,
     calculateFramesFromCostTiming p target row = Err e ->
     e = ZeroRecovery /\
     match calculateFramesFromCost target (state p) with
     | None => (total_cost_recovery (state p) == 0)%Q
     | Some f => (total_cost_recovery (state p) < 0)%Q /\ f <= current_frame (state p)
     end).
Proof.
  unfold calculateFramesFromCostTiming, calculateFramesFromCost.
  set (current := (remaining_cost_points (state p) / COST_POINT_UNIT)%Q).
  set (rate := total_cost_recovery (state p)).
  pose proof (gtQ_spec target current) as Hcur. unfold Js.gtQ in Hcur. unfold Js.leQ.
  destruct (Qle_bool target current); simpl in Hcur.
  { split; [by intros f row' [= <- _] | discriminate]. }
  pose proof (gtQ_spec rate 0) as Hrate. unfold Js.gtQ in Hrate.
  destruct (Qle_bool rate 0) eqn:E; simpl in Hrate.
  - split; [discriminate|]. intros e [= <-]. split; [done|].
    destruct (Qeq_bool rate 0) eqn:E0; [by apply Qeq_bool_eq|].
    assert (Hneg : (rate < 0)%Q).
    { apply Qle_lteq in Hrate as [?|Hz]; [done|]. apply Qeq_eq_bool in Hz. congruence. }
    split; [done|].
    assert (Hx : ((target - current) * COST_POINT_UNIT / rate <= 0)%Q).
    { assert (Hnum : (0 <= (target - current) * COST_POINT_UNIT)%Q).
      { apply Qmult_le_0_compat; [lra | discriminate]. }
      set (num := ((target - current) * COST_POINT_UNIT)%Q) in *.
      assert (Hinv : (/ rate < 0)%Q).
      { destruct rate as [[|n|n] d]; try done. }
      unfold Qdiv. assert (0 <= num * - / rate)%Q; [|lra].
      apply Qmult_le_0_compat; lra. }
    assert (Js.ceil ((target - current) * COST_POINT_UNIT / rate) <= 0); [|lia].
    unfold Js.ceil. rewrite <- (Qceiling_Z 0). by apply Qceiling_resp_le.
  - split; [|discriminate]. intros f row' [= <- _].
    destruct (Qeq_bool rate 0) eqn:E0; [|done].
    apply Qeq_bool_eq in E0. lra.
Qed.

End Obsolete.

Section Rerun.

Import TLEditor Invariants Samples.

(** *** The label map is not read when a log entry is made *)

Lemma with_label_map_twice (p : Processor) (m m' : gmap string LabelEntry) :
  with_label_map (with_label_map p m) m' = with_label_map p m'.
Proof. reflexivity. Qed.

Lemma with_label_map_same (p : Processor) : with_label_map p (label_map p) = p.
Proof. by destruct p. Qed.

Lemma addEventToTimeline_labels (p : Processor) (m : gmap string LabelEntry)
    (input : TimelineInput) :
  addEventToTimeline (with_label_map p m) input =
    p1 ← addEventToTimeline p input; Ok (with_label_map p1 m).
Proof.
  unfold addEventToTimeline. simpl.
  change (accrue (with_label_map p m) (target_frame_of input))
    with (accrue p (target_frame_of input)).
  destruct (accrue p (target_frame_of input)) as [points overflow].
  change (students_after (with_label_map p m) input) with (students_after p input).
  by destruct (calculateTotalCostRecovery _ _ _ _).
Qed.

Lemma detectAndProcessBuff_labels (p : Processor) (m : gmap string LabelEntry)
    (name : string) (f : Z) :
  detectAndProcessBuff (with_label_map p m) name f =
    with_label_map (detectAndProcessBuff p name f) m.
Proof.
  unfold detectAndProcessBuff. simpl. by destruct (detectCostRecoveryBuff name (buff_data p)).
Qed.

Lemma addSS_labels (key : string) (level : Z) (p : Processor)
    (m : gmap string LabelEntry) :
  addSS key level (with_label_map p m) = with_label_map (addSS key level p) m.
Proof.
  unfold addSS. simpl. destruct (1 <=? level); [|done].
  by destruct (buff_data p ≫= _).
Qed.

Lemma publish_label_labels (p : Processor) (row : Row) (f : Z) :
  exists m, publish_label p row f = with_label_map p m.
Proof.
  unfold publish_label. destruct (_ && _); eexists; [reflexivity|].
  symmetry. apply with_label_map_same.
Qed.

Lemma processSpecialCommand_labels (p : Processor) (m : gmap string LabelEntry)
    (row : Row) :
  processSpecialCommand (with_label_map p m) row =
    '(p1, row1) ← processSpecialCommand p row; Ok (with_label_map p1 m, row1).
Proof.
  unfold processSpecialCommand. simpl.
  repeat match goal with
         | |- context [if ?b then _ else _] => destruct b
         | |- context [match ?o with Some _ => _ | None => _ end] => destruct o
         end; reflexivity.
Qed.

(** *** A row that carries its frame *)

Lemma estimateFrameFromRow_frame (p : Processor) (row : Row) (f : Z) :
  row_frame row = Some f -> f <> 0 -> estimateFrameFromRow p row = Ok (f, row).
Proof.
  intros Hf Hnz. unfold estimateFrameFromRow. rewrite Hf. simpl.
  by destruct (Z.eqb_spec f 0).
Qed.

(** The loop of [resolveRowTiming] on a row that carries the frame
    [frame] commits the transitions that the loop on the row it was
    made from has committed, if that loop has ended with the estimate
    [frame], not behind the frame it has reached. *)
Lemma resolve_loop_again (fuel n : nat) (p p1 : Processor) (row row1 resolved : Row)
    (index : nat) (frame : Z) (n1 : nat) (m : gmap string LabelEntry) :
  resolve_loop fuel n p row index = Ok (frame, n1, p1, row1) ->
  current_frame (state p1) <= frame ->
  row_frame resolved = Some frame -> frame <> 0 ->
  resolve_loop fuel n (with_label_map p m) resolved index =
    Ok (frame, n1, with_label_map p1 m, resolved).
Proof.
  intros Hloop Hle Hf Hnz. revert n p row Hloop.
  induction fuel as [|fuel IH]; intros n p row Hloop; [discriminate|].
  simpl in Hloop. simpl.
  rewrite (estimateFrameFromRow_frame _ _ _ Hf Hnz). simpl.
  destruct (estimateFrameFromRow p row) as [[e row2]|?]; simpl in Hloop; [|discriminate].
  destruct (findMostRecentAdditionalEvent (additional_events p) (current_frame (state p)))
    as [tr|] eqn:Hfind; [|by injection Hloop as <- <- <- <-].
  destruct (Z.leb_spec (tr_frame tr) e) as [Hdue|Hlater].
  - rewrite addEventToTimeline_labels.
    destruct (addEventToTimeline p _) as [p2|?] eqn:Hadd; simpl in Hloop; [|discriminate].
    simpl.
    assert (Hreached : tr_frame tr <= frame).
    { apply addEventToTimeline_Ok in Hadd as (rate & _ & Hst & _).
      destruct (transition_frame _ _ _ Hfind) as [_ Htarget].
      apply resolve_loop_later in Hloop as Hl. apply later_frame in Hl.
      rewrite Hst in Hl. cbn [current_frame] in Hl. rewrite Htarget in Hl. lia. }
    destruct (Z.leb_spec (tr_frame tr) frame); [|lia].
    by apply (IH _ _ row2).
  - injection Hloop as <- <- <- <-.
    by destruct (Z.leb_spec (tr_frame tr) e); [lia|].
Qed.

Lemma processed_event_in_order (p : Processor) (row : Row) (f : Z) :
  current_frame (state p) <= f ->
  processed_event_of p row f =
    {| ie_frame := f; ie_cost_used := row_cost_used row;
       ie_event_name := row_event_name row;
       ie_note := Some (default [] (row_note row));
       ie_remaining_students := None |}.
Proof.
  intros H. unfold processed_event_of.
  by destruct (Z.ltb_spec f (current_frame (state p))); [lia|].
Qed.

(** The commit of a row that was not reordered, and the commit of the
    row as that commit has left it. *)
Lemma commit_row_again (p p2 : Processor) (row row2 : Row) (f : Z) (ev : InputEvent)
    (m : gmap string LabelEntry) :
  commit_row p row f = Ok (p2, row2, ev) ->
  current_frame (state p) <= f ->
  row2 = with_row_frame row f /\
  exists m', commit_row (with_label_map p m) row2 f = Ok (with_label_map p2 m', row2, ev).
Proof.
  intros Hc Hle.
  apply commit_row_Ok in Hc as (Hev & Hrow & Hadd).
  rewrite (processed_event_in_order _ _ _ Hle) in Hev.
  assert (Hrow2 : row2 = with_row_frame row f).
  { rewrite Hrow. unfold written_row. rewrite (processed_event_in_order _ _ _ Hle).
    by destruct (Z.ltb_spec f (current_frame (state p))); [lia|]. }
  split; [exact Hrow2|].
  destruct (publish_label_labels p row (ie_frame ev)) as [m1 Hp1].
  destruct (publish_label_labels (with_label_map p m) row2 f) as [m2 Hp2].
  rewrite Hp1, detectAndProcessBuff_labels, addEventToTimeline_labels in Hadd.
  destruct (addEventToTimeline (detectAndProcessBuff p _ _) _) as [p3|?] eqn:Hadd3;
    simpl in Hadd; [|discriminate].
  injection Hadd as <-.
  exists m2. unfold commit_row.
  assert (Hev2 : processed_event_of (with_label_map p m) row2 f = ev).
  { rewrite processed_event_in_order by exact Hle. rewrite Hev, Hrow2. reflexivity. }
  rewrite Hev2.
  assert (Hf : ie_frame ev = f) by (by rewrite Hev).
  rewrite Hf in *. rewrite Hp2, with_label_map_twice.
  rewrite detectAndProcessBuff_labels, addEventToTimeline_labels, Hadd3. simpl.
  do 2 f_equal. unfold written_row. rewrite processed_event_in_order by exact Hle.
  destruct (Z.ltb_spec f (current_frame (state (with_label_map p m)))); [simpl in *; lia|].
  simpl. by rewrite Hrow2.
Qed.

Lemma not_reordered (p : Processor) (row : Row) (f : Z) :
  REORDERED_NOTE ∉ default [] (ie_note (processed_event_of p row f)) ->
  current_frame (state p) <= f.
Proof.
  unfold processed_event_of. simpl.
  destruct (Z.ltb_spec f (current_frame (state p))) as [_|Hle]; [|done].
  intros Hnot. exfalso. apply Hnot, elem_of_app. right. by left.
Qed.

Lemma resolveRowTiming_again (p p2 : Processor) (row row2 : Row) (index : nat)
    (ev : InputEvent) (m : gmap string LabelEntry) :
  resolveRowTiming p row index = Ok (p2, row2, ev) ->
  0 < current_frame (state p) ->
  REORDERED_NOTE ∉ default [] (ie_note ev) ->
  exists m', resolveRowTiming (with_label_map p m) row2 index
             = Ok (with_label_map p2 m', row2, ev).
Proof.
  intros (f & n & p1 & row1 & Hloop & Hcommit)%resolveRowTiming_Ok Hpos Hnote.
  assert (Hle : current_frame (state p1) <= f).
  { apply commit_row_Ok in Hcommit as (Hev & _). rewrite Hev in Hnote.
    by apply not_reordered in Hnote. }
  destruct (commit_row_again _ _ _ _ _ _ m Hcommit Hle) as (Hrow2 & m' & Hagain).
  exists m'. unfold resolveRowTiming.
  rewrite (resolve_loop_again _ _ _ _ _ _ row2 _ _ _ m Hloop Hle).
  - simpl. by rewrite Hagain.
  - by rewrite Hrow2.
  - apply resolve_loop_later, later_frame in Hloop. lia.
Qed.

(** *** Special commands *)

Lemma processSpecialCommand_again (p p1 : Processor) (row row1 : Row) :
  processSpecialCommand p row = Ok (p1, row1) ->
  processSpecialCommand p row1 = Ok (p1, row1).
Proof.
  intros H. rewrite <- H. symmetry. apply processSpecialCommand_same.
  apply processSpecialCommand_fields in H as (_ & _ & _ & _ & _ & ->). reflexivity.
Qed.

(** A row that is no special command leaves the processor as it is, and
    so does every row of that name. *)
Lemma processSpecialCommand_plain (p p1 : Processor) (row row1 other : Row) :
  processSpecialCommand p row = Ok (p1, row1) ->
  is_special_command row1 = false ->
  row_event_name other = row_event_name row ->
  is_special_command other = false ->
  p1 = p /\ processSpecialCommand p other = Ok (p, other).
Proof.
  intros H Hflag Hname Hother.
  assert (Hsame : with_is_special_command other false = other).
  { destruct other. simpl in Hother. by rewrite Hother. }
  revert H. unfold processSpecialCommand. rewrite Hname, Hsame.
  repeat match goal with
         | |- context [if ?b then _ else _] => destruct b
         | |- context [match ?o with Some _ => _ | None => _ end] => destruct o
         end;
    try discriminate; intros [= <- <-]; try done.
Qed.

(** *** The rows of a conversion, converted again *)

Lemma process_rows_again (rows rows1 : list Row) (i : nat) (p final : Processor)
    (m : gmap string LabelEntry) :
  process_rows i rows p = Ok (final, rows1) ->
  0 < current_frame (state p) ->
  (forall e, e ∈ timeline final -> REORDERED_NOTE ∉ te_note e) ->
  exists m', process_rows i rows1 (with_label_map p m) = Ok (with_label_map final m', rows1).
Proof.
  revert rows1 i p m. induction rows as [|row rest IH]; intros rows1 i p m Hrun Hpos Hnotes.
  { injection Hrun as <- <-. by exists m. }
  simpl in Hrun.
  destruct (processSpecialCommand p row) as [[p1 row1]|?] eqn:Hspecial; [|discriminate].
  simpl in Hrun.
  destruct (is_special_command row1) eqn:Hflag.
  - destruct (process_rows (S i) rest p1) as [[p2 rest1]|?] eqn:Hrest; [|discriminate].
    injection Hrun as <- <-.
    assert (Hpos1 : 0 < current_frame (state p1)).
    { apply processSpecialCommand_fields in Hspecial as (-> & _). exact Hpos. }
    destruct (IH _ _ _ m Hrest Hpos1 Hnotes) as [m' Hagain].
    exists m'. simpl.
    rewrite processSpecialCommand_labels, (processSpecialCommand_again _ _ _ _ Hspecial).
    simpl. by rewrite Hflag, Hagain.
  - destruct (resolveRowTiming p1 row1 i) as [[[p2 row2] ev]|?] eqn:Hrow; [|discriminate].
    simpl in Hrun.
    destruct (process_rows (S i) rest p2) as [[p3 rest1]|?] eqn:Hrest; [|discriminate].
    injection Hrun as <- <-.
    destruct (resolveRowTiming_outcome _ _ _ _ _ _ Hrow)
      as (_ & _ & _ & _ & [note Hrow2] & _ & transitions & committed & Hlog & _ & _ & _ & _ & Hnote).
    assert (Hname : row_event_name row2 = row_event_name row /\ is_special_command row2 = false).
    { rewrite <- Hrow2. simpl.
      apply processSpecialCommand_fields in Hspecial as (_ & _ & _ & _ & _ & Hrow1).
      rewrite Hrow1. simpl. split; [done|]. by rewrite Hrow1 in Hflag. }
    destruct Hname as [Hname Hflag2].
    destruct (processSpecialCommand_plain _ _ _ _ row2 Hspecial Hflag Hname Hflag2)
      as [-> Hplain].
    assert (Hev : REORDERED_NOTE ∉ default [] (ie_note ev)).
    { rewrite <- Hnote. apply Hnotes.
      apply process_rows_later, later_timeline in Hrest as [more ->].
      rewrite Hlog, !elem_of_app. left. right. right. by left. }
    destruct (resolveRowTiming_again _ _ _ _ _ _ m Hrow Hpos Hev) as [m1 Hagain].
    assert (Hpos2 : 0 < current_frame (state p2)).
    { apply resolveRowTiming_later, later_frame in Hrow. lia. }
    destruct (IH _ _ _ m1 Hrest Hpos2 Hnotes) as [m' Hrest'].
    exists m'. simpl.
    rewrite processSpecialCommand_labels, Hplain. simpl.
    by rewrite Hflag2, Hagain; simpl; rewrite Hrest'.
Qed.

Lemma constructor_again (rows rows1 : list Row) (s : Settings) (bd w : option BuffData) :
  constructor rows1 s bd w =
    p ← constructor rows s bd w; Ok (with_label_map p (InitializeLabelMap rows1)).
Proof.
  unfold constructor.
  change (initial rows1 s bd w)
    with (with_label_map (initial rows s bd w) (InitializeLabelMap rows1)).
  rewrite addEventToTimeline_labels.
  destruct (addEventToTimeline (initial rows s bd w) _) as [p1|?]; [|done]. simpl.
  rewrite addEventToTimeline_labels.
  destruct (addEventToTimeline p1 _) as [p2|?]; [|done]. simpl.
  unfold addCherinoSS, addKanoeSS. simpl.
  by rewrite !addSS_labels.
Qed.

(** C8, as the code has it.  The conversion writes the frame, the time
    and the notes it has resolved into the rows it was given.  When no
    entry of the log carries the note of a reordered row, a second
    conversion of those rows, with the same settings and catalog, gives
    the same log, entry for entry, the same intervals and the same
    final state, and leaves the rows as they are. *)
Theorem rerun_without_reordering_same_log (rows rows1 : list Row) (s : Settings)
    (bd w : option BuffData) (p : Processor) :
  convert rows s bd w = Ok (p, rows1) ->
  (forall e, e ∈ timeline p -> REORDERED_NOTE ∉ te_note e) ->
  exists p2,
    convert rows1 s bd w = Ok (p2, rows1) /\
    timeline p2 = timeline p /\
    additional_events p2 = additional_events p /\
    state p2 = state p.
Proof.
  intros Hrun Hnotes. unfold convert in *.
  rewrite (constructor_again rows rows1).
  destruct (constructor_spec rows s bd w) as (p0 & e0 & e1 & Hc & _ & Hframe & _).
  rewrite Hc in *. simpl in *. unfold createTimelineJSON in *.
  destruct (process_rows 0 rows p0) as [[final rows']|?] eqn:Hrows; [|discriminate].
  injection Hrun as <- <-.
  destruct (process_rows_again _ _ _ _ _ (InitializeLabelMap rows') Hrows) as [m' Hagain];
    [lia | exact Hnotes |].
  rewrite Hagain. simpl. by eexists.
Qed.

(** A conversion of three rows, one anchored by a cost that is already
    there, and the conversion of the rows it leaves. *)
Lemma rerun_without_reordering_same_log_witness :
  exists p rows1 p2,
    convert [at_time 5 "水着ホシノ" 3; at_cost 1 true "B" 1; at_time 20 "C" 0]
      default_settings (Some Buffs.BUFF_DATA) (Some Buffs.BUFF_DATA) = Ok (p, rows1) /\
    convert rows1 default_settings (Some Buffs.BUFF_DATA) (Some Buffs.BUFF_DATA)
      = Ok (p2, rows1) /\
    timeline p2 = timeline p.
Proof.
  destruct (convert [at_time 5 "水着ホシノ" 3; at_cost 1 true "B" 1; at_time 20 "C" 0]
              default_settings (Some Buffs.BUFF_DATA) (Some Buffs.BUFF_DATA))
    as [[p rows1]|e] eqn:E; [|vm_compute in E; discriminate].
  assert (Hnotes : forall e, e ∈ timeline p -> REORDERED_NOTE ∉ te_note e).
  { apply Forall_forall. vm_compute in E. injection E as <- <-.
    repeat (constructor; [apply (bool_decide_unpack _); vm_compute; exact I|]).
    constructor. }
  destruct (rerun_without_reordering_same_log _ _ _ _ _ _ E Hnotes) as (p2 & H2 & Htl & _).
  exists p, rows1, p2. split; [reflexivity|]. split; [exact H2 | exact Htl].
Defined.

End Rerun.

Section FurtherInstances.

Import TLEditor Invariants Samples Utilities AssistantUtils.

(** The pending interval of [zero_length_processor] is not in effect at
    frame 100: six participants with the SS bonus recover 5052 points a
    frame. *)
Lemma base_rate_without_buffs_witness :
  exists rate,
    calculateTotalCostRecovery (additional_events zero_length_processor) 100 true 6 = Ok rate /\
    (rate == 5052)%Q.
Proof.
  destruct (base_rate_without_buffs (additional_events zero_length_processor) 100 true 6)
    as (rate & Hrate & Heq).
  - intros e He. apply list_elem_of_singleton in He. subst e. reflexivity.
  - exists rate. split; [exact Hrate|]. rewrite Heq. reflexivity.
Defined.

(** A reference to the label [#b], which no row carries, at frame 60. *)
Lemma reference_to_missing_label_witness :
  exists p' row' ev,
    resolveRowTiming forward_label_processor (at_reference "#b" "+" 1 "X") 0 = Ok (p', row', ev) /\
    ie_frame ev = 60 /\
    row_frame row' = Some 60 /\
    row_note row' = Some ["#bというラベルは存在しません"; REORDERED_NOTE].
Proof.
  destruct (resolveRowTiming forward_label_processor (at_reference "#b" "+" 1 "X") 0)
    as [[[p' row'] ev]|e] eqn:E; [|vm_compute in E; discriminate].
  exists p', row', ev. split; [reflexivity|].
  assert (Hanchor : anchor_of (at_reference "#b" "+" 1 "X") = ReferenceAnchor "#b")
    by reflexivity.
  assert (Hmissing : label_map forward_label_processor !! "#b" = None)
    by (vm_compute; reflexivity).
  assert (Hframe : 0 < current_frame (state forward_label_processor)) by (simpl; lia).
  destruct (reference_to_missing_label _ _ 0%nat _ Hanchor Hmissing Hframe) as (Hok & _).
  destruct (Hok _ _ _ E) as (Hf & _ & Hrf & Hn & _).
  split; [exact Hf|]. split; [exact Hrf|]. exact Hn.
Defined.

(** A row anchored at cost 1 that publishes the label [#a]: it is
    committed at frame 132, and a reference to [#a] plus one second of
    the countdown resolves to frame 102. *)
Lemma label_resolves_to_committed_frame_witness :
  exists p' row' ev,
    resolveRowTiming forward_label_processor (labelled_at_cost 1 "Y" "#a") 0
      = Ok (p', row', ev) /\
    ie_frame ev = 132 /\
    label_map p' !! "#a" =
      Some {| le_time := Some (framesToSeconds 132); le_frame := Some 132 |} /\
    calculateFramesFromReference (at_reference "#a" "+" 1 "X") (label_map p') (settings p')
      = (102, at_reference "#a" "+" 1 "X").
Proof.
  destruct (resolveRowTiming forward_label_processor (labelled_at_cost 1 "Y" "#a") 0)
    as [[[p' row'] ev]|e] eqn:E; [|vm_compute in E; discriminate].
  exists p', row', ev. split; [reflexivity|].
  assert (Hf : ie_frame ev = 132) by (vm_compute in E; by injection E as <- <- <-).
  split; [exact Hf|].
  assert (Hs : settings p' = default_settings) by (vm_compute in E; by injection E as <- <- <-).
  destruct (label_resolves_to_committed_frame _ _ _ _ _ _ "#a" E) as (Hl & _ & Href).
  - reflexivity.
  - vm_compute. discriminate.
  - simpl. lia.
  - rewrite Hf in Hl. split; [exact Hl|].
    rewrite (Href (at_reference "#a" "+" 1 "X")) by reflexivity.
    rewrite Hf, Hs. reflexivity.
Defined.

(** A conversion with the catalog: the points stay within the cap of
    10, which is 3,000,000 points. *)
Lemma cost_never_exceeds_cap_witness :
  exists p rows',
    convert [at_time 5 "水着ホシノ" 3; at_time 170 "B" 2; at_cost 5 true "C" 5] default_settings
      (Some Buffs.BUFF_DATA) (Some Buffs.BUFF_DATA) = Ok (p, rows') /\
    max_cost_points p = 3000000%Q /\
    (remaining_cost_points (state p) <= max_cost_points p)%Q /\
    Forall (fun e => (te_remaining_cost_points e <= max_cost_points p)%Q) (timeline p).
Proof.
  destruct (convert [at_time 5 "水着ホシノ" 3; at_time 170 "B" 2; at_cost 5 true "C" 5] default_settings
      (Some Buffs.BUFF_DATA) (Some Buffs.BUFF_DATA)) as [[p rows']|e] eqn:E; [|vm_compute in E; discriminate].
  exists p, rows'. split; [reflexivity|].
  split; [vm_compute in E; by injection E as <- <-|].
  assert (Hcap : forall c, max_cost default_settings = Some c -> (0 <= c)%Q)
    by (intros c Hc; discriminate Hc).
  assert (Hcosts : forall row,
            row ∈ [at_time 5 "水着ホシノ" 3; at_time 170 "B" 2; at_cost 5 true "C" 5] ->
            (0 <= row_cost_used row)%Q).
  { apply Forall_forall. repeat (constructor; [by vm_compute|]). constructor. }
  destruct (cost_never_exceeds_cap _ _ _ _ _ _ Hcap Hcosts E) as (Hnow & Hlog).
  split; [exact Hnow|].
  apply Forall_forall. intros entry Hentry.
  destruct (Hlog entry Hentry) as [Hentry_capped _]. exact Hentry_capped.
Defined.

(** A row anchored at cost 1 at frame 60 with rate 4200: it is logged at
    frame 132 and carries that frame and the time 4.4. *)
Lemma row_written_back_as_logged_witness :
  exists p' row' ev,
    resolveRowTiming forward_label_processor (at_cost 1 true "C" 1) 0 = Ok (p', row', ev) /\
    ie_frame ev = 132 /\
    current_frame (state p') = 132 /\
    row_frame row' = Some 132 /\
    row_time row' = Some (framesToSeconds 132).
Proof.
  destruct (resolveRowTiming forward_label_processor (at_cost 1 true "C" 1) 0)
    as [[[p' row'] ev]|e] eqn:E; [|vm_compute in E; discriminate].
  exists p', row', ev. split; [reflexivity|].
  assert (Hf : ie_frame ev = 132) by (vm_compute in E; by injection E as <- <- <-).
  destruct (row_written_back_as_logged _ _ _ _ _ _ E) as (_ & Hcur & Hrow & Htime & _).
  rewrite Hf in Hcur, Hrow, Htime. done.
Defined.

(** A conversion of three rows, the second a special command: three
    rows come back, the second flagged and the others with frames. *)
Lemma rows_after_conversion_witness :
  exists p rows',
    convert [at_time 5 "A" 3; special_command 6 "コスト回復力増加" 100 10;
                 at_cost 5 true "C" 5] special_settings
      (Some Buffs.BUFF_DATA) (Some Buffs.BUFF_DATA) = Ok (p, rows') /\
    length rows' = 3%nat /\
    (forall i row', rows' !! i = Some row' -> is_special_command row' = false ->
       exists f, row_frame row' = Some f /\ 60 <= f <= current_frame (state p)).
Proof.
  destruct (convert [at_time 5 "A" 3; special_command 6 "コスト回復力増加" 100 10;
                         at_cost 5 true "C" 5] special_settings
      (Some Buffs.BUFF_DATA) (Some Buffs.BUFF_DATA))
    as [[p rows']|e] eqn:E; [|vm_compute in E; discriminate].
  exists p, rows'. split; [reflexivity|].
  destruct (rows_after_conversion _ _ _ _ _ _ E) as (Hlen & Hrows & _).
  split; [exact Hlen|].
  intros i row' Hi Hspecial.
  destruct (lookup_lt_is_Some_2
              [at_time 5 "A" 3; special_command 6 "コスト回復力増加" 100 10;
               at_cost 5 true "C" 5] i) as [row Hrow].
  { rewrite <- Hlen. by eapply lookup_lt_Some. }
  specialize (Hrows i row row' Hrow Hi). rewrite Hspecial in Hrows.
  destruct Hrows as (note & f & -> & Hf & _).
  exists f. split; [reflexivity | exact Hf].
Defined.

(** Frame 43 of a battle of 180 seconds is shown as [2:58.567] and read
    back as 178.567. *)
Lemma displayed_time_reads_back_witness :
  formatGameTimeDisplay 43 180 "backward" = "2:58.567" /\
  exists seconds,
    parseTimeToSeconds (formatGameTimeDisplay 43 180 "backward") = Some seconds /\
    (seconds == 178567 # 1000)%Q.
Proof.
  split; [reflexivity|].
  destruct (displayed_time_reads_back 43 180 "backward") as (seconds & Hparse & Heq & _).
  - by left.
  - exists seconds. split; [exact Hparse|]. rewrite Heq. reflexivity.
Defined.

End FurtherInstances.
